(** * Hue bridge adapter: message parser, command queue and exchange protocol

    A shallow embedding of the TypeScript sources of the Hue bridge
    adapter of zigbee-herdsman:

    - [driver/constants.ts]      (prefix table and command templates),
    - [driver/messageParser.ts]  ([MessageParser.parse]),
    - [utils/queue.ts]           ([CommandQueue]),
    - [adapter/hueBridgeAdapter.ts] ([sendZdo] with the conversion of its
      response, [sendZclFrameToEndpoint], [sendZclFrameToGroup],
      [sendZclFrameToAll], [permitJoin], [initializeClustersAndEndpoints],
      [processMessages]).

    Conventions of the embedding.

    - A JavaScript string is a Rocq [string]; one [ascii] stands for one code
      unit.  The bridge speaks ASCII; code units above 255 are not
      represented.
    - A JavaScript number is a [Number]: [NaN] or an integer [Int z].  The
      two zeros are identified ([===] does not tell them apart) and an
      integer is kept exact: the embedding is that of the code for the
      integers a double holds exactly, the safe integers, and the
      statements that read or write a number say so.  The one place where
      a larger number changes the control flow, the loop over the
      neighbour table, is modelled for every count.
    - A call that never returns is [Hang].
    - [undefined] is [None].
    - A function that can throw returns a [Result]. *)

From Stdlib Require Import ZArith String Ascii List Bool Lia.
From stdpp Require Import base option list gmap strings.
Import ListNotations.

Local Open Scope string_scope.
Local Open Scope Z_scope.

(* ===================================================================== *)
(** * JavaScript values *)
(* ===================================================================== *)

Module JS.

(** Exceptions the modelled code can raise. *)
Inductive Exception : Type :=
| TypeError (what : string)
| RangeError (what : string)
| Error (message : string).

(** Completion of a call: a value, a thrown exception, or none at all:
    [Hang] is a call that never returns (a loop that does not end). *)
Inductive Result (A : Type) : Type :=
| Ok (a : A)
| Throw (e : Exception)
| Hang.
Arguments Ok {A} a.
Arguments Throw {A} e.
Arguments Hang {A}.

Definition bind {A B} (r : Result A) (k : A -> Result B) : Result B :=
  match r with
  | Ok a => k a
  | Throw e => Throw e
  | Hang => Hang
  end.

(** [l.map(f)] for an [f] that can throw: the first exception ends it. *)
Fixpoint mapM {A B} (f : A -> Result B) (l : list A) : Result (list B) :=
  match l with
  | [] => Ok []
  | a :: rest =>
    bind (f a) (fun b => bind (mapM f rest) (fun bs => Ok (b :: bs)))
  end.

(** Numbers. *)
Inductive Number : Type :=
| NaN
| Int (z : Z).

Definition Number_eqb (a b : Number) : bool :=
  match a, b with
  | Int x, Int y => x =? y
  | _, _ => false          (* NaN === anything is false *)
  end.

Definition Number_add (a b : Number) : Number :=
  match a, b with
  | Int x, Int y => Int (x + y)
  | _, _ => NaN
  end.

(** [ToInt32]: NaN goes to 0, an integer wraps into [-2^31, 2^31). *)
Definition ToInt32 (a : Number) : Z :=
  match a with
  | NaN => 0
  | Int z =>
    let m := z mod 4294967296 in
    if 2147483648 <=? m then m - 4294967296 else m
  end.

(** [a & b]. *)
Definition bitand (a b : Number) : Number :=
  Int (Z.land (ToInt32 a) (ToInt32 b)).

(** [a >> b]: the sign-propagating shift of [ToInt32 a] by the low five
    bits of [b]. *)
Definition shr (a b : Number) : Number :=
  Int (Z.shiftr (ToInt32 a) (Z.land (ToInt32 b) 31)).

(** [ToBoolean] of a number that may be [undefined]. *)
Definition truthy (n : option Number) : bool :=
  match n with
  | Some (Int z) => negb (z =? 0)
  | _ => false
  end.

(** [ToIntegerOrInfinity] on the numbers of the model. *)
Definition ToInteger (a : Number) : Z :=
  match a with
  | NaN => 0
  | Int z => z
  end.

(* ------------------------------------------------------------------- *)
(** ** Code units *)

Definition code (c : ascii) : Z := Z.of_nat (nat_of_ascii c).
Definition chr (z : Z) : ascii := ascii_of_nat (Z.to_nat z).

Definition between (lo hi : Z) (c : ascii) : bool :=
  (lo <=? code c) && (code c <=? hi).

Definition is_upper (c : ascii) : bool := between 65 90 c.
Definition is_lower (c : ascii) : bool := between 97 122 c.
Definition is_digit (c : ascii) : bool := between 48 57 c.

(** [toLowerCase] on one code unit: A-Z, and the Latin-1 capitals
    U+00C0..U+00DE (U+00D7, the multiplication sign, excepted). *)
Definition lower_chr (c : ascii) : ascii :=
  if is_upper c then chr (code c + 32)
  else if between 192 222 c && negb (code c =? 215) then chr (code c + 32)
  else c.

(** [toUpperCase] on one code unit of the ASCII range (the templates only
    apply it to hexadecimal text). *)
Definition upper_chr (c : ascii) : ascii :=
  if is_lower c then chr (code c - 32) else c.

Fixpoint map_str (f : ascii -> ascii) (s : string) : string :=
  match s with
  | EmptyString => EmptyString
  | String c r => String (f c) (map_str f r)
  end.

Definition toLowerCase (s : string) : string := map_str lower_chr s.
Definition toUpperCase (s : string) : string := map_str upper_chr s.

(* ------------------------------------------------------------------- *)
(** ** String methods *)

Definition len (s : string) : Z := Z.of_nat (String.length s).

(** [s.startsWith(p)]. *)
Definition startsWith (s p : string) : bool := String.prefix p s.

(** [s.includes(p)]. *)
Fixpoint includes (s p : string) : bool :=
  if String.prefix p s then true
  else match s with
  | EmptyString => false
  | String _ r => includes r p
  end.

(** Relative index of [slice]: negative counts from the end, then clamp. *)
Definition rel_index (n i : Z) : Z :=
  if i <? 0 then Z.max (n + i) 0 else Z.min i n.

(** [s.slice(b, e)]. *)
Definition slice (s : string) (b e : Z) : string :=
  let from := rel_index (len s) b in
  let to := rel_index (len s) e in
  String.substring (Z.to_nat from) (Z.to_nat (Z.max (to - from) 0)) s.

(** [s.split(sep)] for a one-character separator. *)
Fixpoint split (sep : ascii) (s : string) : list string :=
  match s with
  | EmptyString => [EmptyString]
  | String c r =>
    if Ascii.eqb c sep then EmptyString :: split sep r
    else match split sep r with
    | [] => [String c EmptyString]
    | w :: ws => String c w :: ws
    end
  end.

(** [s.replace(/c/g, '')]: every occurrence of one character removed. *)
Fixpoint remove_all (c : ascii) (s : string) : string :=
  match s with
  | EmptyString => EmptyString
  | String d r => if Ascii.eqb d c then remove_all c r else String d (remove_all c r)
  end.

Fixpoint drop (n : nat) (s : string) : string :=
  match n, s with
  | O, _ => s
  | S _, EmptyString => EmptyString
  | S m, String _ r => drop m r
  end.

(** [s.replace(p, '')] for a string pattern: the first occurrence only. *)
Fixpoint remove_first (p s : string) : string :=
  if String.prefix p s then drop (String.length p) s
  else match s with
  | EmptyString => EmptyString
  | String c r => String c (remove_first p r)
  end.

(** [s.replace(/^p/, '')]. *)
Definition remove_prefix (p s : string) : string :=
  if String.prefix p s then drop (String.length p) s else s.

(* ------------------------------------------------------------------- *)
(** ** Arrays *)

(** [a[i]] for a literal index. *)
Definition at_ {A} (a : list A) (i : nat) : option A := nth_error a i.

(** [a[n]] for a computed index: anything but an index in range is
    [undefined]. *)
Definition at_num {A} (a : list A) (n : Number) : option A :=
  match n with
  | Int z => if z <? 0 then None else nth_error a (Z.to_nat z)
  | NaN => None
  end.

(** [a.slice(b, e)]. *)
Definition array_slice {A} (a : list A) (b e : Number) : list A :=
  let n := Z.of_nat (List.length a) in
  let from := rel_index n (ToInteger b) in
  let to := rel_index n (ToInteger e) in
  firstn (Z.to_nat (Z.max (to - from) 0)) (skipn (Z.to_nat from) a).

(* ------------------------------------------------------------------- *)
(** ** parseInt *)

(** White space and line terminators among the code units of the model. *)
Definition is_space (c : ascii) : bool :=
  between 9 13 c || (code c =? 32) || (code c =? 160).

Fixpoint trimStart (s : string) : string :=
  match s with
  | String c r => if is_space c then trimStart r else s
  | EmptyString => EmptyString
  end.

(** Value of a digit in radixes up to 36. *)
Definition digit_value (c : ascii) : option Z :=
  if is_digit c then Some (code c - 48)
  else if is_lower c then Some (code c - 87)
  else if is_upper c then Some (code c - 55)
  else None.

(** The longest prefix of radix-[R] digits, read as a number: [acc] is the
    value so far, [None] until a first digit is seen. *)
Fixpoint read_digits (R : Z) (s : string) (acc : option Z) : option Z :=
  match s with
  | String c r =>
    match digit_value c with
    | Some d =>
      if d <? R
      then read_digits R r (Some (match acc with Some a => a * R + d | None => d end))
      else acc
    | None => acc
    end
  | EmptyString => acc
  end.

Definition strip_sign (s : string) : Z * string :=
  match s with
  | String "-" r => (-1, r)
  | String "+" r => (1, r)
  | _ => (1, s)
  end.

Definition has_hex_prefix (s : string) : bool :=
  String.prefix "0x" s || String.prefix "0X" s.

(** [parseInt(input, radix)]; [radix = 0] stands for an omitted radix, and
    [undefined] is converted to the string "undefined".  The result is the
    integer the digits denote.  JavaScript rounds that integer to a double:
    the two agree when the integer is a safe one (at most 2^53 - 1 in
    absolute value), and statements that name the number a text is read
    to are made for that range. *)
Definition parseInt (input : option string) (radix : Z) : Number :=
  let inputString := match input with Some s => s | None => "undefined" end in
  let '(sign, str) := strip_sign (trimStart inputString) in
  if (radix =? 0) || ((2 <=? radix) && (radix <=? 36)) then
    let stripPrefix := (radix =? 0) || (radix =? 16) in
    let R0 := if radix =? 0 then 10 else radix in
    let '(R, str) :=
    if stripPrefix && has_hex_prefix str then (16, drop 2 str) else (R0, str) in
    match read_digits R str None with
    | Some n => Int (sign * n)
    | None => NaN
    end
  else NaN.

(* ------------------------------------------------------------------- *)
(** ** Number to string *)

Definition digit_chr (d : Z) : ascii :=
  if d <? 10 then chr (48 + d) else chr (87 + d).

Fixpoint radix_digits (fuel : nat) (R n : Z) : string :=
  match fuel with
  | O => String (digit_chr (n mod R)) EmptyString
  | S f =>
    if n <? R then String (digit_chr n) EmptyString
    else radix_digits f R (n / R) +:+ String (digit_chr (n mod R)) EmptyString
  end.

(** [n.toString(R)] for an integer. *)
Definition int_toString (R n : Z) : string :=
  if n <? 0 then "-" +:+ radix_digits (Z.to_nat (Z.log2 (- n))) R (- n)
  else radix_digits (Z.to_nat (Z.log2 n)) R n.

(** [n.toString(R)].  For a safe integer these are the digits JavaScript
    writes; from 2^53 on it writes the digits of the nearest double, and
    from 10^21 on, in radix 10, an exponent. *)
Definition toString (R : Z) (n : Number) : string :=
  match n with
  | NaN => "NaN"
  | Int z => int_toString R z
  end.

Fixpoint repeat_chr (n : nat) (c : ascii) : string :=
  match n with
  | O => EmptyString
  | S m => String c (repeat_chr m c)
  end.

(** [s.padStart(n, c)] for a one-character filler. *)
Definition padStart (n : nat) (c : ascii) (s : string) : string :=
  repeat_chr (n - String.length s)%nat c +:+ s.

End JS.

(** Sequencing of calls that can throw. *)
Notation "'let*' x ':=' e 'in' k" := (JS.bind e (fun x => k))
  (at level 10, x name, e at level 100, k at level 200).

(* ===================================================================== *)
(** * Regular expressions

    The fragment the parser uses: a sequence of literal characters and
    capturing groups [(X+)] over a character class, matched greedily with
    backtracking, searched from the leftmost start, with the [i] flag. *)
(* ===================================================================== *)

Module RegExp.
Import JS.

(** A character class [[...]] as ranges and single characters, or [\d]. *)
Inductive CharClass : Type :=
| Class (ranges : list (ascii * ascii)) (singles : list ascii)
| Digits.

Inductive Atom : Type :=
| Lit (c : ascii)                                (* a literal character *)
| Group (cls : CharClass).                       (* (X+) *)

Record RegExp : Type := {
  atoms : list Atom;
  ignoreCase : bool
}.

(** [Canonicalize] of the [i] flag.  A code unit outside ASCII never folds
    onto an ASCII one, and every pattern below is ASCII, so folding the
    ASCII letters decides the same comparisons. *)
Definition canonicalize (ic : bool) (c : ascii) : ascii :=
  if ic then upper_chr c else c.

Definition chr_matches (ic : bool) (p c : ascii) : bool :=
  Ascii.eqb (canonicalize ic p) (canonicalize ic c).

(** [c] is matched by the range when some member folds onto the same
    character as [c]. *)
Definition in_range (ic : bool) (c : ascii) (r : ascii * ascii) : bool :=
  let inside := between (code (fst r)) (code (snd r)) in
  inside c || (ic && (inside (upper_chr c) || inside (lower_chr c))).

Definition in_class (ic : bool) (cls : CharClass) (c : ascii) : bool :=
  match cls with
  | Class ranges singles =>
    existsb (in_range ic c) ranges || existsb (fun p => chr_matches ic p c) singles
  | Digits => is_digit c
  end.

(** [X+] followed by the continuation [k]: at least one character of the
    class, the longest run first, a shorter one when the rest fails. *)
Fixpoint plus_greedy {R} (ok : ascii -> bool) (k : string -> string -> option R)
  (taken s : string) : option R :=
  match s with
  | String c r =>
    if ok c then
      match plus_greedy ok k (taken +:+ String c EmptyString) r with
      | Some res => Some res
      | None => k (taken +:+ String c EmptyString) r
      end
    else None
  | EmptyString => None
  end.

(** Match at the start of [s]: the matched text and the captures. *)
Fixpoint match_here (ic : bool) (r : list Atom) (s : string) : option (string * list string) :=
  match r with
  | [] => Some (EmptyString, [])
  | Lit p :: r' =>
    match s with
    | String c rest =>
      if chr_matches ic p c then
        match match_here ic r' rest with
        | Some (w, caps) => Some (String c w, caps)
        | None => None
        end
      else None
    | EmptyString => None
    end
  | Group cls :: r' =>
    plus_greedy (in_class ic cls)
    (fun cap rest =>
      match match_here ic r' rest with
      | Some (w, caps) => Some (cap +:+ w, cap :: caps)
      | None => None
    end)
    EmptyString s
  end.

Fixpoint search (ic : bool) (r : list Atom) (s : string) : option (string * list string) :=
  match match_here ic r s with
  | Some m => Some m
  | None =>
    match s with
    | String _ rest => search ic r rest
    | EmptyString => None
    end
  end.

(** [s.match(re)] for a regular expression without the [g] flag: [null]
    ([None]) or the array of the matched text followed by the captures. *)
Definition match_ (s : string) (re : RegExp) : option (list string) :=
  match search (ignoreCase re) (atoms re) s with
  | Some (w, caps) => Some (w :: caps)
  | None => None
  end.

Fixpoint lits (s : string) : list Atom :=
  match s with
  | EmptyString => []
  | String c r => Lit c :: lits r
  end.

End RegExp.

(* ===================================================================== *)
(** * driver/constants.ts *)
(* ===================================================================== *)

Module Constants.

Definition MESSAGE_TERMINATOR : string := String (JS.chr 13) EmptyString.
Definition DEFAULT_TIMEOUT : Z := 5000.

Module MESSAGE_PREFIXES.
Definition TH_READY := "[TH,Ready".
Definition TH_GET_SW_VERSION := "[TH,GetSwVersion".
Definition CONNECTION_GET_ADDRESS := "[Connection,GetAddress".
Definition BRIDGE_NETWORK_SETTINGS := "[Bridge,NetworkSettings".
Definition ZDP_JOIN_PERMITTED := "[Zdp,JoinPermitted".
Definition ZDP_DEVICE_ANNOUNCE := "[Zdp,ReceivedDeviceAnnounce".
Definition ZDP_NODE_DESC_RSP := "[Zdp,ReceivedNodeDescRsp".
Definition ZDP_ACTIVE_EP_RSP := "[Zdp,ReceivedActiveEndPointRsp".
Definition ZDP_SIMPLE_DESC_RSP := "[Zdp,ReceivedSimpleDescRsp".
Definition ZDP_MGMT_LQI_RSP := "[Zdp,ReceivedMgmtLqiRsp".
Definition ZDP_IEEE_ADDR_RSP := "[Zdp,ReceivedIeeeAddrRsp".
Definition ZCL_IND := "[Zcl,Ind".
Definition ZCL_CONF := "[Zcl,Conf".
Definition ZCL_REQ := "[Zcl,Req".
Definition LOG := "[LOG".
Definition TOUCHLINK := "[Link,Touchlink".
End MESSAGE_PREFIXES.

End Constants.

(* ===================================================================== *)
(** * driver/messageParser.ts *)
(* ===================================================================== *)

Module NodeDescriptor.
Record t : Type := {
  logicalType : JS.Number;
  capability : JS.Number;
  manufacturerCode : JS.Number;
  maxBufferSize : JS.Number;
  maxTransferSize : JS.Number
}.
End NodeDescriptor.

Module SimpleDescriptor.
Record t : Type := {
  endpoint : JS.Number;
  profileId : JS.Number;
  deviceId : JS.Number;
  inputClusters : list JS.Number;
  outputClusters : list JS.Number;
  length : JS.Number;
  deviceVersion : JS.Number
}.
End SimpleDescriptor.

Module NeighborTableEntry.
Record t : Type := {
  extendedPanId : option string;
  ieeeAddr : string;
  networkAddress : JS.Number;
  linkQuality : JS.Number;
  depth : JS.Number;
  permitJoin : JS.Number;
  relationship : JS.Number;
  rxOnWhenIdle : JS.Number;
  deviceType : JS.Number
}.
End NeighborTableEntry.

Module EndpointAddress.
Record t : Type := {
  address : JS.Number;
  endpoint : JS.Number
}.
End EndpointAddress.

(** The tagged union [ParsedMessage].  A field read straight from
    [parts[i]] is an [option string]: the array may be shorter. *)
Inductive ParsedMessage : Type :=
| ready
| version (status : JS.Number) (name keyBitmask version : option string)
| address (status : JS.Number) (ieee : string) (networkAddress : JS.Number)
| deviceAnnounce (networkAddress : JS.Number) (ieee : string) (capability : JS.Number)
| nodeDescRsp (seq networkAddress status : JS.Number) (data : NodeDescriptor.t)
| activeEpRsp (seq networkAddress status : JS.Number) (endpoints : list JS.Number)
| activeEpReq (seq endpoint : JS.Number)
| simpleDescRsp (seq networkAddress status : JS.Number) (data : SimpleDescriptor.t)
| zclInd (source dest : EndpointAddress.t) (clusterId : JS.Number) (payload : string)
| zclConf (endpoint sequence status : JS.Number)
| zclReq (status sequence : JS.Number)
| joinPermitted (permitted : bool)
| networkSettings (factoryNew : bool) (panId : JS.Number) (extendedPanId : option string)
  (channel nwkUpdateId networkAddress : JS.Number)
| mgmtLqiRsp (seq srcAddr status startIndex neighborTableEntries : JS.Number)
  (neighborTableList : list NeighborTableEntry.t)
| linkTouchlink (shortAddress endpoint : JS.Number)
| zdpIeeeAddrRsp (seq srcAddr status : JS.Number) (ieeeAddr : string) (networkAddress : JS.Number)
| unknown (raw : string).

(** The discriminant [msg.type]. *)
Inductive MessageType : Type :=
| T_ready | T_version | T_address | T_deviceAnnounce | T_nodeDescRsp | T_activeEpRsp
| T_activeEpReq | T_simpleDescRsp | T_zclInd | T_zclConf | T_zclReq | T_joinPermitted
| T_networkSettings | T_mgmtLqiRsp | T_linkTouchlink | T_zdpIeeeAddrRsp | T_unknown.

Definition type_of (m : ParsedMessage) : MessageType :=
  match m with
  | ready => T_ready
  | version _ _ _ _ => T_version
  | address _ _ _ => T_address
  | deviceAnnounce _ _ _ => T_deviceAnnounce
  | nodeDescRsp _ _ _ _ => T_nodeDescRsp
  | activeEpRsp _ _ _ _ => T_activeEpRsp
  | activeEpReq _ _ => T_activeEpReq
  | simpleDescRsp _ _ _ _ => T_simpleDescRsp
  | zclInd _ _ _ _ => T_zclInd
  | zclConf _ _ _ => T_zclConf
  | zclReq _ _ => T_zclReq
  | joinPermitted _ => T_joinPermitted
  | networkSettings _ _ _ _ _ _ => T_networkSettings
  | mgmtLqiRsp _ _ _ _ _ _ => T_mgmtLqiRsp
  | linkTouchlink _ _ => T_linkTouchlink
  | zdpIeeeAddrRsp _ _ _ _ _ => T_zdpIeeeAddrRsp
  | unknown _ => T_unknown
  end.

Definition MessageType_eqb (a b : MessageType) : bool :=
  match a, b with
  | T_ready, T_ready | T_version, T_version | T_address, T_address
  | T_deviceAnnounce, T_deviceAnnounce | T_nodeDescRsp, T_nodeDescRsp
  | T_activeEpRsp, T_activeEpRsp | T_activeEpReq, T_activeEpReq
  | T_simpleDescRsp, T_simpleDescRsp | T_zclInd, T_zclInd | T_zclConf, T_zclConf
  | T_zclReq, T_zclReq | T_joinPermitted, T_joinPermitted
  | T_networkSettings, T_networkSettings | T_mgmtLqiRsp, T_mgmtLqiRsp
  | T_linkTouchlink, T_linkTouchlink | T_zdpIeeeAddrRsp, T_zdpIeeeAddrRsp
  | T_unknown, T_unknown => true
  | _, _ => false
  end.

Module MessageParser.
Import JS RegExp Constants.

(** A method call on [parts[i]]: a [TypeError] when the element is
    [undefined]. *)
Definition defined (what : string) (o : option string) : Result string :=
  match o with
  | Some s => Ok s
  | None => Throw (TypeError what)
  end.

(** [m![i]]: indexing the result of [match]; a [TypeError] on [null]. *)
Definition non_null (what : string) (m : option (list string)) : Result (list string) :=
  match m with
  | Some l => Ok l
  | None => Throw (TypeError what)
  end.

Definition hex_digit : CharClass := Class [("0", "9"); ("A", "F")]%char [].
Definition hex_digit_or_colon : CharClass := Class [("0", "9"); ("A", "F")]%char [":"%char].

(** [/L=([0-9A-F:]+)/i] *)
Definition re_ieee : RegExp :=
  {| atoms := lits "L=" ++ [Group hex_digit_or_colon]; ignoreCase := true |}.

(** [/S=0x([0-9A-F]+)/i] *)
Definition re_addr : RegExp :=
  {| atoms := lits "S=0x" ++ [Group hex_digit]; ignoreCase := true |}.

(** [/S=0x([0-9A-F]+)\.0,L=([0-9A-F:]+),(\d+)/i] *)
Definition re_deviceAnnounce : RegExp :=
  {| atoms := lits "S=0x" ++ [Group hex_digit] ++ lits ".0,L="
    ++ [Group hex_digit_or_colon] ++ lits "," ++ [Group Digits];
    ignoreCase := true |}.

(** [/S=0x([0-9A-F]+)\.(\d+),S=0x([0-9A-F]+)\.(\d+),(\d+),([0-9A-F]+)/i] *)
Definition re_zclInd : RegExp :=
  {| atoms := lits "S=0x" ++ [Group hex_digit] ++ lits "." ++ [Group Digits]
    ++ lits ",S=0x" ++ [Group hex_digit] ++ lits "." ++ [Group Digits]
    ++ lits "," ++ [Group Digits] ++ lits "," ++ [Group hex_digit];
    ignoreCase := true |}.

(** [m[i]] on a successful match.  Every group of the expressions above
    takes part in every match, so the element is a string. *)
Definition capture (m : list string) (i : nat) : string :=
  match at_ m i with
  | Some s => s
  | None => EmptyString
  end.

(** [message.slice(1, -1).split(',')] *)
Definition parts_of (message : string) : list string :=
  split "," (slice message 1 (-1)).

(** [addrMatch ? parseInt(addrMatch[1], 16) : 0] *)
Definition addr_or_zero (addrMatch : option (list string)) : Number :=
  match addrMatch with
  | Some m => parseInt (at_ m 1) 16
  | None => Int 0
  end.

(** One guarded block of [parse]: [None] when control falls through to the
    next block, otherwise the completion of the [return]. *)
Definition Block : Type := string -> option (Result ParsedMessage).

Definition block_ready : Block := fun message =>
  if startsWith message MESSAGE_PREFIXES.TH_READY then Some (Ok ready) else None.

Definition block_version : Block := fun message =>
  if startsWith message MESSAGE_PREFIXES.TH_GET_SW_VERSION then
    let parts := parts_of message in
    Some (Ok (version (parseInt (at_ parts 2) 0) (at_ parts 3) (at_ parts 4) (at_ parts 5)))
  else None.

Definition block_address : Block := fun message =>
  if startsWith message MESSAGE_PREFIXES.CONNECTION_GET_ADDRESS then
    let ieeeMatch := match_ message re_ieee in
    let addrMatch := match_ message re_addr in
    let parts := parts_of message in
    Some (Ok (address
        (parseInt (at_ parts 2) 0)
        (match ieeeMatch with
          | Some m => "0x" +:+ toLowerCase (remove_all ":" (capture m 1))
          | None => EmptyString
        end)
        (addr_or_zero addrMatch)))
  else None.

Definition block_deviceAnnounce : Block := fun message =>
  if startsWith message MESSAGE_PREFIXES.ZDP_DEVICE_ANNOUNCE then
    match match_ message re_deviceAnnounce with
    | Some m =>
      Some (Ok (deviceAnnounce
          (parseInt (at_ m 1) 16)
          ("0x" +:+ toLowerCase (remove_all ":" (capture m 2)))
          (parseInt (at_ m 3) 0)))
    | None => None
    end
  else None.

Definition block_nodeDescRsp : Block := fun message =>
  if startsWith message MESSAGE_PREFIXES.ZDP_NODE_DESC_RSP then
    let parts := parts_of message in
    Some (let* p3 := defined "parts[3].match" (at_ parts 3) in
      let addrMatch := match_ p3 re_addr in
      Ok (nodeDescRsp
        (parseInt (at_ parts 2) 0)
        (addr_or_zero addrMatch)
        (parseInt (at_ parts 4) 0)
        {| NodeDescriptor.logicalType := parseInt (at_ parts 6) 0;
          NodeDescriptor.capability := parseInt (at_ parts 12) 0;
          NodeDescriptor.manufacturerCode := parseInt (at_ parts 13) 0;
          NodeDescriptor.maxBufferSize := parseInt (at_ parts 14) 0;
          NodeDescriptor.maxTransferSize := parseInt (at_ parts 15) 0 |}))
  else None.

Definition block_activeEpRsp : Block := fun message =>
  if startsWith message MESSAGE_PREFIXES.ZDP_ACTIVE_EP_RSP then
    let parts := parts_of message in
    Some (let* p3 := defined "parts[3].match" (at_ parts 3) in
      let addrMatch := match_ p3 re_addr in
      let count := parseInt (at_ parts 6) 0 in
      let endpoints :=
      List.map (fun ep => parseInt (Some ep) 0)
      (array_slice parts (Int 7) (Number_add (Int 7) count)) in
      Ok (activeEpRsp
        (parseInt (at_ parts 2) 0)
        (addr_or_zero addrMatch)
        (parseInt (at_ parts 4) 0)
        endpoints))
  else None.

Definition block_activeEpReq : Block := fun message =>
  if startsWith message "[Zdp,SendActiveEndPointReq," then
    let parts := parts_of message in
    let endpoint := parseInt (at_ parts 2) 0 in
    let seq := parseInt (at_ parts 3) 0 in
    Some (Ok (activeEpReq seq endpoint))
  else None.

Definition block_simpleDescRsp : Block := fun message =>
  if startsWith message MESSAGE_PREFIXES.ZDP_SIMPLE_DESC_RSP then
    let parts := parts_of message in
    Some (let* p3 := defined "parts[3].match" (at_ parts 3) in
      let addrMatch := match_ p3 re_addr in
      let length := parseInt (at_ parts 6) 0 in
      let endpoint := parseInt (at_ parts 7) 0 in
      let profileId := parseInt (at_ parts 8) 0 in
      let deviceId := parseInt (at_ parts 9) 0 in
      let deviceVersion := parseInt (at_ parts 10) 0 in
      let inClusterCount := parseInt (at_ parts 12) 0 in
      let inputClusters :=
      List.map (fun c => parseInt (Some c) 0)
      (array_slice parts (Int 13) (Number_add (Int 13) inClusterCount)) in
      let outClusterCount :=
      parseInt (at_num parts (Number_add (Int 13) inClusterCount)) 0 in
      let outputClusters :=
      List.map (fun c => parseInt (Some c) 0)
      (array_slice parts
        (Number_add (Int 14) inClusterCount)
        (Number_add (Number_add (Int 14) inClusterCount) outClusterCount)) in
      Ok (simpleDescRsp
        (parseInt (at_ parts 2) 0)
        (addr_or_zero addrMatch)
        (parseInt (at_ parts 4) 0)
        {| SimpleDescriptor.endpoint := endpoint;
          SimpleDescriptor.profileId := profileId;
          SimpleDescriptor.deviceId := deviceId;
          SimpleDescriptor.inputClusters := inputClusters;
          SimpleDescriptor.outputClusters := outputClusters;
          SimpleDescriptor.length := length;
          SimpleDescriptor.deviceVersion := deviceVersion |}))
  else None.

Definition block_zclInd : Block := fun message =>
  if startsWith message MESSAGE_PREFIXES.ZCL_IND then
    match match_ message re_zclInd with
    | Some m =>
      Some (Ok (zclInd
          {| EndpointAddress.address := parseInt (at_ m 1) 16;
            EndpointAddress.endpoint := parseInt (at_ m 2) 0 |}
          {| EndpointAddress.address := parseInt (at_ m 3) 16;
            EndpointAddress.endpoint := parseInt (at_ m 4) 0 |}
          (parseInt (at_ m 5) 0)
          (capture m 6)))
    | None => None
    end
  else None.

Definition block_zclConf : Block := fun message =>
  if startsWith message MESSAGE_PREFIXES.ZCL_CONF then
    let parts := parts_of message in
    Some (Ok (zclConf (parseInt (at_ parts 2) 0) (parseInt (at_ parts 3) 0)
        (parseInt (at_ parts 4) 0)))
  else None.

Definition block_zclReq : Block := fun message =>
  if startsWith message MESSAGE_PREFIXES.ZCL_REQ then
    let parts := parts_of message in
    Some (Ok (zclReq (parseInt (at_ parts 2) 0) (parseInt (at_ parts 3) 0)))
  else None.

Definition block_joinPermitted : Block := fun message =>
  if startsWith message MESSAGE_PREFIXES.ZDP_JOIN_PERMITTED then
    let permitted := includes message "True" in
    Some (Ok (joinPermitted permitted))
  else None.

Definition block_networkSettings : Block := fun message =>
  if startsWith message MESSAGE_PREFIXES.BRIDGE_NETWORK_SETTINGS then
    let parts := parts_of message in
  (* parts[7]?.match(...) *)
    let addrMatch :=
    match at_ parts 7 with
    | Some p7 => match_ p7 re_addr
    | None => None
    end in
    Some (Ok (networkSettings
        (match at_ parts 2 with Some s => String.eqb s "True" | None => false end)
        (parseInt (at_ parts 3) 16)
        (at_ parts 4)
        (parseInt (at_ parts 5) 0)
        (parseInt (at_ parts 6) 0)
        (addr_or_zero addrMatch)))
  else None.

(** The [for] loop of the neighbour table: [n] iterations left, the
    running [offset], the table built so far. *)
Fixpoint neighbors (parts : list string) (n : nat) (offset : nat)
  (neighborTableList : list NeighborTableEntry.t)
  : Result (list NeighborTableEntry.t) :=
  match n with
  | O => Ok neighborTableList
  | S n' =>
    if (offset + 8 <=? List.length parts)%nat then
      let* p1 := defined "parts[offset + 1].replace" (at_ parts (offset + 1)) in
      let entry :=
      {| NeighborTableEntry.extendedPanId := at_ parts offset;
        NeighborTableEntry.ieeeAddr :=
        toLowerCase (remove_all ":" (remove_first "L=" p1));
        NeighborTableEntry.networkAddress := parseInt (at_ parts (offset + 2)) 0;
        NeighborTableEntry.linkQuality := parseInt (at_ parts (offset + 7)) 0;
        NeighborTableEntry.depth := parseInt (at_ parts (offset + 6)) 0;
        NeighborTableEntry.permitJoin := parseInt (at_ parts (offset + 5)) 0;
        NeighborTableEntry.relationship := parseInt (at_ parts (offset + 4)) 0;
        NeighborTableEntry.rxOnWhenIdle := parseInt (at_ parts (offset + 3)) 0;
        NeighborTableEntry.deviceType :=
        bitand (parseInt (at_ parts (offset + 3)) 0) (Int 3) |} in
      neighbors parts n' (offset + 8) (neighborTableList ++ [entry])
    else neighbors parts n' offset neighborTableList
  end.

(** Number of iterations of [for (let i = 0; i < count; i++)], when the
    loop ends.  The counter is a double: it reaches 2^53 and stays there,
    since 2^53 + 1 is rounded back to 2^53.  So the loop ends only when
    [count], as a double, is at most 2^53, which a count of digits that
    denote 2^53 + 1 still is (it is rounded to 2^53); from 2^53 + 2 on,
    and for [Infinity], [i < count] holds for ever. *)
Definition iterations (count : Number) : option nat :=
  match count with
  | Int z =>
    if z <=? 9007199254740993 then Some (Z.to_nat (Z.min z 9007199254740992)) else None
  | NaN => Some O
  end.

(** The loop of the neighbour table, run for [count]. *)
Definition neighbors_for (parts : list string) (count : Number)
  : Result (list NeighborTableEntry.t) :=
  match iterations count with
  | Some n => neighbors parts n 8 []
  | None => Hang
  end.

Definition block_mgmtLqiRsp : Block := fun message =>
  if startsWith message MESSAGE_PREFIXES.ZDP_MGMT_LQI_RSP then
    let parts := parts_of message in
    Some (let* p3 := defined "parts[3].match" (at_ parts 3) in
      let addrMatch := match_ p3 re_addr in
      let neighborTableEntries := parseInt (at_ parts 5) 0 in
      let startIndex := parseInt (at_ parts 6) 0 in
      let count := parseInt (at_ parts 7) 0 in
      let* neighborTableList := neighbors_for parts count in
      Ok (mgmtLqiRsp
        (parseInt (at_ parts 2) 0)
        (addr_or_zero addrMatch)
        (parseInt (at_ parts 4) 0)
        startIndex
        neighborTableEntries
        neighborTableList))
  else None.

Definition block_linkTouchlink : Block := fun message =>
  if startsWith message MESSAGE_PREFIXES.TOUCHLINK then
    let parts := parts_of message in
    Some (Ok (linkTouchlink (parseInt (at_ parts 3) 16) (parseInt (at_ parts 4) 0)))
  else None.

Definition block_zdpIeeeAddrRsp : Block := fun message =>
  if startsWith message MESSAGE_PREFIXES.ZDP_IEEE_ADDR_RSP then
    let parts := parts_of message in
    Some (let seq := parseInt (at_ parts 2) 0 in
      let* p3 := defined "parts[3].match" (at_ parts 3) in
      let* m3 := non_null "parts[3].match(...)[1]" (match_ p3 re_addr) in
      let srcAddr := parseInt (at_ m3 1) 16 in
      let status := parseInt (at_ parts 4) 0 in
      let* p5 := defined "parts[5].replace" (at_ parts 5) in
      let ieeeAddr := toLowerCase (remove_all ":" (remove_first "L=" p5)) in
      let* p6 := defined "parts[6].match" (at_ parts 6) in
      let* m6 := non_null "parts[6].match(...)[1]" (match_ p6 re_addr) in
      let networkAddress := parseInt (at_ m6 1) 16 in
      Ok (zdpIeeeAddrRsp seq srcAddr status ieeeAddr networkAddress))
  else None.

(** The blocks in the order of the source. *)
Definition blocks : list Block :=
  [ block_ready; block_version; block_address; block_deviceAnnounce;
    block_nodeDescRsp; block_activeEpRsp; block_activeEpReq; block_simpleDescRsp;
    block_zclInd; block_zclConf; block_zclReq; block_joinPermitted;
    block_networkSettings; block_mgmtLqiRsp; block_linkTouchlink;
    block_zdpIeeeAddrRsp ].

(** Run the blocks in order; the first that returns ends the call. *)
Fixpoint run (bs : list Block) (message : string) : option (Result ParsedMessage) :=
  match bs with
  | [] => None
  | b :: bs' =>
    match b message with
    | Some r => Some r
    | None => run bs' message
    end
  end.

(** [MessageParser.parse]. *)
Definition parse (message : string) : Result ParsedMessage :=
  match run blocks message with
  | Some r => r
  | None => Ok (unknown message)      (* Unknown message type *)
  end.

End MessageParser.

(* ===================================================================== *)
(** * The runtime the queue and the adapter run on

    Promises, timers, the transport and the emitted events are explicit
    state.  A handle (of a promise, a timer, a write) is a [nat] taken from
    one allocator.  Time is a logical clock in milliseconds. *)
(* ===================================================================== *)

(** [Zcl.Header], the fields the adapter reads. *)
Module ZclHeader.
Record t : Type := {
  transactionSequenceNumber : JS.Number;
  commandIdentifier : JS.Number
}.
End ZclHeader.

(** [AdapterEvents.ZclPayload]. *)
Module ZclPayload.
Record t : Type := {
  clusterID : JS.Number;
  address : JS.Number;
  endpoint : JS.Number;
  data : list Byte.byte;               (* the frame, a [Buffer] *)
  header : option ZclHeader.t;
  linkquality : JS.Number;
  groupID : JS.Number;
  wasBroadcast : bool;
  destinationEndpoint : JS.Number
}.
End ZclPayload.

(** [WaitressMatcher] of the adapter. *)
Module WaitressMatcher.
Record t : Type := {
  address : option JS.Number;
  endpoint : JS.Number;
  transactionSequenceNumber : option JS.Number;
  clusterID : JS.Number;
  commandIdentifier : JS.Number
}.
End WaitressMatcher.

(** [TsType.NetworkParameters]. *)
Module NetworkParameters.
Record t : Type := {
  panID : JS.Number;
  extendedPanID : option string;
  channel : JS.Number;
  nwkUpdateID : JS.Number
}.
End NetworkParameters.

(** What a promise of the model carries when it is fulfilled. *)
Inductive Value : Type :=
| VMessage (m : ParsedMessage)
| VPayload (p : ZclPayload.t).

Inductive Settlement : Type :=
| Unsettled
| Fulfilled (v : Value)
| Rejected (e : JS.Exception).

(** [CommandMatcher]. *)
Definition CommandMatcher : Type := ParsedMessage -> bool.

(** [PendingCommand].  [promise] stands for the pair [resolve]/[reject] of
    the promise [execute] returns, [timeout] for the timer handle. *)
Module PendingCommand.
Record t : Type := {
  promise : nat;
  matcher : CommandMatcher;
  timeout : nat;
  command : string
}.
End PendingCommand.

(** The closures handed to [setTimeout]. *)
Inductive TimerCallback : Type :=
| ExecuteTimeout (id : string) (reject : nat) (timeoutMs : JS.Number) (command : string)
| WaiterTimeout (ID : nat).

Module Timer.
Record t : Type := {
  due : Z;
  callback : TimerCallback
}.
End Timer.

(** The [catch] handler [execute] hangs on the promise of [send]. *)
Module ExecuteCatch.
Record t : Type := {
  timeout : nat;
  id : string;
  reject : nat
}.
End ExecuteCatch.

(** One waiter of the secondary registry. *)
Module Waiter.
Record t : Type := {
  ID : nat;
  matcher : WaitressMatcher.t;
  promise : nat;
  timer : nat;
  timeoutMs : JS.Number
}.
End Waiter.

(** Observable effects, in the order they happen. *)
Inductive Effect : Type :=
| Wrote (data : string)                       (* port.write(data, cb) *)
| MatcherApplied (id : string)                (* pending.matcher(parsed) *)
| ClearTimeout (t : nat)
| Resolve (p : nat) (v : Value)               (* a call of resolve *)
| Reject (p : nat) (e : JS.Exception)         (* a call of reject *)
| Emit_rxMsg (m : ParsedMessage)
| Emit_deviceJoined (networkAddress : JS.Number) (ieeeAddr : string)
| Emit_zclPayload (p : ZclPayload.t)
| Emit_internalNetworkSettings (p : NetworkParameters.t)
| WaiterRegistered (ID : nat)
| Uncaught (e : JS.Exception).

Record World : Type := {
  (* CommandQueue *)
  pending : list (string * PendingCommand.t);   (* Map, in insertion order *)
  sequenceNumber : Z;
  (* HueBridgeAdapter *)
  waiters : list Waiter.t;                      (* the secondary registry *)
  currentID : nat;
  networkParams : option NetworkParameters.t;
  (* runtime *)
  promises : gmap nat Settlement;
  timers : gmap nat Timer.t;                    (* armed timers *)
  writes : gmap nat (option ExecuteCatch.t);    (* writes whose callback is due *)
  next : nat;                                   (* handle allocator *)
  now : Z;
  log : list Effect
}.

Definition set_pending v (w : World) : World :=
  {| pending := v; sequenceNumber := sequenceNumber w; waiters := waiters w;
    currentID := currentID w; networkParams := networkParams w;
    promises := promises w; timers := timers w; writes := writes w;
    next := next w; now := now w; log := log w |}.

Definition set_sequenceNumber v (w : World) : World :=
  {| pending := pending w; sequenceNumber := v; waiters := waiters w;
    currentID := currentID w; networkParams := networkParams w;
    promises := promises w; timers := timers w; writes := writes w;
    next := next w; now := now w; log := log w |}.

Definition set_waiters v (w : World) : World :=
  {| pending := pending w; sequenceNumber := sequenceNumber w; waiters := v;
    currentID := currentID w; networkParams := networkParams w;
    promises := promises w; timers := timers w; writes := writes w;
    next := next w; now := now w; log := log w |}.

Definition set_currentID v (w : World) : World :=
  {| pending := pending w; sequenceNumber := sequenceNumber w; waiters := waiters w;
    currentID := v; networkParams := networkParams w;
    promises := promises w; timers := timers w; writes := writes w;
    next := next w; now := now w; log := log w |}.

Definition set_networkParams v (w : World) : World :=
  {| pending := pending w; sequenceNumber := sequenceNumber w; waiters := waiters w;
    currentID := currentID w; networkParams := v;
    promises := promises w; timers := timers w; writes := writes w;
    next := next w; now := now w; log := log w |}.

Definition set_promises v (w : World) : World :=
  {| pending := pending w; sequenceNumber := sequenceNumber w; waiters := waiters w;
    currentID := currentID w; networkParams := networkParams w;
    promises := v; timers := timers w; writes := writes w;
    next := next w; now := now w; log := log w |}.

Definition set_timers v (w : World) : World :=
  {| pending := pending w; sequenceNumber := sequenceNumber w; waiters := waiters w;
    currentID := currentID w; networkParams := networkParams w;
    promises := promises w; timers := v; writes := writes w;
    next := next w; now := now w; log := log w |}.

Definition set_writes v (w : World) : World :=
  {| pending := pending w; sequenceNumber := sequenceNumber w; waiters := waiters w;
    currentID := currentID w; networkParams := networkParams w;
    promises := promises w; timers := timers w; writes := v;
    next := next w; now := now w; log := log w |}.

Definition set_next v (w : World) : World :=
  {| pending := pending w; sequenceNumber := sequenceNumber w; waiters := waiters w;
    currentID := currentID w; networkParams := networkParams w;
    promises := promises w; timers := timers w; writes := writes w;
    next := v; now := now w; log := log w |}.

Definition set_now v (w : World) : World :=
  {| pending := pending w; sequenceNumber := sequenceNumber w; waiters := waiters w;
    currentID := currentID w; networkParams := networkParams w;
    promises := promises w; timers := timers w; writes := writes w;
    next := next w; now := v; log := log w |}.

Definition set_log v (w : World) : World :=
  {| pending := pending w; sequenceNumber := sequenceNumber w; waiters := waiters w;
    currentID := currentID w; networkParams := networkParams w;
    promises := promises w; timers := timers w; writes := writes w;
    next := next w; now := now w; log := v |}.

(** A world right after construction; the clock reads [t0]. *)
Definition initial (t0 : Z) : World :=
  {| pending := []; sequenceNumber := 0; waiters := []; currentID := 0;
    networkParams := None; promises := ∅; timers := ∅; writes := ∅;
    next := 0; now := t0; log := [] |}.

Module Runtime.

Definition effect (e : Effect) (w : World) : World :=
  set_log (log w ++ [e]) w.

(** [new Promise(...)]: a fresh, unsettled promise. *)
Definition new_promise (w : World) : World * nat :=
  let p := next w in
  (set_next (S p) (set_promises (<[p := Unsettled]> (promises w)) w), p).

(** Settling happens once: a later call of [resolve] or [reject] on the
    same promise changes nothing. *)
Definition settle (p : nat) (s : Settlement) (w : World) : World :=
  match promises w !! p with
  | Some Unsettled => set_promises (<[p := s]> (promises w)) w
  | _ => w
  end.

Definition resolve (p : nat) (v : Value) (w : World) : World :=
  settle p (Fulfilled v) (effect (Resolve p v) w).

Definition reject (p : nat) (e : JS.Exception) (w : World) : World :=
  settle p (Rejected e) (effect (Reject p e) w).

(** The delay [setTimeout] uses: anything outside [1, 2^31 - 1] is 1. *)
Definition delay (timeoutMs : JS.Number) : Z :=
  match timeoutMs with
  | JS.Int z => if (1 <=? z) && (z <=? 2147483647) then z else 1
  | JS.NaN => 1
  end.

(** [setTimeout(callback, timeoutMs)]. *)
Definition setTimeout (cb : TimerCallback) (timeoutMs : JS.Number) (w : World) : World * nat :=
  let t := next w in
  (set_next (S t)
    (set_timers (<[t := {| Timer.due := now w + delay timeoutMs; Timer.callback := cb |}]>
        (timers w)) w),
    t).

(** [clearTimeout(t)]. *)
Definition clearTimeout (t : nat) (w : World) : World :=
  set_timers (delete t (timers w)) (effect (ClearTimeout t) w).

(** [port.write(data, cb)]: the data goes out; the callback comes later. *)
Definition write (data : string) (handler : option ExecuteCatch.t) (w : World) : World * nat :=
  let h := next w in
  (set_next (S h) (set_writes (<[h := handler]> (writes w)) (effect (Wrote data) w)), h).

End Runtime.

(* ===================================================================== *)
(** * utils/queue.ts *)
(* ===================================================================== *)

Module CommandQueue.
Import Runtime.

(** [Map.prototype.set]: an existing key keeps its place. *)
Fixpoint map_set {V} (k : string) (v : V) (m : list (string * V)) : list (string * V) :=
  match m with
  | [] => [(k, v)]
  | (k', v') :: m' =>
    if String.eqb k' k then (k, v) :: m' else (k', v') :: map_set k v m'
  end.

(** [Map.prototype.delete]. *)
Fixpoint map_delete {V} (k : string) (m : list (string * V)) : list (string * V) :=
  match m with
  | [] => []
  | (k', v') :: m' =>
    if String.eqb k' k then m' else (k', v') :: map_delete k m'
  end.

(** [nextSequence]: [++this.sequenceNumber]. *)
Definition nextSequence (w : World) : World * Z :=
  let n := sequenceNumber w + 1 in
  (set_sequenceNumber n w, n).

(** [send]: one write of the command and the terminator.  [handler] is
    the [catch] of [execute], when the call comes from there. *)
Definition send (command : string) (handler : option ExecuteCatch.t) (w : World) : World :=
  let data := command +:+ Constants.MESSAGE_TERMINATOR in
  fst (write data handler w).

Definition timeout_message (timeoutMs : JS.Number) (command : string) : string :=
  "Command timeout after " +:+ JS.toString 10 timeoutMs +:+ "ms: " +:+ command.

(** [execute].  [id] is the key the call draws from the clock and the
    random generator; the result is the promise it returns. *)
Definition execute (id : string) (command : string) (matcher : CommandMatcher)
  (timeoutMs : JS.Number) (w : World) : World * nat :=
  let '(w, p) := new_promise w in
  let '(w, timeout) := setTimeout (ExecuteTimeout id p timeoutMs command) timeoutMs w in
  let w :=
  set_pending
  (map_set id {| PendingCommand.promise := p; PendingCommand.matcher := matcher;
      PendingCommand.timeout := timeout; PendingCommand.command := command |}
    (pending w)) w in
  if negb (String.eqb command EmptyString) then
    (send command
      (Some {| ExecuteCatch.timeout := timeout; ExecuteCatch.id := id;
          ExecuteCatch.reject := p |}) w, p)
  else (w, p).

(** The timer of [execute] fires. *)
Definition on_timeout (id : string) (reject_ : nat) (timeoutMs : JS.Number)
  (command : string) (w : World) : World :=
  let w := set_pending (map_delete id (pending w)) w in
  reject reject_ (JS.Error (timeout_message timeoutMs command)) w.

(** The write of [execute] failed: the [catch] handler. *)
Definition on_write_error (h : ExecuteCatch.t) (error : JS.Exception) (w : World) : World :=
  let w := clearTimeout (ExecuteCatch.timeout h) w in
  let w := set_pending (map_delete (ExecuteCatch.id h) (pending w)) w in
  reject (ExecuteCatch.reject h) error w.

(** The loop of [handleMessage] over [this.pending.entries()]: the entry
    that consumed the message, if any. *)
Fixpoint offer (parsed : ParsedMessage) (entries : list (string * PendingCommand.t))
  (w : World) : World * bool :=
  match entries with
  | [] => (w, false)
  | (id, pending_) :: rest =>
    let w := effect (MatcherApplied id) w in
    if PendingCommand.matcher pending_ parsed then
      let w := clearTimeout (PendingCommand.timeout pending_) w in
      let w := set_pending (map_delete id (pending w)) w in
      let w := resolve (PendingCommand.promise pending_) (VMessage parsed) w in
      (w, true)                               (* Message consumed *)
    else offer parsed rest w
  end.

(** [handleMessage].  The result carries the message emitted as [rxMsg],
    for the listeners. *)
Definition handleMessage (message : string) (w : World)
  : JS.Result (World * option ParsedMessage) :=
  JS.bind (MessageParser.parse message) (fun parsed =>
    let '(w, consumed) := offer parsed (pending w) w in
    if consumed then JS.Ok (w, None)
    else JS.Ok (effect (Emit_rxMsg parsed) w, Some parsed)).

(** The loop of [clear]. *)
Fixpoint reject_all (entries : list (string * PendingCommand.t)) (w : World) : World :=
  match entries with
  | [] => w
  | (id, pending_) :: rest =>
    let w := clearTimeout (PendingCommand.timeout pending_) w in
    let w := reject (PendingCommand.promise pending_) (JS.Error "Command queue cleared") w in
    reject_all rest w
  end.

(** [clear]. *)
Definition clear (w : World) : World :=
  set_pending [] (reject_all (pending w) w).

End CommandQueue.

(* ===================================================================== *)
(** * driver/constants.ts: the command templates the adapter uses *)
(* ===================================================================== *)

Module COMMANDS.
Import JS.

(** [`${n}`] for a number that may be [undefined]. *)
Definition show (n : option Number) : string :=
  match n with
  | Some x => toString 10 x
  | None => "undefined"
  end.

(** [addr.toString(16).padStart(4, '0')] *)
Definition hex4 (addr : Number) : string := padStart 4 "0" (toString 16 addr).

Definition is_line_terminator (c : ascii) : bool := (code c =? 10) || (code c =? 13).

(** [clean.match(/.{1,2}/g) || []]: the text cut into pieces of two
    characters (a last piece of one); a line terminator is in no piece. *)
Fixpoint pieces (s : string) : list string :=
  match s with
  | EmptyString => []
  | String a r =>
    if is_line_terminator a then pieces r
    else match r with
    | EmptyString => [String a EmptyString]
    | String b r' =>
      if is_line_terminator b then String a EmptyString :: pieces r'
      else String a (String b EmptyString) :: pieces r'
    end
  end.

(** [bytes.join(':')] *)
Fixpoint join (sep : string) (l : list string) : string :=
  match l with
  | [] => EmptyString
  | [x] => x
  | x :: rest => x +:+ sep +:+ join sep rest
  end.

(** [formatIeee]: colon-separated hexadecimal bytes, without the 0x. *)
Definition formatIeee (ieee : string) : string :=
  let clean := remove_all ":" (remove_prefix "0x" ieee) in
  let bytes := pieces clean in
  toUpperCase (join ":" bytes).

Definition ZDP_NODE_DESC_REQ (addr : Number) (seq : Number) : string :=
  "[Zdp,SendNodeDescReq,S=0x" +:+ hex4 addr +:+ ".0," +:+ show (Some addr) +:+ "]".

Definition ZDP_ACTIVE_EP_REQ (addr : Number) (seq : Number) : string :=
  "[Zdp,SendActiveEndPointReq,S=0x" +:+ hex4 addr +:+ ".0," +:+ show (Some addr) +:+ "]".

Definition ZDP_SIMPLE_DESC_REQ (addr : Number) (seq : Number) (endpoint : option Number) : string :=
  "[Zdp,SendSimpleDescReq,S=0x" +:+ hex4 addr +:+ ".0," +:+ show (Some addr) +:+ ","
  +:+ show endpoint +:+ "]".

Definition ZDP_IEEE_ADDR_REQ (addr : Number) (seq : Number) : string :=
  "[Zdp,IeeeAddrReq,S=0x" +:+ hex4 addr +:+ ".0," +:+ show (Some seq) +:+ "]".

Definition ZDP_MGMT_LQI_REQ (addr : Number) (startIndex : option Number) : string :=
  "[Zdp,SendMgmtLqiReq,S=0x" +:+ hex4 addr +:+ ".0," +:+ show startIndex +:+ "]".

Definition ZDP_BIND_REQ (addr : Number) (srcIeee : string) (srcEndpoint : option Number)
  (clusterId : Number) (destAddrMode : option Number) (destAddr : string)
  (destEndpoint : option Number) : string :=
  "[Zdp,SendBindReq,S=0x" +:+ hex4 addr +:+ ".0,L=" +:+ formatIeee srcIeee +:+ "."
  +:+ show srcEndpoint +:+ "," +:+ show (Some clusterId) +:+ ",L=" +:+ formatIeee destAddr
  +:+ "." +:+ show destEndpoint +:+ "]".

Definition ZDP_UNBIND_REQ (addr : Number) (srcIeee : string) (srcEndpoint : option Number)
  (clusterId : Number) (destAddrMode : option Number) (destAddr : string)
  (destEndpoint : option Number) : string :=
  "[Zdp,SendUnbindReq,S=0x" +:+ hex4 addr +:+ ".0,L=" +:+ formatIeee srcIeee +:+ "."
  +:+ show srcEndpoint +:+ "," +:+ show (Some clusterId) +:+ ",L=" +:+ formatIeee destAddr
  +:+ "." +:+ show destEndpoint +:+ "]".

Definition ZDP_MGMT_LEAVE_REQ (addr : Number) (deviceIeee : string)
  (rejoin removeChildren : bool) : string :=
  "[Zdp,SendMgmtLeaveReq,S=0x" +:+ hex4 addr +:+ ".0,L=" +:+ formatIeee deviceIeee +:+ ","
  +:+ (if rejoin then "True" else "False") +:+ ","
  +:+ (if removeChildren then "True" else "False") +:+ "]".

Definition ZCL_REQ_UNICAST (addr endpoint sourceEndpoint clusterId : Number)
  (payload : string) : string :=
  "[Zcl,Req,S=0x" +:+ hex4 addr +:+ "." +:+ show (Some endpoint) +:+ ","
  +:+ show (Some clusterId) +:+ "," +:+ payload +:+ "," +:+ show (Some sourceEndpoint) +:+ "]".

Definition ZCL_REQ_BROADCAST (broadcastAddr endpoint sourceEndpoint clusterId : Number)
  (payload : string) : string :=
  "[Zcl,Req,B=0x" +:+ hex4 broadcastAddr +:+ "." +:+ show (Some endpoint) +:+ ","
  +:+ show (Some clusterId) +:+ "," +:+ payload +:+ "," +:+ show (Some sourceEndpoint) +:+ "]".

Definition ZCL_REQ_GROUP (groupId clusterId : Number) (payload : string)
  (sourceEndpoint : Number) : string :=
  "[Zcl,Req,G=0x" +:+ hex4 groupId +:+ "," +:+ show (Some clusterId) +:+ ","
  +:+ payload +:+ "," +:+ show (Some sourceEndpoint) +:+ "]".

Definition TH_RESET : string := "[TH,Reset]".
Definition TH_GET_SW_VERSION : string := "[TH,GetSwVersion]".
Definition CONNECTION_GET_ADDRESS : string := "[Connection,GetAddress]".

Definition CONNECTION_CHANNEL_CHANGE (channel : Number) : string :=
  "[Connection,ChannelChange," +:+ show (Some channel) +:+ "]".

Definition ZGP_COMMISSIONING_ENTER (seconds : Number) : string :=
  "[Zgp,CommissioningEnter,False," +:+ show (Some seconds) +:+ "]".

Definition ZDP_PERMIT_JOINING (seconds : Number) (nwkAddr : option Number) : string :=
  "[Zdp,SendMgmtPermitJoiningReq,"
  +:+ (match nwkAddr with
      | Some addr =>
        if truthy (Some addr) then "S=0x" +:+ hex4 addr +:+ ".0" else "B=0xFFFC.0"
      | None => "B=0xFFFC.0"
    end)
  +:+ "," +:+ show (Some seconds) +:+ ",0]".

(** [n.toString(16).padStart(2, '0')] *)
Definition hex2 (n : Number) : string := padStart 2 "0" (toString 16 n).

Definition ZGP_SET_GROUP_ID (groupId : Number) : string :=
  "[Zgp,SetGroupId," +:+ show (Some groupId) +:+ "]".

Definition GROUPS_ADD_TO_GROUP (endpoint groupId : Number) : string :=
  "[Groups,AddToGroup," +:+ show (Some endpoint) +:+ "," +:+ show (Some groupId) +:+ "]".

Definition ZCL_REGISTER_CLUSTER (endpoint clusterId role : Number) : string :=
  "[Zcl,RegisterCluster,0x" +:+ hex4 endpoint +:+ ",0x" +:+ hex4 clusterId
  +:+ ",0x" +:+ hex2 role +:+ "]".

Definition ZCL_REGISTER_ENDPOINT (endpoint profileId deviceId version flags inCount
    outCount : Number) : string :=
  "[Zcl,RegisterEndpoint,0x" +:+ hex2 endpoint +:+ ",0x" +:+ hex4 profileId
  +:+ ",0x" +:+ hex4 deviceId +:+ ",0x" +:+ hex2 version +:+ ",0x" +:+ hex2 flags
  +:+ ",0x" +:+ hex2 inCount +:+ ",0x" +:+ hex2 outCount +:+ "]".

Definition ZCL_ADD_CLUSTER_TO_DESCRIPTOR (endpoint direction clusterId : Number) : string :=
  "[Zcl,AddClusterToSimpleDescriptor,0x" +:+ hex2 endpoint +:+ ",0x" +:+ hex2 direction
  +:+ ",0x" +:+ hex4 clusterId +:+ "]".

Definition ZCL_REGISTER_FOUNDATION_CMD (cmdId : Number) : string :=
  "[Zcl,RegisterFoundationCommand,0x" +:+ hex2 cmdId +:+ "]".

Definition STREAM_REGISTER_PROXY (endpoint : Number) : string :=
  "[Stream,RegisterProxy,0x" +:+ hex2 endpoint +:+ "]".

Definition BRIDGE_SET_MIGRATION_CODE (code : Number) : string :=
  "[Bridge,SetMigrationCode,0x" +:+ toUpperCase (toString 16 code) +:+ "]".

Definition LINK_TOUCHLINK : string := "[Link,Touchlink]".

End COMMANDS.

(* ===================================================================== *)
(** * Node buffers *)
(* ===================================================================== *)

Module Buffer.
Import JS.

Definition t : Type := list Byte.byte.

Definition value (b : Byte.byte) : Z := Z.of_N (Byte.to_N b).

(** [buf[i]] *)
Definition get (buf : t) (i : nat) : option Number :=
  match nth_error buf i with
  | Some b => Some (Int (value b))
  | None => None
  end.

(** [buf.readUInt16LE(offset)]: a [RangeError] past the end. *)
Definition readUInt16LE (buf : t) (offset : nat) : Result Number :=
  match nth_error buf offset, nth_error buf (S offset) with
  | Some lo, Some hi => Ok (Int (value lo + 256 * value hi))
  | _, _ => Throw (RangeError "ERR_OUT_OF_RANGE")
  end.

(** [buf.subarray(b, e).reverse()]: the view, reversed, and the buffer it
    shares its memory with, changed in place. *)
Definition reverse_subarray (buf : t) (b e : nat) : t * t :=
  let view := rev (firstn (e - b) (skipn b buf)) in
  (view, (firstn b buf ++ view ++ skipn e buf)%list).

Definition hex_byte (b : Byte.byte) : string :=
  String (digit_chr (value b / 16)) (String (digit_chr (value b mod 16)) EmptyString).

(** [buf.toString('hex')] *)
Fixpoint toHex (buf : t) : string :=
  match buf with
  | [] => EmptyString
  | b :: rest => hex_byte b +:+ toHex rest
  end.

Definition hex_value (c : ascii) : option Z :=
  match digit_value c with
  | Some d => if d <? 16 then Some d else None
  | None => None
  end.

(** [[...Buffer.from(s, 'hex')]]: the bytes of the leading pairs of
    hexadecimal digits; decoding stops at the first pair that is not one,
    and a last single character is dropped. *)
Fixpoint fromHex (s : string) : list Number :=
  match s with
  | String a (String b r) =>
    match hex_value a, hex_value b with
    | Some x, Some y => Int (16 * x + y) :: fromHex r
    | _, _ => []
    end
  | _ => []
  end.

(** The byte of a value below 256. *)
Definition byte_of (v : Z) : Byte.byte :=
  match Byte.of_N (Z.to_N v) with
  | Some b => b
  | None => Byte.x00
  end.

(** [Buffer.from(s, 'hex')]: as [fromHex], the bytes themselves. *)
Fixpoint from (s : string) : t :=
  match s with
  | String a (String b r) =>
    match hex_value a, hex_value b with
    | Some x, Some y => byte_of (16 * x + y) :: from r
    | _, _ => []
    end
  | _ => []
  end.

End Buffer.

(* ===================================================================== *)
(** * The secondary registry *)
(* ===================================================================== *)

Module Waitress.
Import JS Runtime.

(** [waitressValidator] of the adapter. *)
Definition waitressValidator (payload : ZclPayload.t) (matcher : WaitressMatcher.t) : bool :=
  match ZclPayload.header payload with
  | None => false
  | Some header =>
    (match WaitressMatcher.address matcher with
      | None | Some NaN => true                              (* !matcher.address *)
      | Some (Int a) =>
        (a =? 0) || Number_eqb (ZclPayload.address payload) (Int a)
    end)
    && Number_eqb (ZclPayload.endpoint payload) (WaitressMatcher.endpoint matcher)
    && (match WaitressMatcher.transactionSequenceNumber matcher with
      | None => true
      | Some n => Number_eqb (ZclHeader.transactionSequenceNumber header) n
    end)
    && Number_eqb (ZclPayload.clusterID payload) (WaitressMatcher.clusterID matcher)
    && Number_eqb (WaitressMatcher.commandIdentifier matcher)
    (ZclHeader.commandIdentifier header)
  end.

(** [waitressTimeoutFormatter] of the adapter. *)
Definition waitressTimeoutFormatter (matcher : WaitressMatcher.t) (timeout : Number) : string :=
  "Timeout - " +:+ COMMANDS.show (WaitressMatcher.address matcher)
  +:+ " - " +:+ toString 10 (WaitressMatcher.endpoint matcher)
  +:+ " - " +:+ COMMANDS.show (WaitressMatcher.transactionSequenceNumber matcher)
  +:+ " - " +:+ toString 10 (WaitressMatcher.clusterID matcher)
  +:+ " - " +:+ toString 10 (WaitressMatcher.commandIdentifier matcher)
  +:+ " after " +:+ toString 10 timeout +:+ "ms".

(** Modelled from the spec: the class [Waitress] (utils/waitress.ts) is
    not among the sources.  Section 4.3 makes it a second correlation
    registry: [register(predicate, deadline)] creates a pending entry
    and returns its handle. *)
Definition waitFor (matcher : WaitressMatcher.t) (timeout : Number) (w : World)
  : World * Waiter.t :=
  let ID := currentID w in
  let w := set_currentID (S ID) w in
  let '(w, p) := new_promise w in
  let '(w, t) := setTimeout (WaiterTimeout ID) timeout w in
  let waiter := {| Waiter.ID := ID; Waiter.matcher := matcher; Waiter.promise := p;
    Waiter.timer := t; Waiter.timeoutMs := timeout |} in
  (effect (WaiterRegistered ID) (set_waiters (waiters w ++ [waiter])%list w), waiter).

Definition without (ID : nat) (l : list Waiter.t) : list Waiter.t :=
  List.filter (fun x => negb (Nat.eqb (Waiter.ID x) ID)) l.

Definition find (ID : nat) (l : list Waiter.t) : option Waiter.t :=
  List.find (fun x => Nat.eqb (Waiter.ID x) ID) l.

(** Modelled from the spec: cancellation of section 4.3, "a caller
    awaiting via this path may cancel before settlement, which must
    deregister the Pending Command without side effects".  The entry and
    its deadline go; nothing is settled. *)
Definition remove (ID : nat) (w : World) : World :=
  match find ID (waiters w) with
  | Some waiter =>
    set_waiters (without ID (waiters w)) (clearTimeout (Waiter.timer waiter) w)
  | None => w
  end.

(** Modelled from the spec: [offer(message)] of section 4.2 on the
    secondary registry, the predicate being [waitressValidator]: the
    first entry, in registration order, whose predicate accepts is removed
    and settled with the message; the result tells whether one did. *)
Fixpoint offer (payload : ZclPayload.t) (entries : list Waiter.t) (w : World) : World * bool :=
  match entries with
  | [] => (w, false)
  | waiter :: rest =>
    if waitressValidator payload (Waiter.matcher waiter) then
      let w := clearTimeout (Waiter.timer waiter) w in
      let w := set_waiters (without (Waiter.ID waiter) (waiters w)) w in
      (resolve (Waiter.promise waiter) (VPayload payload) w, true)
    else offer payload rest w
  end.

Definition resolve (payload : ZclPayload.t) (w : World) : World * bool :=
  offer payload (waiters w) w.

(** Modelled from the spec: "deadline expiry settles the affected Pending
    Command as failed with a timeout condition"; the entry leaves the
    registry. *)
Definition on_timeout (ID : nat) (w : World) : World :=
  match find ID (waiters w) with
  | Some waiter =>
    reject (Waiter.promise waiter)
    (Error (waitressTimeoutFormatter (Waiter.matcher waiter) (Waiter.timeoutMs waiter)))
    (set_waiters (without ID (waiters w)) w)
  | None => w
  end.

End Waitress.

(* ===================================================================== *)
(** * adapter/hueBridgeAdapter.ts *)
(* ===================================================================== *)

(** [Zdo.ClusterId], the requests [sendZdo] knows, and any other one.  The
    numeric values of the enumeration are not read by the adapter. *)
Inductive ZdoClusterId : Type :=
| NODE_DESCRIPTOR_REQUEST
| ACTIVE_ENDPOINTS_REQUEST
| SIMPLE_DESCRIPTOR_REQUEST
| IEEE_ADDRESS_REQUEST
| LQI_TABLE_REQUEST
| BIND_REQUEST
| UNBIND_REQUEST
| LEAVE_REQUEST
| OTHER_CLUSTER (id : Z).

Definition supported (c : ZdoClusterId) : bool :=
  match c with
  | OTHER_CLUSTER _ => false
  | _ => true
  end.

(** [ZdoTypes]: the responses [sendZdo] builds. *)
Module ZdoResponse.

Record Capabilities : Type := {
  alternatePANCoordinator : JS.Number;
  deviceType : JS.Number;
  powerSource : JS.Number;
  rxOnWhenIdle : JS.Number;
  reserved1 : JS.Number;
  reserved2 : JS.Number;
  securityCapability : JS.Number;
  allocateAddress : JS.Number
}.

Record ServerMask : Type := {
  primaryTrustCenter : JS.Number;
  backupTrustCenter : JS.Number;
  deprecated1 : JS.Number;
  deprecated2 : JS.Number;
  deprecated3 : JS.Number;
  deprecated4 : JS.Number;
  networkManager : JS.Number;
  mask_reserved1 : JS.Number;
  mask_reserved2 : JS.Number;
  stackComplianceRevision : JS.Number
}.

Record LQITableEntry : Type := {
  entry_extendedPanId : list JS.Number;
  entry_eui64 : string;
  entry_nwkAddress : JS.Number;
  entry_deviceType : JS.Number;
  entry_rxOnWhenIdle : JS.Number;
  entry_relationship : JS.Number;
  entry_reserved1 : JS.Number;
  entry_permitJoining : JS.Number;
  entry_reserved2 : JS.Number;
  entry_depth : JS.Number;
  entry_lqi : JS.Number
}.

Inductive t : Type :=
| ActiveEndpointsResponse (nwkAddress : JS.Number) (endpointList : list JS.Number)
| IEEEAddressResponse (eui64 : string) (nwkAddress startIndex : JS.Number)
  (assocDevList : list JS.Number)
| SimpleDescriptorResponse (nwkAddress length endpoint profileId deviceId
    deviceVersion : JS.Number) (inClusterList outClusterList : list JS.Number)
| NodeDescriptorResponse (nwkAddress logicalType : JS.Number)
  (fragmentationSupported : bool) (apsFlags frequencyBand : JS.Number)
  (capabilities : Capabilities)
  (manufacturerCode maxBufSize maxIncTxSize : JS.Number) (serverMask : ServerMask)
  (maxOutTxSize deprecated1 : JS.Number) (tlvs : list JS.Number)
| LQITableResponse (neighborTableEntries startIndex : JS.Number)
  (entryList : list LQITableEntry).

End ZdoResponse.

(** [Zcl.Frame], the parts the adapter reads. *)
Module ZclFrame.
Record t : Type := {
  hex : string;                           (* toBuffer().toString('hex') *)
  clusterID : JS.Number;                  (* cluster.ID *)
  response : option JS.Number;            (* command.response *)
  transactionSequenceNumber : JS.Number;  (* header.transactionSequenceNumber *)
  disableDefaultResponse : bool           (* header.frameControl.disableDefaultResponse *)
}.
End ZclFrame.

Module HueBridgeAdapter.
Import JS Runtime.

(** [Zcl.Foundation.defaultRsp.ID], the default response command. *)
Definition defaultRsp_ID : Number := Int 11.

(** What [waitFor] returns: the promise, and the waiter [cancel] removes. *)
Module WaiterHandle.
Record t : Type := {
  promise : nat;
  ID : nat
}.
End WaiterHandle.

(** [waitFor]. *)
Definition waitFor (networkAddress : option Number) (endpoint : Number)
  (transactionSequenceNumber : option Number) (clusterID commandIdentifier : Number)
  (timeout : Number) (w : World) : World * WaiterHandle.t :=
  let '(w, waiter) :=
  Waitress.waitFor
  {| WaitressMatcher.address := networkAddress;
    WaitressMatcher.endpoint := endpoint;
    WaitressMatcher.clusterID := clusterID;
    WaitressMatcher.commandIdentifier := commandIdentifier;
    WaitressMatcher.transactionSequenceNumber := transactionSequenceNumber |}
  timeout w in
  (w, {| WaiterHandle.promise := Waiter.promise waiter; WaiterHandle.ID := Waiter.ID waiter |}).

(** [waiter?.cancel()] *)
Definition cancel (waiter : option WaiterHandle.t) (w : World) : World :=
  match waiter with
  | Some h => Waitress.remove (WaiterHandle.ID h) w
  | None => w
  end.

(* ------------------------------------------------------------------- *)
(** ** sendZdo *)

Definition type_is (t : MessageType) : CommandMatcher :=
  fun msg => MessageType_eqb (type_of msg) t.

(** ['0x' + payload.subarray(b, e).reverse().toString('hex')], and the
    payload after the reversal in place. *)
Definition ieee_at (payload : Buffer.t) (b e : nat) : string * Buffer.t :=
  let '(view, payload) := Buffer.reverse_subarray payload b e in
  ("0x" +:+ Buffer.toHex view, payload).

(** The [switch] of [sendZdo]: the command line and the matcher of the
    response.  An unknown cluster leaves both at their initial value. *)
Definition request (networkAddress : Number) (clusterId : ZdoClusterId)
  (payload : Buffer.t) (seq : Number) : Result (string * CommandMatcher) :=
  match clusterId with
  | NODE_DESCRIPTOR_REQUEST =>
    Ok (COMMANDS.ZDP_NODE_DESC_REQ networkAddress seq, type_is T_nodeDescRsp)
  | ACTIVE_ENDPOINTS_REQUEST =>
    Ok (COMMANDS.ZDP_ACTIVE_EP_REQ networkAddress seq, type_is T_activeEpRsp)
  | SIMPLE_DESCRIPTOR_REQUEST =>
    let endpoint := Buffer.get payload 3 in
    Ok (COMMANDS.ZDP_SIMPLE_DESC_REQ networkAddress seq endpoint, type_is T_simpleDescRsp)
  | IEEE_ADDRESS_REQUEST =>
    Ok (COMMANDS.ZDP_IEEE_ADDR_REQ networkAddress seq, type_is T_address)
  | LQI_TABLE_REQUEST =>
    let startIndex := Buffer.get payload 0 in
    Ok (COMMANDS.ZDP_MGMT_LQI_REQ networkAddress startIndex, type_is T_mgmtLqiRsp)
  | BIND_REQUEST =>
    let '(srcIeee, payload) := ieee_at payload 1 9 in
    let srcEndpoint := Buffer.get payload 9 in
    let* clusterIdFromPayload := Buffer.readUInt16LE payload 10 in
    let destAddrMode := Buffer.get payload 12 in
    let* command :=
    match destAddrMode with
    | Some (Int 3) =>
      let '(destIeee, payload) := ieee_at payload 13 21 in
      let destEndpoint := Buffer.get payload 21 in
      Ok (COMMANDS.ZDP_BIND_REQ networkAddress srcIeee srcEndpoint clusterIdFromPayload
        destAddrMode destIeee destEndpoint)
    | Some (Int 1) =>
      let* destGroup := Buffer.readUInt16LE payload 13 in
      Ok (COMMANDS.ZDP_BIND_REQ networkAddress srcIeee srcEndpoint clusterIdFromPayload
        destAddrMode (toString 16 destGroup) (Some (Int 0)))
    | _ => Ok EmptyString
    end in
    Ok (command, fun _ => true)
  | UNBIND_REQUEST =>
    let '(srcIeee, payload) := ieee_at payload 1 9 in
    let srcEndpoint := Buffer.get payload 9 in
    let* clusterIdFromPayload := Buffer.readUInt16LE payload 10 in
    let destAddrMode := Buffer.get payload 12 in
    let* command :=
    match destAddrMode with
    | Some (Int 3) =>
      let '(destIeee, payload) := ieee_at payload 13 21 in
      let destEndpoint := Buffer.get payload 21 in
      Ok (COMMANDS.ZDP_UNBIND_REQ networkAddress srcIeee srcEndpoint clusterIdFromPayload
        destAddrMode destIeee destEndpoint)
    | Some (Int 1) =>
      let* destGroup := Buffer.readUInt16LE payload 13 in
      Ok (COMMANDS.ZDP_UNBIND_REQ networkAddress srcIeee srcEndpoint clusterIdFromPayload
        destAddrMode (toString 16 destGroup) (Some (Int 0)))
    | _ => Ok EmptyString
    end in
    Ok (command, fun _ => true)
  | LEAVE_REQUEST =>
    let '(deviceIeee, payload) := ieee_at payload 1 9 in
    let flags := match Buffer.get payload 9 with Some f => f | None => NaN end in
    let rejoin := negb (Number_eqb (bitand flags (Int 128)) (Int 0)) in
    let removeChildren := negb (Number_eqb (bitand flags (Int 64)) (Int 0)) in
    Ok (COMMANDS.ZDP_MGMT_LEAVE_REQ networkAddress deviceIeee rejoin removeChildren,
      fun _ => true)
  | OTHER_CLUSTER _ => Ok (EmptyString, fun _ => false)
  end.

(** The address [sendZdo] uses: [if (networkAddress === 0) networkAddress = 1]. *)
Definition rewrite_address (networkAddress : Number) : Number :=
  if Number_eqb networkAddress (Int 0) then Int 1 else networkAddress.

(** Where the call of [sendZdo] is suspended. *)
Inductive ZdoCall : Type :=
| AwaitSend (write : nat)
| AwaitResponse (response : nat).

(** [sendZdo], up to its [await]: the sequence number, the address, the
    command, and its dispatch.  [id] is the key [execute] draws.  (The
    conversion of the response, after the [await], is [sendZdo_return].) *)
Definition sendZdo (id : string) (ieeeAddress : string) (networkAddress : Number)
  (clusterId : ZdoClusterId) (payload : Buffer.t) (disableResponse : bool)
  (w : World) : Result (World * ZdoCall) :=
  let '(w, seq) := CommandQueue.nextSequence w in
  let networkAddress := rewrite_address networkAddress in
  let* request_ := request networkAddress clusterId payload (Int seq) in
  let '(command, matcher) := request_ in
  if disableResponse && negb (String.eqb command EmptyString) then
    Ok (CommandQueue.send command None w, AwaitSend (next w))
  else
    let '(w, p) := CommandQueue.execute id command matcher (Int Constants.DEFAULT_TIMEOUT) w in
    Ok (w, AwaitResponse p).

(** [(capability >> n) & 1] *)
Definition flag (capability : Number) (n : Z) : Number :=
  bitand (shr capability (Int n)) (Int 1).

(** One entry of [response.neighborTableList.map(...)]. *)
Definition lqi_entry (entry : NeighborTableEntry.t) : Result ZdoResponse.LQITableEntry :=
  let* extendedPanId :=
    MessageParser.defined "Buffer.from" (NeighborTableEntry.extendedPanId entry) in
  Ok {| ZdoResponse.entry_extendedPanId := Buffer.fromHex extendedPanId;
        ZdoResponse.entry_eui64 := "0x" +:+ NeighborTableEntry.ieeeAddr entry;
        ZdoResponse.entry_nwkAddress := NeighborTableEntry.networkAddress entry;
        ZdoResponse.entry_deviceType := NeighborTableEntry.deviceType entry;
        ZdoResponse.entry_rxOnWhenIdle := NeighborTableEntry.rxOnWhenIdle entry;
        ZdoResponse.entry_relationship := NeighborTableEntry.relationship entry;
        ZdoResponse.entry_reserved1 := Int 0;
        ZdoResponse.entry_permitJoining := NeighborTableEntry.permitJoin entry;
        ZdoResponse.entry_reserved2 := Int 0;
        ZdoResponse.entry_depth := NeighborTableEntry.depth entry;
        ZdoResponse.entry_lqi := NeighborTableEntry.linkQuality entry |}.

(** [sendZdo] after [await this.queue.execute(command, matcher)]: the pair
    of the status and the response it returns for the [response] the
    promise was fulfilled with. *)
Definition sendZdo_return (clusterId : ZdoClusterId) (response : ParsedMessage)
  : Result (Number * option ZdoResponse.t) :=
  match clusterId, response with
  | ACTIVE_ENDPOINTS_REQUEST, activeEpRsp _ networkAddress status endpoints =>
    Ok (status, Some (ZdoResponse.ActiveEndpointsResponse networkAddress endpoints))
  | IEEE_ADDRESS_REQUEST, address status ieee networkAddress =>
    Ok (status, Some (ZdoResponse.IEEEAddressResponse ("0x" +:+ ieee) networkAddress (Int 0) []))
  | SIMPLE_DESCRIPTOR_REQUEST, simpleDescRsp _ networkAddress status data =>
    Ok (status,
      Some (ZdoResponse.SimpleDescriptorResponse
          networkAddress
          (SimpleDescriptor.length data)
          (SimpleDescriptor.endpoint data)
          (SimpleDescriptor.profileId data)
          (SimpleDescriptor.deviceId data)
          (SimpleDescriptor.deviceVersion data)
          (SimpleDescriptor.inputClusters data)
          (SimpleDescriptor.outputClusters data)))
  | NODE_DESCRIPTOR_REQUEST, nodeDescRsp _ networkAddress status data =>
    let capability := NodeDescriptor.capability data in
    Ok (status,
      Some (ZdoResponse.NodeDescriptorResponse
          networkAddress
          (NodeDescriptor.logicalType data)
          false
          (Int 0)
          (Int 0)
          {| ZdoResponse.alternatePANCoordinator := Int 0;
             ZdoResponse.deviceType := flag capability 1;
             ZdoResponse.powerSource := flag capability 2;
             ZdoResponse.rxOnWhenIdle := flag capability 3;
             ZdoResponse.reserved1 := Int 0;
             ZdoResponse.reserved2 := Int 0;
             ZdoResponse.securityCapability := flag capability 6;
             ZdoResponse.allocateAddress := flag capability 7 |}
          (NodeDescriptor.manufacturerCode data)
          (NodeDescriptor.maxBufferSize data)
          (NodeDescriptor.maxTransferSize data)
          {| ZdoResponse.primaryTrustCenter := Int 0;
             ZdoResponse.backupTrustCenter := Int 0;
             ZdoResponse.deprecated1 := Int 0;
             ZdoResponse.deprecated2 := Int 0;
             ZdoResponse.deprecated3 := Int 0;
             ZdoResponse.deprecated4 := Int 0;
             ZdoResponse.networkManager := Int 0;
             ZdoResponse.mask_reserved1 := Int 0;
             ZdoResponse.mask_reserved2 := Int 0;
             ZdoResponse.stackComplianceRevision := Int 0 |}
          (NodeDescriptor.maxTransferSize data)
          (Int 0)
          []))
  | LQI_TABLE_REQUEST, mgmtLqiRsp _ _ status startIndex neighborTableEntries neighborTableList =>
    let* entryList := mapM lqi_entry neighborTableList in
    Ok (status, Some (ZdoResponse.LQITableResponse neighborTableEntries startIndex entryList))
  | _, _ => Ok (Int 0, None)
  end.

(** [permitJoin]: two commands, one after the other. *)
Inductive PermitJoinCall : Type :=
| AwaitCommissioning (seconds : Number) (networkAddress : option Number) (response : nat)
| AwaitJoinPermitted (response : nat)
| PermitJoinReturned
| PermitJoinThrown (error : Exception).

(** The body up to the first [await]. *)
Definition permitJoin (id : string) (seconds : Number) (networkAddress : option Number)
  (w : World) : World * PermitJoinCall :=
  let '(w, p) :=
    CommandQueue.execute id (COMMANDS.ZGP_COMMISSIONING_ENTER seconds) (type_is T_unknown)
      (Int Constants.DEFAULT_TIMEOUT) w in
  (w, AwaitCommissioning seconds networkAddress p).

(** The continuation after an [await]; [id] is the key of the second
    [execute]. *)
Definition permitJoin_resume (id : string) (call : PermitJoinCall) (w : World)
  : World * PermitJoinCall :=
  match call with
  | AwaitCommissioning seconds networkAddress response =>
    match promises w !! response with
    | Some (Fulfilled _) =>
      let '(w, p) :=
        CommandQueue.execute id (COMMANDS.ZDP_PERMIT_JOINING seconds networkAddress)
          (type_is T_joinPermitted) (Int Constants.DEFAULT_TIMEOUT) w in
      (w, AwaitJoinPermitted p)
    | Some (Rejected error) => (w, PermitJoinThrown error)
    | _ => (w, call)
    end
  | AwaitJoinPermitted response =>
    match promises w !! response with
    | Some (Fulfilled _) => (w, PermitJoinReturned)
    | Some (Rejected error) => (w, PermitJoinThrown error)
    | _ => (w, call)
    end
  | PermitJoinReturned | PermitJoinThrown _ => (w, call)
  end.

(* ------------------------------------------------------------------- *)
(** ** sendZclFrameToEndpoint

    An [async] function is a state machine: [sendZclFrameToEndpoint] runs
    the body up to the first [await]; [resume] continues it once the
    awaited promise is settled, up to the next [await] or the end. *)

Inductive ZclCall : Type :=
| AwaitAck (waiter : option WaiterHandle.t) (timeout : Number) (ack : nat)
| AwaitConf (waiter : option WaiterHandle.t) (conf : nat)
| AwaitIndication (waiter : WaiterHandle.t)
| Returned (result : option ZclPayload.t)
| Thrown (error : Exception).

(** [sourceEndpoint || 64] *)
Definition or_64 (sourceEndpoint : option Number) : Number :=
  match sourceEndpoint with
  | Some (Int z) => if z =? 0 then Int 64 else Int z
  | _ => Int 64
  end.

(** The waiter set up before the send, when a response is expected. *)
Definition setup_waiter (networkAddress endpoint : Number) (zclFrame : ZclFrame.t)
  (timeout : Number) (disableResponse : bool) (w : World)
  : World * option WaiterHandle.t :=
  if negb disableResponse then
    match ZclFrame.response zclFrame with
    | Some response =>
      let '(w, h) :=
      waitFor (Some networkAddress) endpoint
      (Some (ZclFrame.transactionSequenceNumber zclFrame))
      (ZclFrame.clusterID zclFrame) response timeout w in
      (w, Some h)
    | None =>
      if negb (ZclFrame.disableDefaultResponse zclFrame) then
        let '(w, h) :=
        waitFor (Some networkAddress) endpoint
        (Some (ZclFrame.transactionSequenceNumber zclFrame))
        (ZclFrame.clusterID zclFrame) defaultRsp_ID timeout w in
        (w, Some h)
      else (w, None)
    end
  else (w, None).

(** The [catch] block: [waiter?.cancel(); throw error]. *)
Definition catch (waiter : option WaiterHandle.t) (error : Exception) (w : World)
  : World * ZclCall :=
  (cancel waiter w, Thrown error).

(** The matcher of the confirm phase. *)
Definition conf_matcher (txSequence : Number) : CommandMatcher :=
  fun msg =>
  match msg with
  | zclConf _ sequence _ => Number_eqb sequence txSequence
  | _ => false
  end.

(** The body up to [await this.queue.execute(command, ...)].  [id] is the
    key [execute] draws. *)
Definition sendZclFrameToEndpoint (id : string) (ieeeAddr : string)
  (networkAddress endpoint : Number) (zclFrame : ZclFrame.t) (timeout : Number)
  (disableResponse disableRecovery : bool) (sourceEndpoint profileId : option Number)
  (w : World) : World * ZclCall :=
  let payload := toUpperCase (ZclFrame.hex zclFrame) in
  let command :=
  COMMANDS.ZCL_REQ_UNICAST networkAddress endpoint (or_64 sourceEndpoint)
  (ZclFrame.clusterID zclFrame) payload in
  let '(w, waiter) := setup_waiter networkAddress endpoint zclFrame timeout disableResponse w in
  let '(w, ack) := CommandQueue.execute id command (type_is T_zclReq) (Int Constants.DEFAULT_TIMEOUT) w in
  (w, AwaitAck waiter timeout ack).

(** The continuation after an [await].  [id] is the key the [execute] of
    the confirm phase draws. *)
Definition resume (id : string) (call : ZclCall) (w : World) : World * ZclCall :=
  match call with
  | AwaitAck waiter timeout ack =>
    match promises w !! ack with
    | Some (Fulfilled (VMessage ackResponse)) =>
      match ackResponse with
      | zclReq _ txSequence =>
        let '(w, conf) := CommandQueue.execute id EmptyString (conf_matcher txSequence) timeout w in
        (w, AwaitConf waiter conf)
      | _ =>
        catch waiter (Error "Failed to send ZCL request") (cancel waiter w)
      end
    | Some (Rejected error) => catch waiter error w
    | _ => (w, call)
    end
  | AwaitConf waiter conf =>
    match promises w !! conf with
    | Some (Fulfilled (VMessage confResponse)) =>
      let failed :=
      match confResponse with
      | zclConf _ _ status =>
        if negb (Number_eqb status (Int 0)) then Some status else None
      | _ => None
      end in
      match failed with
      | Some status =>
        catch waiter
        (Error ("ZCL command failed with status " +:+ toString 10 status))
        (cancel waiter w)
      | None =>
        match waiter with
        | Some h => (w, AwaitIndication h)
        | None => (w, Returned None)
        end
      end
    | Some (Rejected error) => catch waiter error w
    | _ => (w, call)
    end
  | AwaitIndication waiter =>
    match promises w !! WaiterHandle.promise waiter with
    | Some (Fulfilled (VPayload result)) => (w, Returned (Some result))
    | Some (Rejected error) => catch (Some waiter) error w
    | _ => (w, call)
    end
  | Returned _ | Thrown _ => (w, call)
  end.

(** [sendZclFrameToGroup]: the one command, and the promise the call
    awaits before it returns. *)
Definition sendZclFrameToGroup (id : string) (groupID : Number) (zclFrame : ZclFrame.t)
  (sourceEndpoint profileId : option Number) (w : World) : World * nat :=
  let payload := toUpperCase (ZclFrame.hex zclFrame) in
  let command :=
    COMMANDS.ZCL_REQ_GROUP groupID (ZclFrame.clusterID zclFrame) payload
      (or_64 sourceEndpoint) in
  CommandQueue.execute id command (type_is T_zclReq) (Int Constants.DEFAULT_TIMEOUT) w.

(** [sendZclFrameToAll]. *)
Definition sendZclFrameToAll (id : string) (endpoint : Number) (zclFrame : ZclFrame.t)
  (sourceEndpoint : Number) (destination : Number) (profileId : option Number)
  (w : World) : World * nat :=
  let payload := toUpperCase (ZclFrame.hex zclFrame) in
  let command :=
    COMMANDS.ZCL_REQ_BROADCAST destination endpoint (or_64 (Some sourceEndpoint))
      (ZclFrame.clusterID zclFrame) payload in
  CommandQueue.execute id command (type_is T_zclReq) (Int Constants.DEFAULT_TIMEOUT) w.

(** An [async] function that ends with [await p]: not yet, returned, or
    thrown. *)
Definition await_last (p : nat) (w : World) : option (Result unit) :=
  match promises w !! p with
  | Some (Fulfilled _) => Some (Ok tt)
  | Some (Rejected error) => Some (Throw error)
  | _ => None
  end.

(* ------------------------------------------------------------------- *)
(** ** initializeClustersAndEndpoints *)

Definition anyResponseMatcher : CommandMatcher := fun _ => true.

Definition gpGroupId : Number := Int 27627.

Definition coordClusters : list Z :=
  [0x0000; 0x0003; 0x0004; 0x0005; 0x0006; 0x0008; 0x0300; 0x0400; 0x0402; 0x0406; 0x1000].

Definition ep100bClusters : list Z :=
  [0x0000; 0x0005; 0xfc00; 0xfc01; 0xfc03; 0xfc04; 0xfc06; 0xfc07].

Definition ep40InputClusters : list Z :=
  [0x0000; 0x0003; 0x0004; 0x0005; 0x0006; 0x0008; 0x0300; 0x1000; 0xfc00; 0xfc01; 0xfc03;
   0xfc04; 0xfc07].

Definition ep40OutputClusters : list Z := [0x0000; 0x0019; 0x1000; 0xfc01].

Definition ep41InputClusters : list Z := [0x0001; 0x000f; 0x0400; 0x0402; 0x0406; 0xfc00; 0xfc06].

Definition foundationCmds : list Z := [0x01; 0x04; 0x06; 0x07; 0x0a; 0x0b].

(** The commands of [initializeClustersAndEndpoints], in the order the
    body awaits them (the [for] loops unrolled). *)
Definition initialization : list string :=
  ([COMMANDS.ZGP_SET_GROUP_ID gpGroupId;
    COMMANDS.GROUPS_ADD_TO_GROUP (Int 242) gpGroupId]
   ++ List.map (fun clusterId => COMMANDS.ZCL_REGISTER_CLUSTER (Int 0x0000) (Int clusterId) (Int 0x01))
        coordClusters
   ++ List.map (fun clusterId => COMMANDS.ZCL_REGISTER_CLUSTER (Int 0x100b) (Int clusterId) (Int 0x01))
        ep100bClusters
   ++ [COMMANDS.ZCL_REGISTER_CLUSTER (Int 0x0000) (Int 0x0019) (Int 0x00);
       COMMANDS.ZCL_REGISTER_CLUSTER (Int 0x0000) (Int 0x1000) (Int 0x00);
       COMMANDS.ZCL_REGISTER_ENDPOINT (Int 0x40) (Int 0xc05e) (Int 0x0840) (Int 0x02)
         (Int 0x04) (Int 0x0d) (Int 0x11)]
   ++ List.map (fun clusterId => COMMANDS.ZCL_ADD_CLUSTER_TO_DESCRIPTOR (Int 0x40) (Int 0x01) (Int clusterId))
        ep40InputClusters
   ++ List.map (fun clusterId => COMMANDS.ZCL_ADD_CLUSTER_TO_DESCRIPTOR (Int 0x40) (Int 0x00) (Int clusterId))
        ep40OutputClusters
   ++ [COMMANDS.ZCL_REGISTER_ENDPOINT (Int 0x41) (Int 0x0104) (Int 0x0007) (Int 0x00)
         (Int 0x00) (Int 0x07) (Int 0x00)]
   ++ List.map (fun clusterId => COMMANDS.ZCL_ADD_CLUSTER_TO_DESCRIPTOR (Int 0x41) (Int 0x01) (Int clusterId))
        ep41InputClusters
   ++ List.map (fun cmdId => COMMANDS.ZCL_REGISTER_FOUNDATION_CMD (Int cmdId)) foundationCmds
   ++ [COMMANDS.STREAM_REGISTER_PROXY (Int 0x40);
       COMMANDS.BRIDGE_SET_MIGRATION_CODE (Int 0x1f6d800)])%list.

(** Where [initializeClustersAndEndpoints] is suspended: the answer it
    awaits and the commands still to send. *)
Inductive InitCall : Type :=
| AwaitInit (response : nat) (rest : list string)
| InitReturned
| InitThrown (error : Exception).

(** Send the next command, or return when none is left. *)
Definition init_continue (id : string) (commands : list string) (w : World)
  : World * InitCall :=
  match commands with
  | [] => (w, InitReturned)
  | command :: rest =>
    let '(w, p) :=
      CommandQueue.execute id command anyResponseMatcher (Int Constants.DEFAULT_TIMEOUT) w in
    (w, AwaitInit p rest)
  end.

(** The body up to the first [await]. *)
Definition initializeClustersAndEndpoints (id : string) (w : World) : World * InitCall :=
  init_continue id initialization w.

(** The continuation after an [await]; [id] is the key of the next
    [execute]. *)
Definition init_resume (id : string) (call : InitCall) (w : World) : World * InitCall :=
  match call with
  | AwaitInit response rest =>
    match promises w !! response with
    | Some (Fulfilled _) => init_continue id rest w
    | Some (Rejected error) => (w, InitThrown error)
    | _ => (w, call)
    end
  | InitReturned | InitThrown _ => (w, call)
  end.

(* ------------------------------------------------------------------- *)
(** ** processMessages and the event loop *)

Section Events.

(** [Zcl.Header.fromBuffer] on the frame; it belongs to the ZCL
    library. *)
Variable Zcl_Header_fromBuffer : Buffer.t -> option ZclHeader.t.

(** [processMessages], the listener of [rxMsg]. *)
Definition processMessages (msg : ParsedMessage) (w : World) : Result World :=
  match msg with
  | deviceAnnounce networkAddress ieee _ =>
    Ok (effect (Emit_deviceJoined networkAddress ieee) w)
  | zclInd source dest clusterId payload_ =>
    let payload :=
    {| ZclPayload.clusterID := clusterId;
      ZclPayload.address := EndpointAddress.address source;
      ZclPayload.endpoint := EndpointAddress.endpoint source;
      ZclPayload.data := Buffer.from payload_;
      ZclPayload.header := Zcl_Header_fromBuffer (Buffer.from payload_);
      ZclPayload.linkquality := Int 255;
      ZclPayload.groupID := Int 0;
      ZclPayload.wasBroadcast := false;
      ZclPayload.destinationEndpoint := EndpointAddress.endpoint dest |} in
    let '(w, resolved) := Waitress.resolve payload w in
    if resolved then Ok w else Ok (effect (Emit_zclPayload payload) w)
  | networkSettings _ panId extendedPanId channel nwkUpdateId _ =>
    let* ext := MessageParser.defined "msg.extendedPanId.replace" extendedPanId in
    let params :=
    {| NetworkParameters.panID := panId;
      NetworkParameters.extendedPanID := Some (toLowerCase (remove_all ":" ext));
      NetworkParameters.channel := channel;
      NetworkParameters.nwkUpdateID := nwkUpdateId |} in
    Ok (effect (Emit_internalNetworkSettings params) (set_networkParams (Some params) w))
  | _ => Ok w
  end.

(** What can happen to a running adapter. *)
Inductive Event : Type :=
| Call_execute (id command : string) (matcher : CommandMatcher) (timeoutMs : Number)
| Call_send (command : string)
| Call_clear
| Call_waitFor (matcher : WaitressMatcher.t) (timeout : Number)
| Call_cancel (ID : nat)
| Data (message : string)                     (* the parser delivers a line *)
| TimerFires (t : nat)
| WriteDone (h : nat) (error : option string) (* the callback of port.write *)
| Tick (dt : Z)                               (* time passes *)
| Call_nextSequence.                          (* a request draws its number *)

(** The end of a turn: an exception that reaches the event loop is
    reported; a call that does not return leaves no world behind. *)
Definition uncaught (r : Result World) (w : World) : option World :=
  match r with
  | Ok w' => Some w'
  | Throw e => Some (effect (Uncaught e) w)
  | Hang => None
  end.

(** One turn of the event loop; [None] when the event cannot happen, or
    when the turn does not end. *)
Definition step (ev : Event) (w : World) : option World :=
  match ev with
  | Call_execute id command matcher timeoutMs =>
    Some (fst (CommandQueue.execute id command matcher timeoutMs w))
  | Call_send command => Some (CommandQueue.send command None w)
  | Call_clear => Some (CommandQueue.clear w)
  | Call_waitFor matcher timeout => Some (fst (Waitress.waitFor matcher timeout w))
  | Call_cancel ID => Some (Waitress.remove ID w)
  | Data message =>
    match CommandQueue.handleMessage message w with
    | Ok (w', Some parsed) => uncaught (processMessages parsed w') w'
    | Ok (w', None) => Some w'
    | Throw e => Some (effect (Uncaught e) w)
    | Hang => None
    end
  | TimerFires t =>
    match timers w !! t with
    | Some timer =>
      if Timer.due timer <=? now w then
        let w := set_timers (delete t (timers w)) w in
        match Timer.callback timer with
        | ExecuteTimeout id reject_ timeoutMs command =>
          Some (CommandQueue.on_timeout id reject_ timeoutMs command w)
        | WaiterTimeout ID => Some (Waitress.on_timeout ID w)
        end
      else None
    | None => None
    end
  | WriteDone h error =>
    match writes w !! h with
    | Some handler =>
      let w := set_writes (delete h (writes w)) w in
      match error, handler with
      | Some message, Some handler =>
        Some (CommandQueue.on_write_error
          handler (Error ("Failed to write to port: " +:+ message)) w)
      | _, _ => Some w
      end
    | None => None
    end
  | Tick dt => if 0 <=? dt then Some (set_now (now w + dt) w) else None
  | Call_nextSequence => Some (fst (CommandQueue.nextSequence w))
  end.

(** A sequence of turns. *)
Fixpoint run (evs : list Event) (w : World) : option World :=
  match evs with
  | [] => Some w
  | ev :: rest =>
    match step ev w with
    | Some w' => run rest w'
    | None => None
    end
  end.

End Events.

End HueBridgeAdapter.

(* ===================================================================== *)
(** * Vocabulary of the statements *)
(* ===================================================================== *)

Module Spec.
Import JS Runtime.

(** The keys of the map, in insertion order. *)
Definition keys {V} (m : list (string * V)) : list string := m.*1.

(** The entry a message settles: the first, in insertion order, whose
    matcher accepts, together with the entries offered before it. *)
Fixpoint first_accepting (parsed : ParsedMessage) (entries : list (string * PendingCommand.t))
  : option (list (string * PendingCommand.t) * (string * PendingCommand.t)) :=
  match entries with
  | [] => None
  | (id, entry) :: rest =>
    if PendingCommand.matcher entry parsed then Some ([], (id, entry))
    else match first_accepting parsed rest with
    | Some (before, hit) => Some ((id, entry) :: before, hit)
    | None => None
    end
  end.

(** The entry [execute] puts in the map for the promise [p]: its timer
    is the next handle. *)
Definition entry_of (p : nat) (matcher : CommandMatcher) (command : string)
  : PendingCommand.t :=
  {| PendingCommand.promise := p; PendingCommand.matcher := matcher;
    PendingCommand.timeout := S p; PendingCommand.command := command |}.

(** The matcher of the entry refuses the message. *)
Definition rejecting (parsed : ParsedMessage) (e : string * PendingCommand.t) : Prop :=
  PendingCommand.matcher (snd e) parsed = false.

(** The promises and the timers of a list of entries. *)
Definition promises_of (m : list (string * PendingCommand.t)) : list nat :=
  (fun e => PendingCommand.promise (snd e)) <$> m.

Definition timeouts_of (m : list (string * PendingCommand.t)) : list nat :=
  (fun e => PendingCommand.timeout (snd e)) <$> m.

(** Readings of a stretch of the log. *)
Definition resolves (l : list Effect) : list (nat * Value) :=
  omap (fun e => match e with Resolve p v => Some (p, v) | _ => None end) l.

Definition rejects (l : list Effect) : list (nat * Exception) :=
  omap (fun e => match e with Reject p x => Some (p, x) | _ => None end) l.

Definition rxMsgs (l : list Effect) : list ParsedMessage :=
  omap (fun e => match e with Emit_rxMsg m => Some m | _ => None end) l.

Definition applied (l : list Effect) : list string :=
  omap (fun e => match e with MatcherApplied id => Some id | _ => None end) l.

(** The failure [clear] settles with. *)
Definition cleared : Exception := Error "Command queue cleared".

(** The failure a timeout settles with. *)
Definition timed_out (timeoutMs : Number) (command : string) : Exception :=
  Error (CommandQueue.timeout_message timeoutMs command).

(** The third comma-separated field of a command line, where the
    templates put the destination. *)
Definition address_field (line : string) : option string :=
  at_ (split "," line) 2.

(** The requests the [switch] of [sendZdo] builds a command line for:
    every cluster it knows, a bind or unbind request only with the
    destination mode 3 (an IEEE address) or 1 (a group, whose two bytes
    the payload must hold). *)
Definition builds_line (clusterId : ZdoClusterId) (payload : Buffer.t) : bool :=
  match clusterId with
  | BIND_REQUEST | UNBIND_REQUEST =>
    match Buffer.get payload 12 with
    | Some (Int 3) => true
    | Some (Int 1) => (15 <=? List.length payload)%nat
    | _ => false
    end
  | OTHER_CLUSTER _ => false
  | _ => true
  end.

(** A world the adapter can be in: what a sequence of turns makes of a
    fresh one.  The turns are the calls of the queue and of the waitress
    ([nextSequence], [execute], [send], [clear], [waitFor], the removal of
    a waiter), the lines, the timers, the callbacks of the writes and the
    passing of time. *)
Definition reachable (fromBuffer : Buffer.t -> option ZclHeader.t) (w : World) : Prop :=
  exists t0 evs, HueBridgeAdapter.run fromBuffer evs (initial t0) = Some w.

(** The turns of the event loop, case by case, with the world each leaves:
    the relational reading of [step]. *)
Inductive Step (w : World) : HueBridgeAdapter.Event -> World -> Prop :=
| St_execute id command matcher timeoutMs :
  Step w (HueBridgeAdapter.Call_execute id command matcher timeoutMs)
  (fst (CommandQueue.execute id command matcher timeoutMs w))
| St_send command :
  Step w (HueBridgeAdapter.Call_send command) (CommandQueue.send command None w)
| St_clear :
  Step w HueBridgeAdapter.Call_clear (CommandQueue.clear w)
| St_waitFor matcher timeout :
  Step w (HueBridgeAdapter.Call_waitFor matcher timeout)
  (fst (Waitress.waitFor matcher timeout w))
| St_cancel_none ID :
  Waitress.find ID (waiters w) = None ->
  Step w (HueBridgeAdapter.Call_cancel ID) w
| St_cancel ID x :
  x ∈ waiters w -> Waiter.ID x = ID ->
  Step w (HueBridgeAdapter.Call_cancel ID)
  (set_waiters (Waitress.without ID (waiters w)) (clearTimeout (Waiter.timer x) w))
| St_data_quiet message L v :
  Step w (HueBridgeAdapter.Data message) (set_log L (set_networkParams v w))
| St_data_consumed message parsed before id e after L :
  MessageParser.parse message = Ok parsed ->
  pending w = (before ++ (id, e) :: after)%list ->
  Forall (rejecting parsed) before ->
  PendingCommand.matcher e parsed = true ->
  Step w (HueBridgeAdapter.Data message)
  (resolve (PendingCommand.promise e) (VMessage parsed)
    (set_pending (CommandQueue.map_delete id (pending w))
      (clearTimeout (PendingCommand.timeout e) (set_log L w))))
| St_data_indication message x payload L :
  x ∈ waiters w ->
  Waitress.waitressValidator payload (Waiter.matcher x) = true ->
  Step w (HueBridgeAdapter.Data message)
  (resolve (Waiter.promise x) (VPayload payload)
    (set_waiters (Waitress.without (Waiter.ID x) (waiters w))
      (clearTimeout (Waiter.timer x) (set_log L w))))
| St_timer_execute t tm id p timeoutMs command :
  timers w !! t = Some tm -> Timer.due tm <= now w ->
  Timer.callback tm = ExecuteTimeout id p timeoutMs command ->
  Step w (HueBridgeAdapter.TimerFires t)
  (reject p (timed_out timeoutMs command)
    (set_pending (CommandQueue.map_delete id (pending w))
      (set_timers (delete t (timers w)) w)))
| St_timer_waiter_gone t tm ID :
  timers w !! t = Some tm -> Timer.due tm <= now w ->
  Timer.callback tm = WaiterTimeout ID ->
  Waitress.find ID (waiters w) = None ->
  Step w (HueBridgeAdapter.TimerFires t) (set_timers (delete t (timers w)) w)
| St_timer_waiter t tm ID x :
  timers w !! t = Some tm -> Timer.due tm <= now w ->
  Timer.callback tm = WaiterTimeout ID ->
  x ∈ waiters w -> Waiter.ID x = ID ->
  Step w (HueBridgeAdapter.TimerFires t)
  (reject (Waiter.promise x)
    (Error (Waitress.waitressTimeoutFormatter (Waiter.matcher x) (Waiter.timeoutMs x)))
    (set_waiters (Waitress.without ID (waiters w))
      (set_timers (delete t (timers w)) w)))
| St_write_done h handler error :
  writes w !! h = Some handler -> error = None \/ handler = None ->
  Step w (HueBridgeAdapter.WriteDone h error) (set_writes (delete h (writes w)) w)
| St_write_failed h c message :
  writes w !! h = Some (Some c) ->
  Step w (HueBridgeAdapter.WriteDone h (Some message))
  (reject (ExecuteCatch.reject c) (Error ("Failed to write to port: " +:+ message))
    (set_pending (CommandQueue.map_delete (ExecuteCatch.id c) (pending w))
      (clearTimeout (ExecuteCatch.timeout c)
        (set_writes (delete h (writes w)) w))))
| St_tick dt :
  0 <= dt ->
  Step w (HueBridgeAdapter.Tick dt) (set_now (now w + dt) w)
| St_nextSequence :
  Step w HueBridgeAdapter.Call_nextSequence (set_sequenceNumber (sequenceNumber w + 1) w).

(** The ways a turn settles a promise [p] of the world [w]. *)
Inductive settles (w : World) (p : nat) : HueBridgeAdapter.Event -> Settlement -> Prop :=
| by_message message parsed k e :
  MessageParser.parse message = Ok parsed ->
  (k, e) ∈ pending w -> PendingCommand.promise e = p ->
  PendingCommand.matcher e parsed = true ->
  settles w p (HueBridgeAdapter.Data message) (Fulfilled (VMessage parsed))
| by_indication message x payload :
  x ∈ waiters w -> Waiter.promise x = p ->
  settles w p (HueBridgeAdapter.Data message) (Fulfilled (VPayload payload))
| by_timeout t tm id timeoutMs command :
  timers w !! t = Some tm -> Timer.due tm <= now w ->
  Timer.callback tm = ExecuteTimeout id p timeoutMs command ->
  settles w p (HueBridgeAdapter.TimerFires t) (Rejected (timed_out timeoutMs command))
| by_waiter_timeout t tm x :
  timers w !! t = Some tm -> Timer.due tm <= now w ->
  Timer.callback tm = WaiterTimeout (Waiter.ID x) ->
  x ∈ waiters w -> Waiter.promise x = p ->
  settles w p (HueBridgeAdapter.TimerFires t)
  (Rejected (Error (Waitress.waitressTimeoutFormatter
        (Waiter.matcher x) (Waiter.timeoutMs x))))
| by_write_error h c message :
  writes w !! h = Some (Some c) -> ExecuteCatch.reject c = p ->
  settles w p (HueBridgeAdapter.WriteDone h (Some message))
  (Rejected (Error ("Failed to write to port: " +:+ message)))
| by_clear k e :
  (k, e) ∈ pending w -> PendingCommand.promise e = p ->
  settles w p HueBridgeAdapter.Call_clear (Rejected cleared).

(** The key [id] is new to the world: no entry, no timer and no write
    handler was made under it. *)
Definition fresh_key (id : string) (w : World) : Prop :=
  (id ∉ keys (pending w))
  /\ (forall t tm id' p ms c,
    timers w !! t = Some tm -> Timer.callback tm = ExecuteTimeout id' p ms c -> id' <> id)
  /\ (forall h c, writes w !! h = Some (Some c) -> ExecuteCatch.id c <> id).

(** The turn leaves the command registered under [id], with promise [p],
    to its timer: it is not [clear], not a call of [execute] drawing the
    same key, not a message the matcher accepts, not the failure of its
    write, not its timer. *)
Definition spares (id : string) (p : nat) (matcher : CommandMatcher)
  (ev : HueBridgeAdapter.Event) : bool :=
  match ev with
  | HueBridgeAdapter.Call_clear => false
  | HueBridgeAdapter.Call_execute id' _ _ _ => negb (String.eqb id' id)
  | HueBridgeAdapter.Data message =>
    match MessageParser.parse message with
    | Ok parsed => negb (matcher parsed)
    | Throw _ | Hang => true
    end
  | HueBridgeAdapter.TimerFires t => negb (Nat.eqb t (S p))
  | HueBridgeAdapter.WriteDone h (Some _) => negb (Nat.eqb h (S (S p)))
  | _ => true
  end.

(** The call of [sendZclFrameToEndpoint] is suspended at an [await] and
    holds the waiter [h]. *)
Definition awaits_with (h : HueBridgeAdapter.WaiterHandle.t) (call : HueBridgeAdapter.ZclCall)
  : Prop :=
  match call with
  | HueBridgeAdapter.AwaitAck (Some h') _ _ => h' = h
  | HueBridgeAdapter.AwaitConf (Some h') _ => h' = h
  | HueBridgeAdapter.AwaitIndication h' => h' = h
  | _ => False
  end.

(** The phase the call waits for has failed: the awaited promise is
    rejected, the acknowledgement is not a [zclReq], or the confirmation
    reports a status other than 0. *)
Definition phase_failed (call : HueBridgeAdapter.ZclCall) (w : World) : bool :=
  match call with
  | HueBridgeAdapter.AwaitAck _ _ ack =>
    match promises w !! ack with
    | Some (Rejected _) => true
    | Some (Fulfilled (VMessage (zclReq _ _))) => false
    | Some (Fulfilled (VMessage _)) => true
    | _ => false
    end
  | HueBridgeAdapter.AwaitConf _ conf =>
    match promises w !! conf with
    | Some (Rejected _) => true
    | Some (Fulfilled (VMessage (zclConf _ _ status))) => negb (Number_eqb status (Int 0))
    | _ => false
    end
  | HueBridgeAdapter.AwaitIndication h =>
    match promises w !! HueBridgeAdapter.WaiterHandle.promise h with
    | Some (Rejected _) => true
    | _ => false
    end
  | _ => false
  end.

End Spec.

(* ===================================================================== *)
(** * Vocabulary for the texts on the wire *)
(* ===================================================================== *)

Module Text.
Import JS.

(** Every code unit of the string satisfies [P]. *)
Fixpoint all_chr (P : ascii -> bool) (s : string) : bool :=
  match s with
  | EmptyString => true
  | String c r => P c && all_chr P r
  end.

(** The string does not begin with a code unit that satisfies [P]. *)
Definition stops (P : ascii -> bool) (s : string) : bool :=
  match s with
  | EmptyString => true
  | String c _ => negb (P c)
  end.

(** [Number.isSafeInteger]: the integers a JavaScript number holds
    exactly, and prints without an exponent. *)
Definition isSafeInteger (z : Z) : bool :=
  (-9007199254740991 <=? z) && (z <=? 9007199254740991).

(** The digits [toString(16)] writes. *)
Definition is_hex_lower (c : ascii) : bool := is_digit c || between 97 102 c.

(** The digits of an address as the bridge writes them. *)
Definition is_hex_upper (c : ascii) : bool := is_digit c || between 65 70 c.

Definition is_hex (c : ascii) : bool := is_hex_lower c || is_hex_upper c.

Definition not_comma (c : ascii) : bool := negb (Ascii.eqb c ","%char).

(** [`${n}`] of an integer. *)
Definition dec (z : Z) : string := toString 10 (Int z).

(** The line [[f1,f2,...]] of the given fields. *)
Definition line (fields : list string) : string :=
  "[" +:+ COMMANDS.join "," fields +:+ "]".

(** The prefix that selects each variant in [parse]; [unknown] has
    none. *)
Definition prefix_of (t : MessageType) : option string :=
  match t with
  | T_ready => Some Constants.MESSAGE_PREFIXES.TH_READY
  | T_version => Some Constants.MESSAGE_PREFIXES.TH_GET_SW_VERSION
  | T_address => Some Constants.MESSAGE_PREFIXES.CONNECTION_GET_ADDRESS
  | T_deviceAnnounce => Some Constants.MESSAGE_PREFIXES.ZDP_DEVICE_ANNOUNCE
  | T_nodeDescRsp => Some Constants.MESSAGE_PREFIXES.ZDP_NODE_DESC_RSP
  | T_activeEpRsp => Some Constants.MESSAGE_PREFIXES.ZDP_ACTIVE_EP_RSP
  | T_activeEpReq => Some "[Zdp,SendActiveEndPointReq,"
  | T_simpleDescRsp => Some Constants.MESSAGE_PREFIXES.ZDP_SIMPLE_DESC_RSP
  | T_zclInd => Some Constants.MESSAGE_PREFIXES.ZCL_IND
  | T_zclConf => Some Constants.MESSAGE_PREFIXES.ZCL_CONF
  | T_zclReq => Some Constants.MESSAGE_PREFIXES.ZCL_REQ
  | T_joinPermitted => Some Constants.MESSAGE_PREFIXES.ZDP_JOIN_PERMITTED
  | T_networkSettings => Some Constants.MESSAGE_PREFIXES.BRIDGE_NETWORK_SETTINGS
  | T_mgmtLqiRsp => Some Constants.MESSAGE_PREFIXES.ZDP_MGMT_LQI_RSP
  | T_linkTouchlink => Some Constants.MESSAGE_PREFIXES.TOUCHLINK
  | T_zdpIeeeAddrRsp => Some Constants.MESSAGE_PREFIXES.ZDP_IEEE_ADDR_RSP
  | T_unknown => None
  end.

(** The variants whose block returns whatever follows the prefix. *)
Definition lenient (t : MessageType) : bool :=
  match t with
  | T_ready | T_version | T_address | T_activeEpReq | T_zclConf | T_zclReq
  | T_joinPermitted | T_networkSettings | T_linkTouchlink => true
  | _ => false
  end.

(** The field is missing or holds no [S=0x...] address. *)
Definition lacks_address (field : option string) : bool :=
  match field with
  | Some f =>
    match RegExp.match_ f MessageParser.re_addr with
    | Some _ => false
    | None => true
    end
  | None => true
  end.

(** The lines [parse] has no result for: a ZDP response cut before its
    fourth field, or an IEEE address response whose fourth or seventh
    field is not an address. *)
Definition malformed (message : string) : bool :=
  let parts := MessageParser.parts_of message in
  (startsWith message Constants.MESSAGE_PREFIXES.ZDP_NODE_DESC_RSP
   || startsWith message Constants.MESSAGE_PREFIXES.ZDP_ACTIVE_EP_RSP
   || startsWith message Constants.MESSAGE_PREFIXES.ZDP_SIMPLE_DESC_RSP
   || startsWith message Constants.MESSAGE_PREFIXES.ZDP_MGMT_LQI_RSP)
  && (List.length parts <=? 3)%nat
  || startsWith message Constants.MESSAGE_PREFIXES.ZDP_IEEE_ADDR_RSP
     && (lacks_address (at_ parts 3) || lacks_address (at_ parts 6)).

(** The lines [parse] never returns for: an LQI response with four
    fields or more whose count of entries, the eighth field, is beyond
    2^53 + 1, where the counter of the loop stops growing. *)
Definition endless (message : string) : bool :=
  let parts := MessageParser.parts_of message in
  startsWith message Constants.MESSAGE_PREFIXES.ZDP_MGMT_LQI_RSP
  && negb (List.length parts <=? 3)%nat
  && match parseInt (at_ parts 7) 0 with
     | Int z => 9007199254740993 <? z
     | NaN => false
     end.

(** A number [parseInt] returns as the digits denote it: [NaN], or an
    integer a double holds exactly. *)
Definition is_exact (n : Number) : bool :=
  match n with
  | Int z => isSafeInteger z
  | NaN => true
  end.

(** The failure of a timeout, as the caller sees it: "Command timeout
    after <timeoutMs>ms: <command>", the number in decimal digits when it
    is one a double holds exactly. *)
Definition timeout_failure (timeoutMs : Number) (command : string) (x : Exception) : Prop :=
  exists text,
    x = Error ("Command timeout after " +:+ text +:+ "ms: " +:+ command)
    /\ (is_exact timeoutMs = true -> text = toString 10 timeoutMs).

(** The characters of an IEEE address as the bridge writes it. *)
Definition is_hex_or_colon (c : ascii) : bool := is_hex c || Ascii.eqb c ":"%char.

(** Bytes as the bridge reads an IEEE address: two upper-case hexadecimal
    digits each, colons between. *)
Definition colon_hex (bytes : Buffer.t) : string :=
  COMMANDS.join ":" ((fun b => toUpperCase (Buffer.hex_byte b)) <$> bytes).

(** The status field of a response, for the variants that have one. *)
Definition status_of (m : ParsedMessage) : option Number :=
  match m with
  | version status _ _ _ | address status _ _ | nodeDescRsp _ _ status _
  | activeEpRsp _ _ status _ | simpleDescRsp _ _ status _ | zclConf _ _ status
  | zclReq status _ | mgmtLqiRsp _ _ status _ _ _ | zdpIeeeAddrRsp _ _ status _ _ =>
    Some status
  | _ => None
  end.

(** The requests [sendZdo] converts the response of. *)
Definition converted (c : ZdoClusterId) : bool :=
  match c with
  | NODE_DESCRIPTOR_REQUEST | ACTIVE_ENDPOINTS_REQUEST | SIMPLE_DESCRIPTOR_REQUEST
  | IEEE_ADDRESS_REQUEST | LQI_TABLE_REQUEST => true
  | _ => false
  end.

(** The data written to the port, in order. *)
Definition written (l : list Effect) : list string :=
  omap (fun e => match e with Wrote data => Some data | _ => None end) l.

(** A command as it goes out: the text and the terminator. *)
Definition terminated (command : string) : string :=
  command +:+ Constants.MESSAGE_TERMINATOR.

End Text.

(* ===================================================================== *)
(** * A bridge that answers *)
(* ===================================================================== *)

Module Bridge.
Import JS HueBridgeAdapter.

(** The bridge answers the initialization line by line: a line arrives,
    then the suspended call is resumed; with each line comes the key the
    next [execute] of the call draws. *)
Fixpoint init_answered (fromBuffer : Buffer.t -> option ZclHeader.t)
         (answers : list (string * string)) (call : InitCall) (w : World)
  : option (World * InitCall) :=
  match answers with
  | [] => Some (w, call)
  | (line, id) :: rest =>
    match step fromBuffer (Data line) w with
    | Some w' =>
      let '(w'', call') := init_resume id call w' in
      init_answered fromBuffer rest call' w''
    | None => None
    end
  end.

(** The line is one the parser returns a message for. *)
Definition readable (line : string) : Prop :=
  exists parsed, MessageParser.parse line = JS.Ok parsed.


End Bridge.

(* ===================================================================== *)
(** * The parser: results *)
(* ===================================================================== *)

Module ParserFacts.
Import JS RegExp Constants MessageParser.

(** Two prefixes of one string are comparable. *)
Lemma prefix_comparable (p q s : string) :
  String.prefix p s = true -> String.prefix q s = true ->
  String.prefix p q = true \/ String.prefix q p = true.
Proof.
  revert q s. induction p as [|a p IH]; intros q s Hp Hq.
  - left. destruct q; reflexivity.
  - destruct q as [|b q]; [right; reflexivity|].
    destruct s as [|c s]; [discriminate|].
    simpl in Hp, Hq |- *.
    destruct (ascii_dec a c) as [->|]; [|discriminate].
    destruct (ascii_dec b c) as [->|]; [|discriminate].
    destruct (ascii_dec c c) as [_|A]; [|contradiction].
    eapply IH; eassumption.
Qed.

(** A line that starts with one prefix does not start with an
    incomparable one. *)
Lemma startsWith_excludes (p q s : string) :
  String.prefix p q = false -> String.prefix q p = false ->
  startsWith s p = true -> startsWith s q = false.
Proof.
  unfold startsWith. intros Hpq Hqp Hp.
  destruct (String.prefix q s) eqn:Hq; [|reflexivity].
  destruct (prefix_comparable p q s Hp Hq); congruence.
Qed.

Ltac other_prefix H :=
  match type of H with
  | startsWith ?s ?p = true =>
    match goal with
    | |- context [startsWith s ?q] =>
      rewrite (startsWith_excludes p q s eq_refl eq_refl H)
    end
  end.

(** C7. The literal device announcement
    "[Zdp,ReceivedDeviceAnnounce,S=0x0003.0,L=A4:C1:38:E3:B9:14:32:8B,128]"
    parses to [deviceAnnounce] with network address 3, the IEEE address
    without separators, in lower case, behind "0x", and capability 128. *)
Theorem parse_device_announce_literal :
  parse "[Zdp,ReceivedDeviceAnnounce,S=0x0003.0,L=A4:C1:38:E3:B9:14:32:8B,128]"
  = Ok (deviceAnnounce (Int 3) "0xa4c138e3b914328b" (Int 128)).
Proof. vm_compute. reflexivity. Qed.

(** C1. [parse] is not total: a line that stops right after the prefix of
    a node descriptor or IEEE address response, or whose address field
    carries no "S=0x" token, makes it throw a [TypeError] instead of
    returning a message. *)
Theorem parse_throws_on_truncated_response :
  parse "[Zdp,ReceivedNodeDescRsp" = Throw (TypeError "parts[3].match")
  /\ parse "[Zdp,ReceivedIeeeAddrRsp" = Throw (TypeError "parts[3].match")
  /\ parse "[Zdp,ReceivedIeeeAddrRsp,2,0xDC81,0,L=00:15:8D:00:00:73:2D:27,S=0xDC81.0]"
  = Throw (TypeError "parts[3].match(...)[1]").
Proof. repeat split; vm_compute; reflexivity. Qed.

(** C9. A line with the prefix of a device announcement, or of a ZCL
    indication, whose body the detailed regular expression of that block
    does not match, falls through every later block and comes back as
    [unknown], carrying the line itself; it is neither a typed message
    nor an exception. *)
Theorem parse_unmatched_body_is_unknown (message : string) :
  (startsWith message MESSAGE_PREFIXES.ZDP_DEVICE_ANNOUNCE = true
    /\ match_ message re_deviceAnnounce = None)
  \/ (startsWith message MESSAGE_PREFIXES.ZCL_IND = true
    /\ match_ message re_zclInd = None) ->
  parse message = Ok (unknown message).
Proof.
  intros [[Hp Hm]|[Hp Hm]]; unfold parse, blocks, run;
    unfold block_ready, block_version, block_address, block_deviceAnnounce,
    block_nodeDescRsp, block_activeEpRsp, block_activeEpReq, block_simpleDescRsp,
    block_zclInd, block_zclConf, block_zclReq, block_joinPermitted,
    block_networkSettings, block_mgmtLqiRsp, block_linkTouchlink,
    block_zdpIeeeAddrRsp;
    rewrite Hp, Hm; repeat other_prefix Hp; reflexivity.
Qed.

Lemma parse_unmatched_body_is_unknown_witness :
  parse "[Zdp,ReceivedDeviceAnnounce,S=0x0003.0]"
  = Ok (unknown "[Zdp,ReceivedDeviceAnnounce,S=0x0003.0]").
Proof.
  apply parse_unmatched_body_is_unknown. left. split; vm_compute; reflexivity.
Defined.

End ParserFacts.

(* ===================================================================== *)
(** * The command queue: one call at a time *)
(* ===================================================================== *)

Module QueueFacts.
Import JS Runtime CommandQueue Spec.
Local Open Scope list_scope.

Implicit Types (w : World) (m : list (string * PendingCommand.t)).

(** ** The ordered map *)

Lemma map_set_fresh {V} (k : string) (v : V) (m : list (string * V)) :
  k ∉ keys m -> map_set k v m = m ++ [(k, v)].
Proof.
  unfold keys. induction m as [|[k' v'] m IH]; simpl; intros Hk; [reflexivity|].
  apply not_elem_of_cons in Hk as [Hne Hk].
  destruct (String.eqb_spec k' k) as [->|_]; [contradiction|].
  by rewrite IH.
Qed.

Lemma map_delete_fresh {V} (k : string) (m : list (string * V)) :
  k ∉ keys m -> map_delete k m = m.
Proof.
  unfold keys. induction m as [|[k' v'] m IH]; simpl; intros Hk; [reflexivity|].
  apply not_elem_of_cons in Hk as [Hne Hk].
  destruct (String.eqb_spec k' k) as [->|_]; [contradiction|].
  by rewrite IH.
Qed.

Lemma map_delete_middle {V} (k : string) (v : V) (m1 m2 : list (string * V)) :
  k ∉ keys m1 -> map_delete k (m1 ++ (k, v) :: m2) = m1 ++ m2.
Proof.
  unfold keys. induction m1 as [|[k' v'] m1 IH]; simpl; intros Hk.
  - by rewrite String.eqb_refl.
  - apply not_elem_of_cons in Hk as [Hne Hk].
    destruct (String.eqb_spec k' k) as [->|_]; [contradiction|].
    by rewrite IH.
Qed.

Lemma map_delete_subseteq {V} (k : string) (m : list (string * V)) :
  map_delete k m ⊆ m.
Proof.
  induction m as [|[k' v'] m IH]; simpl; [done|].
  destruct (String.eqb k' k); [by apply list_subseteq_cons|].
  intros x Hx. apply elem_of_cons in Hx as [->|Hx]; [left | right; by apply IH].
Qed.

(** ** What [execute] leaves behind *)

Lemma execute_fields id command matcher timeoutMs w :
  snd (execute id command matcher timeoutMs w) = next w
  /\ pending (fst (execute id command matcher timeoutMs w))
  = map_set id (entry_of (next w) matcher command) (pending w)
  /\ promises (fst (execute id command matcher timeoutMs w))
  = <[next w := Unsettled]> (promises w)
  /\ timers (fst (execute id command matcher timeoutMs w))
  = <[S (next w) := {| Timer.due := now w + delay timeoutMs;
      Timer.callback := ExecuteTimeout id (next w) timeoutMs command |}]>
  (timers w)
  /\ writes (fst (execute id command matcher timeoutMs w))
  = (if String.eqb command "" then writes w
    else <[S (S (next w)) := Some {| ExecuteCatch.timeout := S (next w);
        ExecuteCatch.id := id;
        ExecuteCatch.reject := next w |}]> (writes w))
  /\ next (fst (execute id command matcher timeoutMs w))
  = (if String.eqb command "" then S (S (next w)) else S (S (S (next w))))
  /\ log (fst (execute id command matcher timeoutMs w))
  = (if String.eqb command "" then log w
    else log w ++ [Wrote (command +:+ Constants.MESSAGE_TERMINATOR)])
  /\ waiters (fst (execute id command matcher timeoutMs w)) = waiters w
  /\ currentID (fst (execute id command matcher timeoutMs w)) = currentID w
  /\ now (fst (execute id command matcher timeoutMs w)) = now w
  /\ sequenceNumber (fst (execute id command matcher timeoutMs w)) = sequenceNumber w
  /\ networkParams (fst (execute id command matcher timeoutMs w)) = networkParams w.
Proof.
  unfold execute, send, write, new_promise, setTimeout, effect, entry_of. simpl.
  destruct (String.eqb command ""); simpl; repeat split; reflexivity.
Qed.

(** ** The loop of [handleMessage] *)

Lemma first_accepting_None parsed m :
  first_accepting parsed m = None <-> Forall (rejecting parsed) m.
Proof.
  induction m as [|[id e] m IH]; simpl.
  - split; [constructor | reflexivity].
  - destruct (PendingCommand.matcher e parsed) eqn:He.
    + split; [discriminate|]. intros H. apply Forall_cons in H as [H _].
      unfold rejecting in H. simpl in H. congruence.
    + destruct (first_accepting parsed m) as [[b h]|].
      * split; [discriminate|]. intros H. apply Forall_cons in H as [_ H].
        apply IH in H. discriminate.
      * split; [|reflexivity]. intros _. constructor; [exact He | by apply IH].
Qed.

Lemma first_accepting_Some parsed m before id e :
  first_accepting parsed m = Some (before, (id, e)) ->
  exists after, m = before ++ (id, e) :: after
  /\ Forall (rejecting parsed) before
  /\ PendingCommand.matcher e parsed = true.
Proof.
  revert before. induction m as [|[id' e'] m IH]; simpl; intros before H; [discriminate|].
  destruct (PendingCommand.matcher e' parsed) eqn:He.
  - inversion H; subst. exists m. repeat split; [constructor | exact He].
  - destruct (first_accepting parsed m) as [[b h]|] eqn:Hf; [|discriminate].
    inversion H; subst. destruct (IH b eq_refl) as (after & -> & Hb & Hm).
    exists after. repeat split; [|exact Hm]. constructor; [exact He | exact Hb].
Qed.

Lemma set_log_same w : set_log (log w) w = w.
Proof. by destruct w. Qed.

(** No entry accepts: every matcher has been applied, nothing else. *)
Lemma offer_none parsed m w :
  Forall (rejecting parsed) m ->
  offer parsed m w = (set_log (log w ++ (MatcherApplied <$> keys m)) w, false).
Proof.
  revert w. induction m as [|[id e] m IH]; intros w H; simpl.
  - by rewrite app_nil_r, set_log_same.
  - apply Forall_cons in H as [He H]. unfold rejecting in He. simpl in He.
    rewrite He, (IH _ H). unfold effect. simpl. by rewrite <- app_assoc.
Qed.

(** An entry accepts after the ones before it refused: it is the one
    settled, and no later matcher is applied. *)
Lemma offer_some parsed before id e after w :
  Forall (rejecting parsed) before ->
  PendingCommand.matcher e parsed = true ->
  offer parsed (before ++ (id, e) :: after) w
  = (resolve (PendingCommand.promise e) (VMessage parsed)
    (set_pending (map_delete id (pending w))
      (clearTimeout (PendingCommand.timeout e)
        (set_log (log w ++ (MatcherApplied <$> keys before) ++ [MatcherApplied id])
          w))),
    true).
Proof.
  revert w. induction before as [|[id' e'] before IH]; intros w H He; simpl.
  - by rewrite He.
  - apply Forall_cons in H as [He' H]. unfold rejecting in He'. simpl in He'.
    rewrite He', (IH _ H He). unfold effect. simpl. by rewrite <- app_assoc.
Qed.

(** ** Settling a promise *)

Lemma log_settle p s w : log (settle p s w) = log w.
Proof. unfold settle. by destruct (promises w !! p) as [[]|]. Qed.

Lemma pending_settle p s w : pending (settle p s w) = pending w.
Proof. unfold settle. by destruct (promises w !! p) as [[]|]. Qed.

Lemma waiters_settle p s w : waiters (settle p s w) = waiters w.
Proof. unfold settle. by destruct (promises w !! p) as [[]|]. Qed.

Lemma timers_settle p s w : timers (settle p s w) = timers w.
Proof. unfold settle. by destruct (promises w !! p) as [[]|]. Qed.

Lemma writes_settle p s w : writes (settle p s w) = writes w.
Proof. unfold settle. by destruct (promises w !! p) as [[]|]. Qed.

Lemma next_settle p s w : next (settle p s w) = next w.
Proof. unfold settle. by destruct (promises w !! p) as [[]|]. Qed.

Lemma now_settle p s w : now (settle p s w) = now w.
Proof. unfold settle. by destruct (promises w !! p) as [[]|]. Qed.

Lemma currentID_settle p s w : currentID (settle p s w) = currentID w.
Proof. unfold settle. by destruct (promises w !! p) as [[]|]. Qed.

(** The first settlement stays; other promises are not touched. *)
Lemma lookup_settle p s w q :
  promises (settle p s w) !! q
  = if decide (q = p)
  then match promises w !! p with
  | Some Unsettled => Some s
  | o => o
  end
  else promises w !! q.
Proof.
  unfold settle. destruct (decide (q = p)) as [->|Hne].
  - destruct (promises w !! p) as [[]|] eqn:E; simpl; rewrite ?lookup_insert_eq, ?E; done.
  - destruct (promises w !! p) as [[]|] eqn:E; simpl; rewrite ?lookup_insert_ne by done; done.
Qed.

Lemma observe_applied {B} (f : Effect -> option B) (ids : list string) :
  f (MatcherApplied "") = None -> (forall i, f (MatcherApplied i) = f (MatcherApplied "")) ->
  omap f (MatcherApplied <$> ids) = [].
Proof.
  intros H0 H. induction ids as [|i ids IH]; simpl; [done|].
  by rewrite H, H0.
Qed.

Lemma applied_applied (ids : list string) : applied (MatcherApplied <$> ids) = ids.
Proof. unfold applied. induction ids as [|i ids IH]; [done|]. cbn. by f_equal. Qed.

(** X25. A line the parser returns a message for settles at most one
    pending command.  When some matcher accepts the parsed message, the
    first accepting entry is resolved with it, no [rxMsg] is emitted, and
    the matchers applied are those of the entries up to that one, no later
    one; when none accepts, every matcher has been applied, nothing is
    settled, and the message is emitted once as [rxMsg]. *)
Theorem message_consumed_at_most_once (message : string) (parsed : ParsedMessage) w :
  MessageParser.parse message = Ok parsed ->
  exists w' emitted delta,
  handleMessage message w = Ok (w', emitted)
  /\ log w' = log w ++ delta
  /\ (length (resolves delta) + length (rejects delta) <= 1)%nat
  /\ match first_accepting parsed (pending w) with
  | Some (before, (id, entry)) =>
    emitted = None
    /\ rxMsgs delta = []
    /\ resolves delta = [(PendingCommand.promise entry, VMessage parsed)]
    /\ rejects delta = []
    /\ applied delta = keys before ++ [id]
  | None =>
    emitted = Some parsed
    /\ rxMsgs delta = [parsed]
    /\ resolves delta = []
    /\ rejects delta = []
    /\ applied delta = keys (pending w)
  end.
Proof.
  intros Hparse. unfold handleMessage. rewrite Hparse. simpl.
  destruct (first_accepting parsed (pending w)) as [[before [id e]]|] eqn:Hf.
  - destruct (first_accepting_Some _ _ _ _ _ Hf) as (after & Hm & Hb & He).
    pose proof (offer_some parsed before id e after w Hb He) as Ho.
    rewrite <- Hm in Ho. rewrite Ho. clear Ho.
    eexists _, None,
      ((MatcherApplied <$> keys before)
      ++ [MatcherApplied id; ClearTimeout (PendingCommand.timeout e);
      Resolve (PendingCommand.promise e) (VMessage parsed)]).
    split; [reflexivity|].
    split.
    { unfold resolve. rewrite log_settle. unfold effect, clearTimeout, effect. simpl.
      by rewrite <- !app_assoc. }
    unfold resolves, rejects, rxMsgs, applied. rewrite !omap_app.
    rewrite !(observe_applied _ (keys before)) by done.
    fold (applied (MatcherApplied <$> keys before)). rewrite applied_applied.
    simpl. repeat split; lia.
  - apply first_accepting_None in Hf. rewrite (offer_none _ _ _ Hf).
    eexists _, (Some parsed), ((MatcherApplied <$> keys (pending w)) ++ [Emit_rxMsg parsed]).
    split; [reflexivity|].
    split.
    { unfold effect. simpl. by rewrite <- !app_assoc. }
    unfold resolves, rejects, rxMsgs, applied. rewrite !omap_app.
    rewrite !(observe_applied _ (keys (pending w))) by done.
    fold (applied (MatcherApplied <$> keys (pending w))). rewrite applied_applied.
    simpl. rewrite app_nil_r. repeat split; lia.
Qed.

Lemma message_consumed_at_most_once_witness :
  exists w' emitted delta,
  handleMessage "[Zcl,Req,0,21]"
  (fst (execute "k" "" (fun msg => MessageType_eqb (type_of msg) T_zclReq) (Int 5000)
      (initial 0)))
  = Ok (w', emitted)
  /\ log w' = [] ++ delta
  /\ (length (resolves delta) + length (rejects delta) <= 1)%nat
  /\ emitted = None
  /\ rxMsgs delta = []
  /\ resolves delta = [(0%nat, VMessage (zclReq (Int 0) (Int 21)))]
  /\ rejects delta = []
  /\ applied delta = [] ++ ["k"].
Proof.
  apply (message_consumed_at_most_once
    "[Zcl,Req,0,21]" (zclReq (Int 0) (Int 21))
    (fst (execute "k" "" (fun msg => MessageType_eqb (type_of msg) T_zclReq) (Int 5000)
    (initial 0)))).
  vm_compute. reflexivity.
Defined.

(** C2. Two commands are registered one after the other and a message
    arrives whose parsed form both matchers accept (and no older entry
    does): [handleMessage] resolves the first with the message, and the
    second is still in the pending map, unsettled. *)
Theorem first_registered_wins w (id1 id2 c1 c2 : string) (m1 m2 : CommandMatcher)
  (t1 t2 : Number) (message : string) (parsed : ParsedMessage) :
  id1 <> id2 ->
  id1 ∉ keys (pending w) -> id2 ∉ keys (pending w) ->
  Forall (rejecting parsed) (pending w) ->
  MessageParser.parse message = Ok parsed ->
  m1 parsed = true -> m2 parsed = true ->
  let r1 := execute id1 c1 m1 t1 w in
  let r2 := execute id2 c2 m2 t2 (fst r1) in
  exists w3,
  handleMessage message (fst r2) = Ok (w3, None)
  /\ promises w3 !! snd r1 = Some (Fulfilled (VMessage parsed))
  /\ promises w3 !! snd r2 = Some Unsettled
  /\ (id1 ∉ keys (pending w3))
  /\ ((id2, entry_of (snd r2) m2 c2) ∈ pending w3).
Proof.
  intros Hne H1 H2 Hold Hparse Hm1 Hm2 r1 r2.
  destruct (execute_fields id1 c1 m1 t1 w) as (Hp1 & Hpend1 & Hprom1 & _ & _ & Hnext1 & _).
  destruct (execute_fields id2 c2 m2 t2 (fst r1))
    as (Hp2 & Hpend2 & Hprom2 & _ & _ & _ & _).
  fold r1 in Hp1, Hpend1, Hprom1, Hnext1. fold r1 r2 in Hp2, Hpend2, Hprom2.
  simpl in Hpend1, Hprom1, Hnext1, Hpend2, Hprom2.
  rewrite (map_set_fresh _ _ _ H1) in Hpend1.
  assert (H2' : id2 ∉ keys (pending (fst r1))).
  { rewrite Hpend1. unfold keys. rewrite fmap_app. simpl.
    rewrite elem_of_app, list_elem_of_singleton. intros [?|?]; [by apply H2 | congruence]. }
  rewrite (map_set_fresh _ _ _ H2'), Hpend1, <- app_assoc in Hpend2. simpl in Hpend2.
  assert (Hlt : (snd r1 < snd r2)%nat).
  { rewrite Hp1, Hp2, Hnext1. destruct (String.eqb c1 ""); lia. }
  unfold handleMessage. rewrite Hparse. simpl.
  pose proof (offer_some parsed (pending w) id1 (entry_of (next w) m1 c1)
    [(id2, entry_of (next (fst r1)) m2 c2)]
    (fst r2) Hold Hm1) as Ho.
  rewrite <- Hpend2 in Ho. rewrite Ho. clear Ho.
  eexists. split; [reflexivity|].
  assert (Hq : promises (fst r2) !! next w = Some Unsettled).
  { rewrite Hprom2, Hprom1, lookup_insert_ne by lia. apply lookup_insert_eq. }
  rewrite Hp1, Hp2. unfold resolve.
  rewrite !lookup_settle, !pending_settle. simpl.
  rewrite decide_True by reflexivity. rewrite Hq.
  rewrite decide_False by lia.
  rewrite Hprom2, lookup_insert_eq.
  rewrite Hpend2, (map_delete_middle _ _ _ _ H1).
  repeat split.
  - unfold keys. rewrite fmap_app. simpl.
    rewrite elem_of_app, list_elem_of_singleton. intros [?|?]; [by apply H1 | congruence].
  - rewrite elem_of_app, list_elem_of_singleton. by right.
Qed.

Lemma first_registered_wins_witness :
  let any : CommandMatcher := fun _ => true in
  let r1 := execute "first" "[TH,GetSwVersion]" any (Int 5000) (initial 0) in
  let r2 := execute "second" "" any (Int 5000) (fst r1) in
  exists w3,
  handleMessage "[TH,Ready,0]" (fst r2) = Ok (w3, None)
  /\ promises w3 !! snd r1 = Some (Fulfilled (VMessage ready))
  /\ promises w3 !! snd r2 = Some Unsettled
  /\ ("first" ∉ keys (pending w3))
  /\ (("second", entry_of (snd r2) any "") ∈ pending w3).
Proof.
  intros any.
  apply (first_registered_wins (initial 0) "first" "second" "[TH,GetSwVersion]" ""
    any any (Int 5000) (Int 5000) "[TH,Ready,0]" ready).
  - discriminate.
  - simpl. apply not_elem_of_nil.
  - simpl. apply not_elem_of_nil.
  - simpl. constructor.
  - vm_compute. reflexivity.
  - reflexivity.
  - reflexivity.
Defined.

End QueueFacts.

(* ===================================================================== *)
(** * sendZdo: the coordinator address *)
(* ===================================================================== *)

Module ZdoFacts.
Import JS Runtime CommandQueue HueBridgeAdapter Spec.
Local Open Scope list_scope.

(** The address field of each template, for the address 1. *)

Lemma address_node_desc seq :
  address_field (COMMANDS.ZDP_NODE_DESC_REQ (Int 1) seq) = Some "S=0x0001.0".
Proof. reflexivity. Qed.

Lemma address_active_ep seq :
  address_field (COMMANDS.ZDP_ACTIVE_EP_REQ (Int 1) seq) = Some "S=0x0001.0".
Proof. reflexivity. Qed.

Lemma address_simple_desc seq endpoint :
  address_field (COMMANDS.ZDP_SIMPLE_DESC_REQ (Int 1) seq endpoint) = Some "S=0x0001.0".
Proof.
  unfold COMMANDS.ZDP_SIMPLE_DESC_REQ.
  generalize (COMMANDS.show endpoint +:+ "]"). intros rest. reflexivity.
Qed.

Lemma address_ieee_addr seq :
  address_field (COMMANDS.ZDP_IEEE_ADDR_REQ (Int 1) seq) = Some "S=0x0001.0".
Proof.
  unfold COMMANDS.ZDP_IEEE_ADDR_REQ.
  generalize (COMMANDS.show (Some seq) +:+ "]"). intros rest. reflexivity.
Qed.

Lemma address_mgmt_lqi startIndex :
  address_field (COMMANDS.ZDP_MGMT_LQI_REQ (Int 1) startIndex) = Some "S=0x0001.0".
Proof.
  unfold COMMANDS.ZDP_MGMT_LQI_REQ.
  generalize (COMMANDS.show startIndex +:+ "]"). intros rest. reflexivity.
Qed.

Lemma address_bind srcIeee srcEndpoint clusterId destAddrMode destAddr destEndpoint :
  address_field (COMMANDS.ZDP_BIND_REQ (Int 1) srcIeee srcEndpoint clusterId destAddrMode
    destAddr destEndpoint)
  = Some "S=0x0001.0".
Proof.
  unfold COMMANDS.ZDP_BIND_REQ.
  generalize (COMMANDS.formatIeee srcIeee +:+ "." +:+ COMMANDS.show srcEndpoint +:+ ","
    +:+ COMMANDS.show (Some clusterId) +:+ ",L=" +:+ COMMANDS.formatIeee destAddr
    +:+ "." +:+ COMMANDS.show destEndpoint +:+ "]").
  intros rest. reflexivity.
Qed.

Lemma address_unbind srcIeee srcEndpoint clusterId destAddrMode destAddr destEndpoint :
  address_field (COMMANDS.ZDP_UNBIND_REQ (Int 1) srcIeee srcEndpoint clusterId destAddrMode
    destAddr destEndpoint)
  = Some "S=0x0001.0".
Proof.
  unfold COMMANDS.ZDP_UNBIND_REQ.
  generalize (COMMANDS.formatIeee srcIeee +:+ "." +:+ COMMANDS.show srcEndpoint +:+ ","
    +:+ COMMANDS.show (Some clusterId) +:+ ",L=" +:+ COMMANDS.formatIeee destAddr
    +:+ "." +:+ COMMANDS.show destEndpoint +:+ "]").
  intros rest. reflexivity.
Qed.

Lemma address_leave deviceIeee rejoin removeChildren :
  address_field (COMMANDS.ZDP_MGMT_LEAVE_REQ (Int 1) deviceIeee rejoin removeChildren)
  = Some "S=0x0001.0".
Proof.
  unfold COMMANDS.ZDP_MGMT_LEAVE_REQ.
  generalize (COMMANDS.formatIeee deviceIeee +:+ ","
    +:+ (if rejoin then "True" else "False") +:+ ","
    +:+ (if removeChildren then "True" else "False") +:+ "]").
  intros rest. reflexivity.
Qed.

(** The reversal of a stretch leaves what follows it where it was. *)
Lemma reverse_subarray_after (buf : Buffer.t) (b e i : nat) :
  (b <= e)%nat -> (e <= i)%nat ->
  nth_error (snd (Buffer.reverse_subarray buf b e)) i = nth_error buf i.
Proof.
  intros Hbe Hei. unfold Buffer.reverse_subarray. cbn [snd].
  set (view := rev (firstn (e - b) (skipn b buf))).
  assert (Hview : List.length view = Nat.min (e - b) (List.length buf - b)).
  { unfold view. by rewrite length_rev, length_firstn, length_skipn. }
  destruct (Nat.le_gt_cases e (List.length buf)) as [Hlen|Hlen].
  - rewrite nth_error_app2; rewrite length_firstn; [|lia].
    rewrite nth_error_app2; rewrite Hview; [|lia].
    rewrite nth_error_skipn. f_equal. lia.
  - transitivity (@None Byte.byte); [|symmetry]; apply nth_error_None.
    + rewrite !length_app, length_firstn, Hview, length_skipn. lia.
    + lia.
Qed.

Lemma reverse_subarray_length (buf : Buffer.t) (b e : nat) :
  (b <= e)%nat ->
  List.length (snd (Buffer.reverse_subarray buf b e)) = List.length buf.
Proof.
  intros Hbe. unfold Buffer.reverse_subarray. cbn [snd].
  rewrite !length_app, length_rev, !length_firstn, !length_skipn. lia.
Qed.

Lemma readUInt16LE_within (buf : Buffer.t) (offset : nat) :
  (offset + 2 <= List.length buf)%nat -> exists v, Buffer.readUInt16LE buf offset = Ok v.
Proof.
  intros Hlen. unfold Buffer.readUInt16LE.
  destruct (nth_error buf offset) as [lo|] eqn:Hlo;
    [|apply nth_error_None in Hlo; lia].
  destruct (nth_error buf (S offset)) as [hi|] eqn:Hhi;
    [|apply nth_error_None in Hhi; lia].
  eauto.
Qed.

Lemma get_Some_length (buf : Buffer.t) (i : nat) v :
  Buffer.get buf i = Some v -> (i < List.length buf)%nat.
Proof.
  unfold Buffer.get. destruct (nth_error buf i) eqn:Hn; [|done].
  intros _. apply nth_error_Some. congruence.
Qed.

(** For a request it builds a line for, the [switch] returns, at the
    address 1, a command that is not empty and carries that address. *)
Lemma request_builds clusterId payload seq :
  builds_line clusterId payload = true ->
  exists command matcher,
    request (Int 1) clusterId payload seq = Ok (command, matcher)
    /\ String.eqb command "" = false
    /\ address_field command = Some "S=0x0001.0".
Proof.
  intros Hb. destruct clusterId; try discriminate Hb; unfold request.
  - eexists _, _. split; [reflexivity|]. split; [reflexivity | apply address_node_desc].
  - eexists _, _. split; [reflexivity|]. split; [reflexivity | apply address_active_ep].
  - eexists _, _. split; [reflexivity|]. split; [reflexivity | apply address_simple_desc].
  - eexists _, _. split; [reflexivity|]. split; [reflexivity | apply address_ieee_addr].
  - eexists _, _. split; [reflexivity|]. split; [reflexivity | apply address_mgmt_lqi].
  - unfold ieee_at.
    pose proof (reverse_subarray_after payload 1 9) as Hafter.
    pose proof (reverse_subarray_length payload 1 9 ltac:(lia)) as Hlen.
    destruct (Buffer.reverse_subarray payload 1 9) as [view payload1]. cbn [snd] in *.
    assert (Hmode : Buffer.get payload1 12 = Buffer.get payload 12).
    { unfold Buffer.get. by rewrite Hafter by lia. }
    cbn [builds_line] in Hb.
    destruct (Buffer.get payload 12) as [mode|] eqn:Hget; [|discriminate Hb].
    pose proof (get_Some_length _ _ _ Hget) as H12.
    destruct (readUInt16LE_within payload1 10 ltac:(lia)) as [cl ->].
    cbn [bind]. rewrite Hmode.
    destruct mode as [|[|[[| |]|[| |]|]|]]; try discriminate Hb.
    + destruct (Buffer.reverse_subarray payload1 13 21) as [view2 payload2]. cbn [bind].
      eexists _, _. split; [reflexivity|]. split; [reflexivity | apply address_bind].
    + apply Nat.leb_le in Hb.
      destruct (readUInt16LE_within payload1 13 ltac:(lia)) as [g ->]. cbn [bind].
      eexists _, _. split; [reflexivity|]. split; [reflexivity | apply address_bind].
  - unfold ieee_at.
    pose proof (reverse_subarray_after payload 1 9) as Hafter.
    pose proof (reverse_subarray_length payload 1 9 ltac:(lia)) as Hlen.
    destruct (Buffer.reverse_subarray payload 1 9) as [view payload1]. cbn [snd] in *.
    assert (Hmode : Buffer.get payload1 12 = Buffer.get payload 12).
    { unfold Buffer.get. by rewrite Hafter by lia. }
    cbn [builds_line] in Hb.
    destruct (Buffer.get payload 12) as [mode|] eqn:Hget; [|discriminate Hb].
    pose proof (get_Some_length _ _ _ Hget) as H12.
    destruct (readUInt16LE_within payload1 10 ltac:(lia)) as [cl ->].
    cbn [bind]. rewrite Hmode.
    destruct mode as [|[|[[| |]|[| |]|]|]]; try discriminate Hb.
    + destruct (Buffer.reverse_subarray payload1 13 21) as [view2 payload2]. cbn [bind].
      eexists _, _. split; [reflexivity|]. split; [reflexivity | apply address_unbind].
    + apply Nat.leb_le in Hb.
      destruct (readUInt16LE_within payload1 13 ltac:(lia)) as [g ->]. cbn [bind].
      eexists _, _. split; [reflexivity|]. split; [reflexivity | apply address_unbind].
  - unfold ieee_at. destruct (Buffer.reverse_subarray payload 1 9) as [view payload1].
    eexists _, _. split; [reflexivity|]. split; [reflexivity | apply address_leave].
Qed.

(** For a bind or unbind request it builds no line for, the [switch]
    returns the empty command, or throws. *)
Lemma request_builds_nothing clusterId payload seq command matcher :
  supported clusterId = true -> builds_line clusterId payload = false ->
  request (Int 1) clusterId payload seq = Ok (command, matcher) -> command = "".
Proof.
  intros Hs Hb. destruct clusterId; try discriminate Hb; try discriminate Hs; unfold request.
  - unfold ieee_at.
    pose proof (reverse_subarray_after payload 1 9) as Hafter.
    pose proof (reverse_subarray_length payload 1 9 ltac:(lia)) as Hlen.
    destruct (Buffer.reverse_subarray payload 1 9) as [view payload1]. cbn [snd] in *.
    assert (Hmode : Buffer.get payload1 12 = Buffer.get payload 12).
    { unfold Buffer.get. by rewrite Hafter by lia. }
    destruct (Buffer.readUInt16LE payload1 10) as [cl| |]; cbn [bind]; try done.
    rewrite Hmode. cbn [builds_line] in Hb.
    destruct (Buffer.get payload 12) as [[|[|[[| |]|[| |]|]|]]|]; cbn [bind];
      try discriminate Hb; try (by intros [= <- _]).
    apply Nat.leb_gt in Hb. unfold Buffer.readUInt16LE.
    destruct (nth_error payload1 13) as [lo|]; [|done].
    destruct (nth_error payload1 14) as [hi|] eqn:Hhi; [|done].
    assert (14 < List.length payload1)%nat by (apply nth_error_Some; congruence). lia.
  - unfold ieee_at.
    pose proof (reverse_subarray_after payload 1 9) as Hafter.
    pose proof (reverse_subarray_length payload 1 9 ltac:(lia)) as Hlen.
    destruct (Buffer.reverse_subarray payload 1 9) as [view payload1]. cbn [snd] in *.
    assert (Hmode : Buffer.get payload1 12 = Buffer.get payload 12).
    { unfold Buffer.get. by rewrite Hafter by lia. }
    destruct (Buffer.readUInt16LE payload1 10) as [cl| |]; cbn [bind]; try done.
    rewrite Hmode. cbn [builds_line] in Hb.
    destruct (Buffer.get payload 12) as [[|[|[[| |]|[| |]|]|]]|]; cbn [bind];
      try discriminate Hb; try (by intros [= <- _]).
    apply Nat.leb_gt in Hb. unfold Buffer.readUInt16LE.
    destruct (nth_error payload1 13) as [lo|]; [|done].
    destruct (nth_error payload1 14) as [hi|] eqn:Hhi; [|done].
    assert (14 < List.length payload1)%nat by (apply nth_error_Some; congruence). lia.
Qed.

(** C10. A call of [sendZdo] for the address 0 is the call for the
    address 1.  For every request the [switch] builds a line for (every
    cluster it knows; a bind or unbind request with a destination mode it
    knows) the call returns, and what it has written to the transport is
    one command line whose address field is "S=0x0001.0".  For the
    remaining bind and unbind requests the call, when it returns, has
    written nothing. *)
Theorem sendZdo_coordinator_address (id ieeeAddress : string) (clusterId : ZdoClusterId)
  (payload : Buffer.t) (disableResponse : bool) (w : World) :
  sendZdo id ieeeAddress (Int 0) clusterId payload disableResponse w
  = sendZdo id ieeeAddress (Int 1) clusterId payload disableResponse w
  /\ (builds_line clusterId payload = true ->
      exists w' call command,
        sendZdo id ieeeAddress (Int 0) clusterId payload disableResponse w = Ok (w', call)
        /\ log w' = log w ++ [Wrote (command +:+ Constants.MESSAGE_TERMINATOR)]
        /\ address_field command = Some "S=0x0001.0")
  /\ (supported clusterId = true -> builds_line clusterId payload = false ->
      forall w' call,
        sendZdo id ieeeAddress (Int 0) clusterId payload disableResponse w = Ok (w', call) ->
        log w' = log w).
Proof.
  split; [reflexivity|]. split.
  - intros Hb. unfold sendZdo, rewrite_address. cbn [nextSequence Number_eqb].
    rewrite Z.eqb_refl.
    destruct (request_builds clusterId payload (Int (sequenceNumber w + 1)) Hb)
      as (command & matcher & -> & Hne & Ha).
    cbn [bind]. rewrite Hne, andb_true_r.
    destruct disableResponse.
    + eexists _, _, command. split; [reflexivity|]. split; [reflexivity | exact Ha].
    + pose proof (QueueFacts.execute_fields id command matcher (Int Constants.DEFAULT_TIMEOUT)
          (set_sequenceNumber (sequenceNumber w + 1) w)) as Hf.
      destruct (execute id command matcher (Int Constants.DEFAULT_TIMEOUT)
          (set_sequenceNumber (sequenceNumber w + 1) w)) as [w1 p].
      cbn [fst snd] in Hf. destruct Hf as (_ & _ & _ & _ & _ & _ & Hlog & _).
      rewrite Hne in Hlog.
      exists w1, (AwaitResponse p), command. split; [reflexivity|]. split; [exact Hlog | exact Ha].
  - intros Hs Hb w' call. unfold sendZdo, rewrite_address. cbn [nextSequence Number_eqb].
    rewrite Z.eqb_refl.
    destruct (request (Int 1) clusterId payload (Int (sequenceNumber w + 1)))
      as [[command matcher]| |] eqn:Hr; cbn [bind]; try done.
    rewrite (request_builds_nothing _ _ _ _ _ Hs Hb Hr).
    rewrite andb_false_r.
    pose proof (QueueFacts.execute_fields id "" matcher (Int Constants.DEFAULT_TIMEOUT)
        (set_sequenceNumber (sequenceNumber w + 1) w)) as Hf.
    destruct (execute id "" matcher (Int Constants.DEFAULT_TIMEOUT)
        (set_sequenceNumber (sequenceNumber w + 1) w)) as [w1 p].
    cbn [fst snd] in Hf. destruct Hf as (_ & _ & _ & _ & _ & _ & Hlog & _).
    intros [= <- _]. exact Hlog.
Qed.

Lemma sendZdo_coordinator_address_witness :
  exists w' call command,
    sendZdo "k" "0x0017880100000001" (Int 0) NODE_DESCRIPTOR_REQUEST [] false (initial 0)
    = Ok (w', call)
    /\ log w' = log (initial 0) ++ [Wrote (command +:+ Constants.MESSAGE_TERMINATOR)]
    /\ address_field command = Some "S=0x0001.0".
Proof.
  destruct (sendZdo_coordinator_address "k" "0x0017880100000001" NODE_DESCRIPTOR_REQUEST
    [] false (initial 0)) as (_ & H & _).
  exact (H eq_refl).
Defined.

End ZdoFacts.

(* ===================================================================== *)
(** * The event loop: what one turn can do *)
(* ===================================================================== *)

Module Dynamics.
Import JS Runtime CommandQueue HueBridgeAdapter Spec QueueFacts.
Local Open Scope list_scope.

Implicit Types (w : World) (m : list (string * PendingCommand.t)).

(** ** [clear] *)

Lemma reject_all_frame m w :
  pending (reject_all m w) = pending w
  /\ waiters (reject_all m w) = waiters w
  /\ writes (reject_all m w) = writes w
  /\ next (reject_all m w) = next w
  /\ now (reject_all m w) = now w
  /\ currentID (reject_all m w) = currentID w.
Proof.
  revert w. induction m as [|[id e] m IH]; intros w; simpl; [done|].
  destruct (IH (reject (PendingCommand.promise e) (Error "Command queue cleared")
                       (clearTimeout (PendingCommand.timeout e) w)))
    as (-> & -> & -> & -> & -> & ->).
  unfold reject.
  by rewrite pending_settle, waiters_settle, writes_settle, next_settle, now_settle,
    currentID_settle.
Qed.

Lemma reject_all_timers m w t :
  timers (reject_all m w) !! t
  = if decide (t ∈ timeouts_of m) then None else timers w !! t.
Proof.
  revert w. induction m as [|[id e] m IH]; intros w; cbn [reject_all].
  - rewrite decide_False; [done | apply not_elem_of_nil].
  - rewrite IH. unfold reject. rewrite timers_settle.
    cbn [clearTimeout timers set_timers effect set_log].
    unfold timeouts_of. rewrite fmap_cons. cbn [snd]. fold (timeouts_of m).
    destruct (decide (t ∈ timeouts_of m)) as [Hin|Hout].
    + rewrite decide_True; [done | by right].
    + destruct (decide (t = PendingCommand.timeout e)) as [->|Hne].
      * rewrite lookup_delete_eq, decide_True; [done | by left].
      * rewrite lookup_delete_ne by done.
        rewrite decide_False; [done|]. rewrite elem_of_cons. tauto.
Qed.

(** A promise of the list goes from unsettled to the "cleared" failure;
    every other promise, and every settled one, stays as it is. *)
Lemma reject_all_promises m w p :
  promises (reject_all m w) !! p
  = if decide (p ∈ promises_of m)
    then match promises w !! p with
         | Some Unsettled => Some (Rejected cleared)
         | o => o
         end
    else promises w !! p.
Proof.
  revert w. induction m as [|[id e] m IH]; intros w; cbn [reject_all].
  - rewrite decide_False; [done | apply not_elem_of_nil].
  - rewrite IH. unfold reject. rewrite !lookup_settle.
    cbn [clearTimeout promises set_timers effect set_log].
    unfold promises_of. rewrite fmap_cons. cbn [snd]. fold (promises_of m).
    destruct (decide (p = PendingCommand.promise e)) as [->|Hne].
    + rewrite (decide_True (P := _ ∈ _ :: _)) by (by left).
      destruct (decide (_ ∈ promises_of m));
        by destruct (promises w !! PendingCommand.promise e) as [[]|].
    + destruct (decide (p ∈ promises_of m)) as [Hin|Hout].
      * rewrite decide_True; [done | by right].
      * rewrite decide_False; [done|]. rewrite elem_of_cons. tauto.
Qed.

(** Every entry has its timer cleared and its promise rejected, once, in
    the order of the map. *)
Lemma reject_all_log m w :
  log (reject_all m w)
  = log w ++ (m ≫= fun e => [ClearTimeout (PendingCommand.timeout (snd e));
                             Reject (PendingCommand.promise (snd e)) cleared]).
Proof.
  revert w. induction m as [|[id e] m IH]; intros w; simpl.
  - by rewrite app_nil_r.
  - rewrite IH. unfold reject. rewrite log_settle. simpl. by rewrite <- !app_assoc.
Qed.

(** ** The secondary registry *)

Lemma waitress_offer_cases payload l w :
  Waitress.offer payload l w = (w, false)
  \/ exists x, x ∈ l
       /\ Waitress.waitressValidator payload (Waiter.matcher x) = true
       /\ Waitress.offer payload l w
          = (resolve (Waiter.promise x) (VPayload payload)
               (set_waiters (Waitress.without (Waiter.ID x) (waiters w))
                  (clearTimeout (Waiter.timer x) w)),
             true).
Proof.
  induction l as [|x l IH]; simpl; [by left|].
  destruct (Waitress.waitressValidator payload (Waiter.matcher x)) eqn:Hv.
  - right. exists x. split; [by left | done].
  - destruct IH as [IH|(y & Hy & Hv' & IH)]; [by left|].
    right. exists y. split; [by right | done].
Qed.

Lemma find_Some ID l x :
  Waitress.find ID l = Some x -> x ∈ l /\ Waiter.ID x = ID.
Proof.
  unfold Waitress.find. induction l as [|y l IH]; simpl; [done|].
  destruct (Nat.eqb_spec (Waiter.ID y) ID) as [He|Hne].
  - intros [= ->]. split; [by left | done].
  - intros H. destruct (IH H). split; [by right | done].
Qed.

Lemma elem_of_without ID l x :
  x ∈ Waitress.without ID l <-> x ∈ l /\ Waiter.ID x <> ID.
Proof.
  unfold Waitress.without. rewrite !list_elem_of_In, filter_In.
  destruct (Nat.eqb_spec (Waiter.ID x) ID); simpl; intuition congruence.
Qed.

(** ** Every turn is one of the cases of [Step] *)

Lemma quiet_form w L : set_log L w = set_log L (set_networkParams (networkParams w) w).
Proof. by destruct w. Qed.

Lemma listener_inv fb message parsed w L w' :
  uncaught (processMessages fb parsed (set_log L w)) (set_log L w) = Some w' ->
  Step w (Data message) w'.
Proof.
  destruct parsed; simpl;
    try (intros [= <-]; rewrite (quiet_form w); apply St_data_quiet);
    try (intros [= <-]; rewrite (quiet_form w); apply (St_data_quiet w message _ _)).
  - (* zclInd *)
    unfold Waitress.resolve.
    match goal with
    | |- context [Waitress.offer ?pl ?l ?w1] =>
        destruct (waitress_offer_cases pl l w1) as [Ho|(x & Hx & Hv & Ho)]; rewrite Ho
    end; simpl; intros [= <-].
    + rewrite (quiet_form w). apply St_data_quiet.
    + eapply St_data_indication; [exact Hx | exact Hv].
  - (* networkSettings *)
    destruct extendedPanId as [ext|]; simpl; intros [= <-].
    + apply (St_data_quiet w message _ (Some _)).
    + rewrite (quiet_form w). apply St_data_quiet.
Qed.

Lemma step_inv fb ev w w' : step fb ev w = Some w' -> Step w ev w'.
Proof.
  destruct ev as [id command matcher ms|command| |matcher timeout|ID|message|t|h error|dt|];
    simpl; intros H.
  - inversion H. constructor.
  - inversion H. constructor.
  - inversion H. constructor.
  - inversion H. constructor.
  - inversion H. unfold Waitress.remove.
    destruct (Waitress.find ID (waiters w)) as [x|] eqn:Hf.
    + apply find_Some in Hf as [Hx Hid]. by apply St_cancel.
    + by apply St_cancel_none.
  - unfold handleMessage in H.
    destruct (MessageParser.parse message) as [parsed|e|] eqn:Hp; simpl in H.
    + destruct (first_accepting parsed (pending w)) as [[before [id e]]|] eqn:Hf.
      * destruct (first_accepting_Some _ _ _ _ _ Hf) as (after & Hm & Hb & He).
        pose proof (offer_some parsed before id e after w Hb He) as Ho.
        rewrite <- Hm in Ho. rewrite Ho in H. inversion H.
        eapply St_data_consumed; eauto.
      * apply first_accepting_None in Hf. rewrite (offer_none _ _ _ Hf) in H.
        by apply (listener_inv fb message parsed w) in H.
    + inversion H. unfold effect. rewrite (quiet_form w). apply St_data_quiet.
    + discriminate H.
  - destruct (timers w !! t) as [tm|] eqn:Ht; [|discriminate].
    destruct (Z.leb_spec (Timer.due tm) (now w)) as [Hdue|]; [|discriminate].
    destruct (Timer.callback tm) as [id p ms c|ID] eqn:Hcb; inversion H.
    + exact (St_timer_execute w t tm id p ms c Ht Hdue Hcb).
    + unfold Waitress.on_timeout. simpl.
      destruct (Waitress.find ID (waiters w)) as [x|] eqn:Hf.
      * apply find_Some in Hf as [Hx Hid].
        exact (St_timer_waiter w t tm ID x Ht Hdue Hcb Hx Hid).
      * exact (St_timer_waiter_gone w t tm ID Ht Hdue Hcb Hf).
  - destruct (writes w !! h) as [handler|] eqn:Hh; [|discriminate].
    destruct error as [message|], handler as [c|]; inversion H.
    + exact (St_write_failed w h c message Hh).
    + eapply St_write_done; eauto.
    + eapply St_write_done; eauto.
    + eapply St_write_done; eauto.
  - destruct (Z.leb_spec 0 dt); inversion H. by constructor.
  - inversion H. constructor.
Qed.

(** The failure of the queue's timer is a timeout failure. *)
Lemma timed_out_failure timeoutMs command :
  Text.timeout_failure timeoutMs command (timed_out timeoutMs command).
Proof. by exists (toString 10 timeoutMs). Qed.

(** ** How a turn changes a promise *)

Lemma settle_effect q s w p :
  promises (settle q s w) !! p = promises w !! p
  \/ (p = q /\ promises w !! p = Some Unsettled /\ promises (settle q s w) !! p = Some s).
Proof.
  rewrite lookup_settle. destruct (decide (p = q)) as [->|]; [|by left].
  destruct (promises w !! q) as [[]|] eqn:E; rewrite ?E; auto.
Qed.

Definition waiter_of (matcher : WaitressMatcher.t) (timeout : Number) w : Waiter.t :=
  {| Waiter.ID := currentID w; Waiter.matcher := matcher;
     Waiter.promise := next w; Waiter.timer := S (next w);
     Waiter.timeoutMs := timeout |}.

Lemma waitFor_fields matcher timeout w :
  snd (Waitress.waitFor matcher timeout w) = waiter_of matcher timeout w
  /\ pending (fst (Waitress.waitFor matcher timeout w)) = pending w
  /\ waiters (fst (Waitress.waitFor matcher timeout w))
     = waiters w ++ [waiter_of matcher timeout w]
  /\ promises (fst (Waitress.waitFor matcher timeout w))
     = <[next w := Unsettled]> (promises w)
  /\ timers (fst (Waitress.waitFor matcher timeout w))
     = <[S (next w) := {| Timer.due := now w + delay timeout;
                         Timer.callback := WaiterTimeout (currentID w) |}]>
         (timers w)
  /\ writes (fst (Waitress.waitFor matcher timeout w)) = writes w
  /\ next (fst (Waitress.waitFor matcher timeout w)) = S (S (next w))
  /\ now (fst (Waitress.waitFor matcher timeout w)) = now w
  /\ currentID (fst (Waitress.waitFor matcher timeout w)) = S (currentID w)
  /\ log (fst (Waitress.waitFor matcher timeout w))
     = log w ++ [WaiterRegistered (currentID w)].
Proof. repeat split; reflexivity. Qed.

(** A turn leaves a promise as it is, or settles it, unsettled until then,
    in one of the ways of [settles]. *)
Lemma Step_promise ev w w' p :
  Step w ev w' -> (p < next w)%nat ->
  promises w' !! p = promises w !! p
  \/ (promises w !! p = Some Unsettled
      /\ exists s, promises w' !! p = Some s /\ settles w p ev s).
Proof.
  intros HS Hp. destruct HS; try (by left).
  - destruct (execute_fields id command matcher timeoutMs w) as (_ & _ & Hpr & _).
    left. rewrite Hpr, lookup_insert_ne by lia. done.
  - unfold clear. simpl. rewrite reject_all_promises.
    destruct (decide (p ∈ promises_of (pending w))) as [Hin|]; [|by left].
    apply list_elem_of_fmap in Hin as ([k e] & -> & Hin). simpl in *.
    destruct (promises w !! PendingCommand.promise e) as [[]|] eqn:E; try (by left).
    right. split; [done|]. exists (Rejected cleared). split; [done|].
    by eapply by_clear.
  - destruct (waitFor_fields matcher timeout w) as (_ & _ & _ & Hpr & _).
    left. rewrite Hpr, lookup_insert_ne by lia. done.
  - unfold resolve.
    match goal with
    | |- promises (settle ?q ?s ?W) !! _ = _ \/ _ =>
        destruct (settle_effect q s W p) as [Heq|(-> & Hu & Hs)]; [by left|]
    end.
    right. split; [exact Hu|]. eexists. split; [exact Hs|].
    eapply by_message; eauto. rewrite H0. apply elem_of_app. right. by left.
  - unfold resolve.
    match goal with
    | |- promises (settle ?q ?s ?W) !! _ = _ \/ _ =>
        destruct (settle_effect q s W p) as [Heq|(-> & Hu & Hs)]; [by left|]
    end.
    right. split; [exact Hu|]. eexists. split; [exact Hs|]. by eapply by_indication.
  - unfold reject.
    match goal with
    | |- promises (settle ?q ?s ?W) !! _ = _ \/ _ =>
        destruct (settle_effect q s W p) as [Heq|(-> & Hu & Hs)]; [by left|]
    end.
    right. split; [exact Hu|]. eexists. split; [exact Hs|]. by eapply by_timeout.
  - unfold reject.
    match goal with
    | |- promises (settle ?q ?s ?W) !! _ = _ \/ _ =>
        destruct (settle_effect q s W p) as [Heq|(-> & Hu & Hs)]; [by left|]
    end.
    right. split; [exact Hu|]. eexists. split; [exact Hs|].
    subst ID. by eapply by_waiter_timeout.
  - unfold reject.
    match goal with
    | |- promises (settle ?q ?s ?W) !! _ = _ \/ _ =>
        destruct (settle_effect q s W p) as [Heq|(-> & Hu & Hs)]; [by left|]
    end.
    right. split; [exact Hu|]. eexists. split; [exact Hs|]. by eapply by_write_error.
Qed.

(** The allocator only grows. *)
Lemma Step_next ev w w' : Step w ev w' -> (next w <= next w')%nat.
Proof.
  intros HS. destruct HS; unfold resolve, reject; rewrite ?next_settle; simpl; try lia.
  - destruct (execute_fields id command matcher timeoutMs w)
      as (_ & _ & _ & _ & _ & Hn & _).
    rewrite Hn. destruct (String.eqb command ""); lia.
  - destruct (reject_all_frame (pending w) w) as (_ & _ & _ & -> & _). lia.
Qed.

(** A settled promise stays as it is. *)
Lemma Step_settled ev w w' p s :
  Step w ev w' -> (p < next w)%nat ->
  promises w !! p = Some s -> s <> Unsettled ->
  promises w' !! p = Some s.
Proof.
  intros HS Hp Hs Hne.
  destruct (Step_promise _ _ _ p HS Hp) as [->|[Hu _]]; [done | congruence].
Qed.

(** ** Properties of every component *)

Lemma elem_of_map_set {V} (k : string) (v : V) (l : list (string * V)) x :
  x ∈ map_set k v l -> x = (k, v) \/ x ∈ l.
Proof.
  induction l as [|[k' v'] l IH]; simpl.
  - rewrite list_elem_of_singleton. by left.
  - destruct (String.eqb k' k); rewrite !elem_of_cons; intuition.
Qed.

Lemma elem_of_map_delete {V} (k : string) (l : list (string * V)) x :
  x ∈ map_delete k l -> x ∈ l.
Proof. apply map_delete_subseteq. Qed.

(** A property of every pending entry, every waiter, every armed timer and
    every write handler. *)
Record confined (E : string -> PendingCommand.t -> Prop) (X : Waiter.t -> Prop)
       (T : nat -> Timer.t -> Prop) (H : nat -> ExecuteCatch.t -> Prop) (w : World) : Prop := {
  conf_pending : forall k e, (k, e) ∈ pending w -> E k e;
  conf_waiters : forall x, x ∈ waiters w -> X x;
  conf_timers : forall t tm, timers w !! t = Some tm -> T t tm;
  conf_writes : forall h c, writes w !! h = Some (Some c) -> H h c
}.

(** A turn adds components only through [execute] and [waitFor]; a
    property of the components that the new ones have is kept. *)
Lemma confined_Step E X T H ev w w' :
  confined E X T H w -> Step w ev w' ->
  (forall id command matcher ms,
      ev = Call_execute id command matcher ms ->
      E id (entry_of (next w) matcher command)
      /\ T (S (next w)) {| Timer.due := now w + delay ms;
                           Timer.callback := ExecuteTimeout id (next w) ms command |}
      /\ (command <> "" ->
          H (S (S (next w))) {| ExecuteCatch.timeout := S (next w); ExecuteCatch.id := id;
                                ExecuteCatch.reject := next w |})) ->
  (forall matcher timeout,
      ev = Call_waitFor matcher timeout ->
      X (waiter_of matcher timeout w)
      /\ T (S (next w)) {| Timer.due := now w + delay timeout;
                           Timer.callback := WaiterTimeout (currentID w) |}) ->
  confined E X T H w'.
Proof.
  intros [HE HX HT HH] HS Hexec Hwait.
  destruct HS; unfold resolve, reject;
    (split;
     [ rewrite ?pending_settle | rewrite ?waiters_settle
     | rewrite ?timers_settle | rewrite ?writes_settle ]);
    simpl; eauto;
    try (intros k0 e0 Hin; apply elem_of_map_delete in Hin; by eauto);
    try (intros x0 Hin; apply elem_of_without in Hin as [Hin _]; by eauto);
    try (intros t0 tm0 Hin; apply lookup_delete_Some in Hin as [_ Hin]; by eauto);
    try (intros h0 c0 Hin; apply lookup_delete_Some in Hin as [_ Hin]; by eauto).
  - (* execute: pending *)
    destruct (Hexec _ _ _ _ eq_refl) as (He & _ & _).
    destruct (execute_fields id command matcher timeoutMs w) as (_ & -> & _).
    intros k e Hin. apply elem_of_map_set in Hin as [[= -> ->]|Hin]; eauto.
  - destruct (execute_fields id command matcher timeoutMs w)
      as (_ & _ & _ & _ & _ & _ & _ & -> & _). done.
  - destruct (Hexec _ _ _ _ eq_refl) as (_ & Ht & _).
    destruct (execute_fields id command matcher timeoutMs w) as (_ & _ & _ & -> & _).
    intros t tm Hin. apply lookup_insert_Some in Hin as [[<- <-]|[_ Hin]]; eauto.
  - destruct (Hexec _ _ _ _ eq_refl) as (_ & _ & Hh).
    destruct (execute_fields id command matcher timeoutMs w) as (_ & _ & _ & _ & -> & _).
    destruct (String.eqb_spec command ""); [done|].
    intros h c Hin. apply lookup_insert_Some in Hin as [[<- [= <-]]|[_ Hin]]; eauto.
  - (* send *)
    intros h c Hin. apply lookup_insert_Some in Hin as [[_ [=]]|[_ Hin]]; eauto.
  - (* clear *)
    intros k e Hin. by apply elem_of_nil in Hin.
  - destruct (reject_all_frame (pending w) w) as (_ & -> & _). done.
  - intros t tm Hin. rewrite reject_all_timers in Hin.
    destruct (decide (t ∈ timeouts_of (pending w))); [done | eauto].
  - destruct (reject_all_frame (pending w) w) as (_ & _ & -> & _). done.
  - (* waitFor *)
    destruct (Hwait _ _ eq_refl) as (Hx & _).
    intros x Hin. apply elem_of_app in Hin as [Hin|Hin]; [eauto|].
    apply list_elem_of_singleton in Hin as ->. exact Hx.
  - destruct (Hwait _ _ eq_refl) as (_ & Ht).
    intros t tm Hin. apply lookup_insert_Some in Hin as [[<- <-]|[_ Hin]]; eauto.
Qed.

(** ** Handles are allocated before they are used *)

(** Every handle a component holds is below [n]. *)
Definition below (n : nat) : World -> Prop :=
  confined
    (fun _ e => (PendingCommand.promise e < n)%nat /\ (PendingCommand.timeout e < n)%nat)
    (fun x => (Waiter.promise x < n)%nat /\ (Waiter.timer x < n)%nat)
    (fun t tm => (t < n)%nat
                 /\ match Timer.callback tm with
                    | ExecuteTimeout _ p _ _ => (p < n)%nat
                    | WaiterTimeout _ => True
                    end)
    (fun h c => (h < n)%nat /\ (ExecuteCatch.reject c < n)%nat
                /\ (ExecuteCatch.timeout c < n)%nat).

Lemma below_mono n n' w : (n <= n')%nat -> below n w -> below n' w.
Proof.
  intros Hle [HE HX HT HH]. split.
  - intros k e Hin. destruct (HE _ _ Hin). lia.
  - intros x Hin. destruct (HX _ Hin). lia.
  - intros t tm Hin. destruct (HT _ _ Hin) as [? Hc]. split; [lia|].
    destruct (Timer.callback tm); [lia | done].
  - intros h c Hin. destruct (HH _ _ Hin) as (? & ? & ?). lia.
Qed.

Lemma below_Step ev w w' : below (next w) w -> Step w ev w' -> below (next w') w'.
Proof.
  intros Hb HS. pose proof (Step_next _ _ _ HS) as Hle.
  eapply (confined_Step _ _ _ _ ev w w'); [exact (below_mono _ _ _ Hle Hb) | exact HS | |].
  - intros id command matcher ms ->.
    inversion HS; subst.
    destruct (execute_fields id command matcher ms w) as (_ & _ & _ & _ & _ & -> & _).
    simpl. destruct (String.eqb_spec command ""); repeat split; try lia; done.
  - intros matcher timeout ->. inversion HS; subst. simpl. repeat split; lia.
Qed.

Lemma below_initial t0 : below 0 (initial t0).
Proof. split; simpl; intros; by (apply elem_of_nil in H || rewrite lookup_empty in H). Qed.

Lemma run_app fb evs1 evs2 w :
  run fb (evs1 ++ evs2) w = run fb evs1 w ≫= run fb evs2.
Proof.
  revert w. induction evs1 as [|ev evs1 IH]; intros w; simpl; [done|].
  destruct (step fb ev w); simpl; [apply IH | done].
Qed.

(** An invariant of the turns holds after every run. *)
Lemma run_invariant fb (P : World -> Prop) :
  (forall ev w w', P w -> Step w ev w' -> P w') ->
  forall evs w w', P w -> run fb evs w = Some w' -> P w'.
Proof.
  intros Hstep evs. induction evs as [|ev evs IH]; intros w w' HP; simpl.
  - by intros [= <-].
  - destruct (step fb ev w) as [w1|] eqn:Hs; [|done].
    intros Hr. eapply IH; [|exact Hr]. eapply Hstep; [exact HP|]. by eapply step_inv.
Qed.

Lemma reachable_below fb w : reachable fb w -> below (next w) w.
Proof.
  intros (t0 & evs & Hr).
  apply (run_invariant fb (fun w => below (next w) w)
            (fun ev w1 w2 => below_Step ev w1 w2) evs (initial t0) w);
    [exact (below_initial t0) | exact Hr].
Qed.

End Dynamics.

(* ===================================================================== *)
(** * The command queue: a command over its life *)
(* ===================================================================== *)

Module QueueLife.
Import JS Runtime CommandQueue HueBridgeAdapter Spec QueueFacts Dynamics.
Local Open Scope list_scope.

Implicit Types (w : World).

(** ** A call of [execute] without a command *)

(** What refers to the promise [p] of a call [execute(id, '', matcher,
    timeoutMs)]: entries with that matcher, timers with that timeout; no
    waiter and no write handler. *)
Definition owned_silent (p : nat) (matcher : CommandMatcher) (timeoutMs : Number) w : Prop :=
  (p < next w)%nat
  /\ confined
       (fun _ e => PendingCommand.promise e = p -> PendingCommand.matcher e = matcher)
       (fun x => Waiter.promise x <> p)
       (fun _ tm => forall id ms c,
            Timer.callback tm = ExecuteTimeout id p ms c -> ms = timeoutMs /\ c = "")
       (fun _ c => ExecuteCatch.reject c <> p)
       w.

Lemma owned_silent_execute id matcher timeoutMs w :
  below (next w) w ->
  owned_silent (next w) matcher timeoutMs (fst (execute id "" matcher timeoutMs w)).
Proof.
  intros [HE HX HT HH].
  destruct (execute_fields id "" matcher timeoutMs w)
    as (_ & Hpe & _ & Hti & Hwr & Hn & _ & Hwa & _).
  split; [rewrite Hn; simpl; lia|]. split.
  - rewrite Hpe. intros k e Hin Hp.
    apply elem_of_map_set in Hin as [[= -> ->]|Hin]; [done|].
    destruct (HE _ _ Hin). lia.
  - rewrite Hwa. intros x Hin. destruct (HX _ Hin). lia.
  - rewrite Hti. intros t tm Hin id' ms c Hcb.
    apply lookup_insert_Some in Hin as [[<- <-]|[_ Hin]].
    + simpl in Hcb. by inversion Hcb.
    + destruct (HT _ _ Hin) as [_ Hlt]. rewrite Hcb in Hlt. lia.
  - rewrite Hwr. simpl. intros h c Hin. destruct (HH _ _ Hin) as (_ & ? & _). lia.
Qed.

Lemma owned_silent_Step p matcher timeoutMs ev w w' :
  owned_silent p matcher timeoutMs w -> Step w ev w' ->
  owned_silent p matcher timeoutMs w'.
Proof.
  intros [Hp Hc] HS. split; [pose proof (Step_next _ _ _ HS); lia|].
  eapply confined_Step; [exact Hc | exact HS | |].
  - intros id command m ms _. split; [|split].
    + simpl. intros Hq. lia.
    + simpl. intros id' ms' c' [= _ Hq _ _]. lia.
    + intros _. simpl. lia.
  - intros m timeout _. split.
    + simpl. lia.
    + simpl. intros id' ms' c' [=].
Qed.

(** C8. [execute] called with the empty string, in any world the adapter
    can reach, registers its matcher and writes nothing to the transport.
    The promise it returns then changes only when a message arrives that
    its matcher accepts, when its timer fires (to the timeout failure), or
    when [clear] runs.  The confirm phase of [sendZclFrameToEndpoint] is
    such a call. *)
Theorem execute_without_command fb (id : string) (matcher : CommandMatcher)
        (timeoutMs : Number) w :
  reachable fb w ->
  let w1 := fst (execute id "" matcher timeoutMs w) in
  let p := snd (execute id "" matcher timeoutMs w) in
  pending w1 = map_set id (entry_of p matcher "") (pending w)
  /\ promises w1 !! p = Some Unsettled
  /\ log w1 = log w
  /\ writes w1 = writes w
  /\ (forall evs w2 ev w3,
      run fb evs w1 = Some w2 -> step fb ev w2 = Some w3 ->
      promises w3 !! p = promises w2 !! p
      \/ (promises w2 !! p = Some Unsettled
          /\ ((exists message parsed,
                  ev = Data message
                  /\ MessageParser.parse message = Ok parsed
                  /\ matcher parsed = true
                  /\ promises w3 !! p = Some (Fulfilled (VMessage parsed)))
              \/ (exists t x,
                     ev = TimerFires t
                     /\ promises w3 !! p = Some (Rejected x)
                     /\ Text.timeout_failure timeoutMs "" x)
              \/ (ev = Call_clear
                  /\ promises w3 !! p = Some (Rejected cleared)))))
  /\ forall key waiter timeout ack status txSequence w0,
      promises w0 !! ack = Some (Fulfilled (VMessage (zclReq status txSequence))) ->
      resume key (AwaitAck waiter timeout ack) w0
      = (fst (execute key "" (conf_matcher txSequence) timeout w0),
         AwaitConf waiter (snd (execute key "" (conf_matcher txSequence) timeout w0))).
Proof.
  intros Hreach w1 p.
  destruct (execute_fields id "" matcher timeoutMs w)
    as (Hp & Hpe & Hpr & _ & Hwr & _ & Hlog & _).
  fold w1 in Hpe, Hpr, Hwr, Hlog. fold p in Hp.
  split; [by rewrite Hp|]. split; [by rewrite Hpr, Hp, lookup_insert_eq|].
  split; [exact Hlog|]. split; [exact Hwr|].
  split; [|by intros key waiter timeout ack status txSequence w0 Hack; simpl; rewrite Hack].
  intros evs w2 ev w3 Hrun Hstep.
  assert (Hown : owned_silent p matcher timeoutMs w2).
  { apply (run_invariant fb (owned_silent p matcher timeoutMs)
             (fun ev w w' H => owned_silent_Step p matcher timeoutMs ev w w' H)
             evs w1 w2); [|exact Hrun].
    rewrite Hp. apply owned_silent_execute. by apply (reachable_below fb). }
  destruct Hown as [Hlt [HE HX HT HH]].
  apply step_inv in Hstep.
  destruct (Step_promise _ _ _ p Hstep Hlt) as [Heq|(Hu & s & Hs & Hset)]; [by left|].
  right. split; [exact Hu|].
  destruct Hset as [message parsed k e Hparse Hin Hpe' Hm|message x payload Hin Hx
                   |t tm id' ms c Ht Hdue Hcb|t tm x Ht Hdue Hcb Hin Hx
                   |h c message Hh Hc|k e Hin Hpe'].
  - left. exists message, parsed. rewrite (HE _ _ Hin Hpe') in Hm. done.
  - by destruct (HX _ Hin).
  - right. left. destruct (HT _ _ Ht _ _ _ Hcb) as [-> ->].
    exists t, (timed_out timeoutMs ""). split; [done|]. split; [done|].
    apply timed_out_failure.
  - by destruct (HX _ Hin).
  - by destruct (HH _ _ Hh).
  - right. right. done.
Qed.

Lemma execute_without_command_witness :
  let fb : Buffer.t -> option ZclHeader.t := fun _ => None in
  let matcher : CommandMatcher := fun _ => true in
  let w1 := fst (execute "k" "" matcher (Int 5000) (fst (nextSequence (initial 0)))) in
  let p := snd (execute "k" "" matcher (Int 5000) (fst (nextSequence (initial 0)))) in
  pending w1 = map_set "k" (entry_of p matcher "") (pending (fst (nextSequence (initial 0))))
  /\ promises w1 !! p = Some Unsettled
  /\ log w1 = log (fst (nextSequence (initial 0)))
  /\ writes w1 = writes (fst (nextSequence (initial 0)))
  /\ (forall evs w2 ev w3,
      run fb evs w1 = Some w2 -> step fb ev w2 = Some w3 ->
      promises w3 !! p = promises w2 !! p
      \/ (promises w2 !! p = Some Unsettled
          /\ ((exists message parsed,
                  ev = Data message
                  /\ MessageParser.parse message = Ok parsed
                  /\ matcher parsed = true
                  /\ promises w3 !! p = Some (Fulfilled (VMessage parsed)))
              \/ (exists t x,
                     ev = TimerFires t
                     /\ promises w3 !! p = Some (Rejected x)
                     /\ Text.timeout_failure (Int 5000) "" x)
              \/ (ev = Call_clear
                  /\ promises w3 !! p = Some (Rejected cleared)))))
  /\ forall key waiter timeout ack status txSequence w0,
      promises w0 !! ack = Some (Fulfilled (VMessage (zclReq status txSequence))) ->
      resume key (AwaitAck waiter timeout ack) w0
      = (fst (execute key "" (conf_matcher txSequence) timeout w0),
         AwaitConf waiter (snd (execute key "" (conf_matcher txSequence) timeout w0))).
Proof.
  intros fb matcher.
  apply (execute_without_command fb "k" matcher (Int 5000) (fst (nextSequence (initial 0)))).
  exists 0, [Call_nextSequence]. reflexivity.
Defined.

(** ** The keys of the map are distinct *)

Lemma NoDup_map_set {V} (k : string) (v : V) (l : list (string * V)) :
  NoDup (keys l) -> NoDup (keys (map_set k v l)).
Proof.
  unfold keys. induction l as [|[k' v'] l IH]; simpl; intros Hn.
  - apply NoDup_singleton.
  - apply NoDup_cons in Hn as [Hk Hn].
    destruct (String.eqb_spec k' k) as [->|Hne]; simpl.
    + by apply NoDup_cons.
    + apply NoDup_cons. split; [|by apply IH].
      intros Hin. apply list_elem_of_fmap in Hin as ([k1 v1] & Hk1 & Hin). simpl in Hk1.
      subst k1. apply elem_of_map_set in Hin as [[= -> ->]|Hin]; [done|].
      apply Hk. apply list_elem_of_fmap. by exists (k', v1).
Qed.

Lemma NoDup_map_delete {V} (k : string) (l : list (string * V)) :
  NoDup (keys l) -> NoDup (keys (map_delete k l)) /\ k ∉ keys (map_delete k l).
Proof.
  unfold keys. induction l as [|[k' v'] l IH]; simpl; intros Hn.
  - split; [constructor | apply not_elem_of_nil].
  - apply NoDup_cons in Hn as [Hk Hn]. destruct (IH Hn) as [IH1 IH2].
    destruct (String.eqb_spec k' k) as [->|Hne]; simpl; [done|].
    split.
    + apply NoDup_cons. split; [|done].
      intros Hin. apply Hk. apply list_elem_of_fmap in Hin as (x & -> & Hin).
      apply list_elem_of_fmap. exists x. split; [done|]. by apply elem_of_map_delete in Hin.
    + apply not_elem_of_cons. done.
Qed.

Lemma NoDup_keys_Step ev w w' :
  NoDup (keys (pending w)) -> Step w ev w' -> NoDup (keys (pending w')).
Proof.
  intros Hn HS. destruct HS; unfold resolve, reject; rewrite ?pending_settle; simpl;
    try done; try (by apply NoDup_map_delete).
  - destruct (execute_fields id command matcher timeoutMs w) as (_ & -> & _).
    by apply NoDup_map_set.
  - constructor.
Qed.

Lemma reachable_NoDup_keys fb w : reachable fb w -> NoDup (keys (pending w)).
Proof.
  intros (t0 & evs & Hr).
  apply (run_invariant fb (fun w => NoDup (keys (pending w)))
           (fun ev w1 w2 => NoDup_keys_Step ev w1 w2) evs (initial t0) w);
    [constructor | exact Hr].
Qed.

Lemma elem_of_map_set_ne {V} (k k' : string) (v v' : V) (l : list (string * V)) :
  k <> k' -> (k', v') ∈ l -> (k', v') ∈ map_set k v l.
Proof.
  intros Hne. induction l as [|[k1 v1] l IH]; simpl; intros Hin.
  - by apply elem_of_nil in Hin.
  - apply elem_of_cons in Hin as [[= <- <-]|Hin].
    + destruct (String.eqb_spec k' k); [congruence | by left].
    + destruct (String.eqb_spec k1 k); right; [done | by apply IH].
Qed.

Lemma elem_of_map_delete_ne {V} (k k' : string) (v' : V) (l : list (string * V)) :
  k <> k' -> (k', v') ∈ l -> (k', v') ∈ map_delete k l.
Proof.
  intros Hne. induction l as [|[k1 v1] l IH]; simpl; intros Hin.
  - by apply elem_of_nil in Hin.
  - apply elem_of_cons in Hin as [[= <- <-]|Hin].
    + destruct (String.eqb_spec k' k); [congruence | by left].
    + destruct (String.eqb_spec k1 k); [done | right; by apply IH].
Qed.

(** ** A command left to its timer *)

Section Timeout.

Variables (id command : string) (matcher : CommandMatcher) (p : nat).

Let entry : PendingCommand.t := entry_of p matcher command.

(** The key [id], the promise [p] and the timer [S p] belong to one entry,
    one timer and at most one write handler. *)
Definition guarded w : Prop :=
  (S p < next w)%nat
  /\ confined
       (fun k e => k = id \/ PendingCommand.timeout e = S p \/ PendingCommand.promise e = p ->
                   k = id /\ e = entry)
       (fun x => Waiter.timer x <> S p /\ Waiter.promise x <> p)
       (fun t tm => forall id' p' ms c,
            Timer.callback tm = ExecuteTimeout id' p' ms c -> id' = id \/ p' = p -> t = S p)
       (fun h c => ExecuteCatch.id c = id \/ ExecuteCatch.timeout c = S p
                   \/ ExecuteCatch.reject c = p -> h = S (S p))
       w.

Lemma guarded_Step ev w w' :
  guarded w -> Step w ev w' -> spares id p matcher ev = true -> guarded w'.
Proof.
  intros [Hlt Hc] HS Hsp. split; [pose proof (Step_next _ _ _ HS); lia|].
  eapply confined_Step; [exact Hc | exact HS | |].
  - intros id' command' m ms ->. simpl in Hsp.
    destruct (String.eqb_spec id' id) as [|Hne]; [done|].
    split; [|split].
    + simpl. intros [?|[?|?]]; [done | lia | lia].
    + simpl. intros id1 p1 ms1 c1 [= -> -> _ _] [?|?]; [done | lia].
    + intros _. simpl. intros [?|[?|?]]; [done | lia | lia].
  - intros m timeout _. split.
    + simpl. lia.
    + simpl. intros id1 p1 ms1 c1 [=].
Qed.

(** While the turns spare it, the entry stays in the map, its timer stays
    armed and its promise stays unsettled. *)
Definition waiting (tm : Timer.t) w : Prop :=
  (id, entry) ∈ pending w
  /\ timers w !! S p = Some tm
  /\ promises w !! p = Some Unsettled.

Lemma waiting_Step tm ev w w' :
  guarded w -> waiting tm w -> Step w ev w' -> spares id p matcher ev = true ->
  waiting tm w'.
Proof.
  intros [Hlt [HE HX HT HH]] (Hin & Htm & Hun) HS Hsp.
  assert (Hpr : promises w' !! p = Some Unsettled).
  { destruct (Step_promise _ _ _ p HS ltac:(lia)) as [->|(_ & s & _ & Hset)]; [done|].
    exfalso.
    destruct Hset as [message parsed k e Hparse Hin' Hpe Hm|message x payload Hin' Hx
                     |t tm' id' ms c Ht Hdue Hcb|t tm' x Ht Hdue Hcb Hin' Hx
                     |h c message Hh Hc|k e Hin' Hpe].
    - simpl in Hsp. rewrite Hparse in Hsp.
      destruct (HE _ _ Hin' (or_intror (or_intror Hpe))) as [_ ->].
      simpl in Hm. rewrite Hm in Hsp. done.
    - by destruct (HX _ Hin').
    - simpl in Hsp. rewrite (HT _ _ Ht _ _ _ _ Hcb (or_intror eq_refl)) in Hsp.
      by rewrite Nat.eqb_refl in Hsp.
    - by destruct (HX _ Hin').
    - simpl in Hsp. rewrite (HH _ _ Hh (or_intror (or_intror Hc))) in Hsp.
      by rewrite Nat.eqb_refl in Hsp.
    - done. }
  split; [|split; [|exact Hpr]]; clear Hpr.
  - (* the entry stays *)
    destruct HS; unfold resolve, reject; rewrite ?pending_settle; simpl.
    + destruct (execute_fields id0 command0 matcher0 timeoutMs w) as (_ & -> & _).
      simpl in Hsp. destruct (String.eqb_spec id0 id); [done|].
      by apply elem_of_map_set_ne.
    + done.
    + done.
    + done.
    + done.
    + done.
    + done.
    + apply elem_of_map_delete_ne; [|done]. intros ->.
      assert (Hin0 : (id, e) ∈ pending w) by (rewrite H0; apply elem_of_app; right; by left).
      destruct (HE _ _ Hin0 (or_introl eq_refl)) as [_ ->].
      simpl in Hsp. rewrite H in Hsp. simpl in H2. rewrite H2 in Hsp. done.
    + done.
    + apply elem_of_map_delete_ne; [|done]. intros ->.
      simpl in Hsp. rewrite (HT _ _ H _ _ _ _ H1 (or_introl eq_refl)) in Hsp.
      by rewrite Nat.eqb_refl in Hsp.
    + done.
    + done.
    + done.
    + apply elem_of_map_delete_ne; [|done]. intros Hid.
      simpl in Hsp. rewrite (HH _ _ H (or_introl Hid)) in Hsp.
      by rewrite Nat.eqb_refl in Hsp.
    + done.
    + done.
  - (* the timer stays *)
    destruct HS; unfold resolve, reject; rewrite ?timers_settle; simpl.
    + destruct (execute_fields id0 command0 matcher0 timeoutMs w) as (_ & _ & _ & -> & _).
      rewrite lookup_insert_ne by lia. done.
    + done.
    + done.
    + rewrite lookup_insert_ne by lia. done.
    + done.
    + rewrite lookup_delete_ne; [done|]. by destruct (HX _ H).
    + done.
    + rewrite lookup_delete_ne; [done|]. intros Ht.
      assert (Hin0 : (id0, e) ∈ pending w) by (rewrite H0; apply elem_of_app; right; by left).
      destruct (HE _ _ Hin0 (or_intror (or_introl Ht))) as [-> ->].
      simpl in Hsp. rewrite H in Hsp. simpl in H2. rewrite H2 in Hsp. done.
    + rewrite lookup_delete_ne; [done|]. by destruct (HX _ H).
    + simpl in Hsp. rewrite lookup_delete_ne; [done|].
      intros ->. by rewrite Nat.eqb_refl in Hsp.
    + simpl in Hsp. rewrite lookup_delete_ne; [done|].
      intros ->. by rewrite Nat.eqb_refl in Hsp.
    + simpl in Hsp. rewrite lookup_delete_ne; [done|].
      intros ->. by rewrite Nat.eqb_refl in Hsp.
    + done.
    + rewrite lookup_delete_ne; [done|]. intros Ht.
      simpl in Hsp. rewrite (HH _ _ H (or_intror (or_introl Ht))) in Hsp.
      by rewrite Nat.eqb_refl in Hsp.
    + done.
    + done.
Qed.

End Timeout.

Lemma guarded_execute id command matcher ms w :
  below (next w) w -> fresh_key id w ->
  guarded id command matcher (next w) (fst (execute id command matcher ms w))
  /\ waiting id command matcher (next w)
       {| Timer.due := now w + delay ms;
          Timer.callback := ExecuteTimeout id (next w) ms command |}
       (fst (execute id command matcher ms w)).
Proof.
  intros [HE HX HT HH] (Hk & Ht & Hw).
  destruct (execute_fields id command matcher ms w)
    as (_ & Hpe & Hpr & Hti & Hwr & Hn & _ & Hwa & _).
  split; [split; [|split]|split; [|split]].
  - rewrite Hn. destruct (String.eqb command ""); lia.
  - rewrite Hpe. intros k e Hin Hor.
    apply elem_of_map_set in Hin as [[= -> ->]|Hin]; [done|].
    destruct (HE _ _ Hin). destruct Hor as [->|[?|?]]; [|lia|lia].
    exfalso. apply Hk. apply list_elem_of_fmap. by exists (id, e).
  - rewrite Hwa. intros x Hin. destruct (HX _ Hin). lia.
  - rewrite Hti. intros t tm Hin id' p' ms' c Hcb Hor.
    apply lookup_insert_Some in Hin as [[<- <-]|[_ Hin]]; [done|].
    destruct (HT _ _ Hin) as [_ Hlt]. rewrite Hcb in Hlt.
    destruct Hor as [-> | ->]; [|lia]. by destruct (Ht _ _ _ _ _ _ Hin Hcb).
  - rewrite Hwr. intros h c Hin Hor.
    assert (Hold : writes w !! h = Some (Some c) -> h = S (S (next w))).
    { intros Hin'. destruct (HH _ _ Hin') as (_ & ? & ?).
      destruct Hor as [Hid|[?|?]]; [|lia|lia]. by destruct (Hw _ _ Hin'). }
    destruct (String.eqb command ""); [by apply Hold|].
    apply lookup_insert_Some in Hin as [[<- _]|[_ Hin]]; [done | by apply Hold].
  - rewrite Hpe, (map_set_fresh _ _ _ Hk). apply elem_of_app. right. by left.
  - rewrite Hti. apply lookup_insert_eq.
  - rewrite Hpr. apply lookup_insert_eq.
Qed.

Lemma run_sparing fb (P : World -> Prop) (Q : Event -> bool) :
  (forall ev w w', P w -> Step w ev w' -> Q ev = true -> P w') ->
  forall evs w w', P w -> run fb evs w = Some w' -> forallb Q evs = true -> P w'.
Proof.
  intros Hstep evs. induction evs as [|ev evs IH]; intros w w' HP; simpl.
  - by intros [= <-].
  - destruct (step fb ev w) as [w1|] eqn:Hs; [|done].
    intros Hr Hq. apply andb_prop in Hq as [Hq1 Hq2].
    eapply IH; [|exact Hr|exact Hq2]. eapply Hstep; [exact HP| |exact Hq1].
    by eapply step_inv.
Qed.







End QueueLife.

(* ===================================================================== *)
(** * The pending map and the promises: an invariant of the event loop *)
(* ===================================================================== *)

Module Invariant.
Import JS Runtime CommandQueue HueBridgeAdapter Spec QueueFacts Dynamics QueueLife.
Local Open Scope list_scope.

Implicit Types (w : World) (m : list (string * PendingCommand.t)).

(** ** Where the components of the next world come from *)

Definition new_entry (ev : Event) w : option (string * PendingCommand.t) :=
  match ev with
  | Call_execute id command matcher _ => Some (id, entry_of (next w) matcher command)
  | _ => None
  end.

Definition new_waiter (ev : Event) w : option Waiter.t :=
  match ev with
  | Call_waitFor matcher timeout => Some (waiter_of matcher timeout w)
  | _ => None
  end.

Definition new_timer (ev : Event) w : option (nat * Timer.t) :=
  match ev with
  | Call_execute id command _ ms =>
      Some (S (next w), {| Timer.due := now w + delay ms;
                           Timer.callback := ExecuteTimeout id (next w) ms command |})
  | Call_waitFor _ timeout =>
      Some (S (next w), {| Timer.due := now w + delay timeout;
                           Timer.callback := WaiterTimeout (currentID w) |})
  | _ => None
  end.

Definition new_write (ev : Event) w : option (nat * ExecuteCatch.t) :=
  match ev with
  | Call_execute id command _ _ =>
      if String.eqb command "" then None
      else Some (S (S (next w)),
                 {| ExecuteCatch.timeout := S (next w); ExecuteCatch.id := id;
                    ExecuteCatch.reject := next w |})
  | _ => None
  end.

(** Every component after a turn was there before, or is the one the turn
    made. *)
Lemma Step_origin ev w w' :
  Step w ev w' ->
  confined (fun k e => (k, e) ∈ pending w \/ new_entry ev w = Some (k, e))
           (fun x => x ∈ waiters w \/ new_waiter ev w = Some x)
           (fun t tm => timers w !! t = Some tm \/ new_timer ev w = Some (t, tm))
           (fun h c => writes w !! h = Some (Some c) \/ new_write ev w = Some (h, c))
           w'.
Proof.
  intros HS. eapply confined_Step; [|exact HS| |].
  - split; auto.
  - intros id command matcher ms ->. simpl. repeat split; auto.
    intros Hne. right. by destruct (String.eqb_spec command "").
  - intros matcher timeout ->. simpl. auto.
Qed.

(** ** Promises of the entries *)

Lemma elem_of_promises_of m q :
  q ∈ promises_of m <-> exists k e, (k, e) ∈ m /\ PendingCommand.promise e = q.
Proof.
  unfold promises_of. rewrite list_elem_of_fmap. split.
  - intros ([k e] & -> & Hin). by exists k, e.
  - intros (k & e & Hin & <-). by exists (k, e).
Qed.

Lemma NoDup_promises_map_delete k m :
  NoDup (promises_of m) -> NoDup (promises_of (map_delete k m)).
Proof.
  unfold promises_of. induction m as [|[k' v'] m IH]; simpl; intros Hn; [done|].
  apply NoDup_cons in Hn as [Hv Hn].
  destruct (String.eqb k' k); simpl; [done|].
  apply NoDup_cons. split; [|by apply IH].
  intros Hin. apply Hv. apply list_elem_of_fmap in Hin as (x & Hx & Hin).
  apply list_elem_of_fmap. exists x. split; [done|]. by apply elem_of_map_delete in Hin.
Qed.

Lemma NoDup_promises_map_set k v m :
  NoDup (promises_of m) -> PendingCommand.promise v ∉ promises_of m ->
  NoDup (promises_of (map_set k v m)).
Proof.
  unfold promises_of. induction m as [|[k' v'] m IH]; simpl; intros Hn Hv.
  - apply NoDup_singleton.
  - apply NoDup_cons in Hn as [Hv' Hn]. apply not_elem_of_cons in Hv as [Hne Hv].
    destruct (String.eqb k' k); simpl.
    + by apply NoDup_cons.
    + apply NoDup_cons. split; [|by apply IH].
      intros Hin. apply list_elem_of_fmap in Hin as (x & Hx & Hin).
      apply elem_of_map_set in Hin as [->|Hin]; [simpl in Hx; congruence|].
      apply Hv'. apply list_elem_of_fmap. by exists x.
Qed.

Lemma NoDup_promises_inj m k1 e1 k2 e2 :
  NoDup (promises_of m) -> (k1, e1) ∈ m -> (k2, e2) ∈ m ->
  PendingCommand.promise e1 = PendingCommand.promise e2 -> k1 = k2.
Proof.
  unfold promises_of. induction m as [|[k v] m IH]; simpl; intros Hn H1 H2 Heq.
  - by apply elem_of_nil in H1.
  - apply NoDup_cons in Hn as [Hv Hn].
    apply elem_of_cons in H1 as [[= -> ->]|H1]; apply elem_of_cons in H2 as [[= -> ->]|H2].
    + done.
    + exfalso. apply Hv. apply list_elem_of_fmap. exists (k2, e2).
      split; [simpl; congruence | done].
    + exfalso. apply Hv. apply list_elem_of_fmap. exists (k1, e1).
      split; [simpl; congruence | done].
    + by apply IH.
Qed.

(** ** The invariant *)

Record Inv w : Prop := {
  inv_keys : NoDup (keys (pending w));
  inv_promises : NoDup (promises_of (pending w));
  inv_unsettled : forall k e, (k, e) ∈ pending w ->
                              promises w !! PendingCommand.promise e = Some Unsettled;
  inv_below : below (next w) w;
  inv_waiters : forall x k e, x ∈ waiters w -> (k, e) ∈ pending w ->
                              PendingCommand.promise e <> Waiter.promise x;
  inv_timers : forall t tm id p ms c k e,
      timers w !! t = Some tm -> Timer.callback tm = ExecuteTimeout id p ms c ->
      (k, e) ∈ pending w -> PendingCommand.promise e = p -> k = id;
  inv_writes : forall h c k e,
      writes w !! h = Some (Some c) ->
      (k, e) ∈ pending w -> PendingCommand.promise e = ExecuteCatch.reject c ->
      k = ExecuteCatch.id c
}.

Lemma Inv_initial t0 : Inv (initial t0).
Proof.
  split; simpl.
  - constructor.
  - constructor.
  - intros k e Hin. by apply elem_of_nil in Hin.
  - exact (below_initial t0).
  - intros x k e Hin. by apply elem_of_nil in Hin.
  - intros t tm id p ms c k e Hin. by rewrite lookup_empty in Hin.
  - intros h c k e Hin. by rewrite lookup_empty in Hin.
Qed.

Lemma unsettled_settle m q s w :
  (forall k e, (k, e) ∈ m -> promises w !! PendingCommand.promise e = Some Unsettled) ->
  (forall k e, (k, e) ∈ m -> PendingCommand.promise e <> q) ->
  forall k e, (k, e) ∈ m ->
              promises (settle q s w) !! PendingCommand.promise e = Some Unsettled.
Proof.
  intros Hu Hne k e Hin. rewrite lookup_settle, decide_False; [by eapply Hu | by eapply Hne].
Qed.

(** An entry left by [map_delete k] has another key, when keys are distinct. *)
Lemma map_delete_other k m k' e :
  NoDup (keys m) -> (k', e) ∈ map_delete k m -> k' <> k /\ (k', e) ∈ m.
Proof.
  intros Hn Hin. split; [|by eapply elem_of_map_delete].
  intros ->. destruct (NoDup_map_delete k m Hn) as [_ Hk].
  apply Hk. apply list_elem_of_fmap. by exists (k, e).
Qed.

Lemma Inv_unsettled_Step ev w w' :
  Inv w -> Step w ev w' ->
  forall k e, (k, e) ∈ pending w' ->
              promises w' !! PendingCommand.promise e = Some Unsettled.
Proof.
  intros [Hk Hp Hu [HbE HbX HbT HbH] Hwa Hti Hwr] HS.
  destruct HS; unfold resolve, reject; rewrite ?pending_settle; simpl; try done.
  - (* execute *)
    destruct (execute_fields id command matcher timeoutMs w) as (_ & -> & -> & _).
    intros k e Hin. apply elem_of_map_set in Hin as [[= -> ->]|Hin].
    + apply lookup_insert_eq.
    + destruct (HbE _ _ Hin). rewrite lookup_insert_ne by lia. by eapply Hu.
  - (* clear *)
    intros k e Hin. by apply elem_of_nil in Hin.
  - (* waitFor *)
    intros k e Hin. destruct (HbE _ _ Hin). rewrite lookup_insert_ne by lia. by eapply Hu.
  - (* consumed *)
    apply unsettled_settle; simpl.
    + intros k e' Hin. apply elem_of_map_delete in Hin. by eapply Hu.
    + intros k e' Hin Heq. destruct (map_delete_other _ _ _ _ Hk Hin) as [Hne Hin'].
      apply Hne. eapply (NoDup_promises_inj (pending w)); eauto.
      rewrite H0. apply elem_of_app. right. by left.
  - (* indication *)
    apply unsettled_settle; simpl; [exact Hu|].
    intros k e Hin. by eapply Hwa.
  - (* timer of execute *)
    apply unsettled_settle; simpl.
    + intros k e Hin. apply elem_of_map_delete in Hin. by eapply Hu.
    + intros k e Hin Heq. destruct (map_delete_other _ _ _ _ Hk Hin) as [Hne Hin'].
      apply Hne. eapply Hti; eauto.
  - (* timer of a waiter *)
    apply unsettled_settle; simpl; [exact Hu|].
    intros k e Hin. by eapply Hwa.
  - (* write failed *)
    apply unsettled_settle; simpl.
    + intros k e Hin. apply elem_of_map_delete in Hin. by eapply Hu.
    + intros k e Hin Heq. destruct (map_delete_other _ _ _ _ Hk Hin) as [Hne Hin'].
      apply Hne. eapply Hwr; eauto.
Qed.

Lemma Inv_promises_Step ev w w' :
  Inv w -> Step w ev w' -> NoDup (promises_of (pending w')).
Proof.
  intros [Hk Hp Hu [HbE HbX HbT HbH] Hwa Hti Hwr] HS.
  destruct HS; unfold resolve, reject; rewrite ?pending_settle; simpl;
    try done; try (by apply NoDup_promises_map_delete).
  - destruct (execute_fields id command matcher timeoutMs w) as (_ & -> & _).
    apply NoDup_promises_map_set; [done|]. simpl.
    intros Hin. apply elem_of_promises_of in Hin as (k & e & Hin & Heq).
    destruct (HbE _ _ Hin). lia.
  - constructor.
Qed.

(** The fresh components hold fresh handles. *)
Lemma new_entry_promise ev w k e :
  new_entry ev w = Some (k, e) -> PendingCommand.promise e = next w.
Proof. destruct ev; simpl; intros [=]; by subst. Qed.

Lemma new_waiter_promise ev w x :
  new_waiter ev w = Some x -> Waiter.promise x = next w.
Proof. destruct ev; simpl; intros [=]; by subst. Qed.

Lemma Inv_Step ev w w' : Inv w -> Step w ev w' -> Inv w'.
Proof.
  intros HI HS.
  pose proof (Step_origin _ _ _ HS) as [OE OX OT OH].
  pose proof HI as [Hk Hp Hu Hb Hwa Hti Hwr].
  pose proof Hb as [HbE HbX HbT HbH].
  split.
  - by eapply NoDup_keys_Step.
  - by eapply Inv_promises_Step.
  - by eapply Inv_unsettled_Step.
  - by eapply below_Step.
  - intros x k e Hx He.
    destruct (OX _ Hx) as [Hx'|Hx'], (OE _ _ He) as [He'|He'].
    + by eapply Hwa.
    + apply new_entry_promise in He'. destruct (HbX _ Hx'). lia.
    + apply new_waiter_promise in Hx'. destruct (HbE _ _ He'). lia.
    + destruct ev; discriminate.
  - intros t tm id p ms c k e Ht Hcb He Heq.
    destruct (OT _ _ Ht) as [Ht'|Ht'], (OE _ _ He) as [He'|He'].
    + by eapply Hti.
    + apply new_entry_promise in He'. destruct (HbT _ _ Ht') as [_ Hlt].
      rewrite Hcb in Hlt. lia.
    + destruct (HbE _ _ He'). destruct ev; simpl in Ht'; inversion Ht'; subst;
        simpl in Hcb; inversion Hcb; subst; lia.
    + destruct ev; simpl in Ht', He'; try discriminate.
      inversion Ht'; subst. inversion He'; subst. simpl in Hcb. by inversion Hcb.
  - intros h c k e Hh He Heq.
    destruct (OH _ _ Hh) as [Hh'|Hh'], (OE _ _ He) as [He'|He'].
    + by eapply Hwr.
    + apply new_entry_promise in He'. destruct (HbH _ _ Hh') as (_ & ? & _). lia.
    + destruct (HbE _ _ He'). destruct ev; simpl in Hh'; try discriminate.
      destruct (String.eqb command ""); inversion Hh'; subst. simpl in Heq. lia.
    + destruct ev; simpl in Hh', He'; try discriminate.
      destruct (String.eqb command ""); inversion Hh'; subst. by inversion He'.
Qed.

Lemma reachable_Inv fb w : reachable fb w -> Inv w.
Proof.
  intros (t0 & evs & Hr).
  apply (run_invariant fb Inv (fun ev w1 w2 => Inv_Step ev w1 w2) evs (initial t0) w);
    [apply Inv_initial | exact Hr].
Qed.

(** ** [clear] *)

(** C5. In every world the adapter can reach, [clear] empties the pending
    map; the log shows, for each entry in turn, its timer cleared and one
    call of [reject] with "Command queue cleared"; the promises of the
    entries are distinct, each was unsettled and is now rejected with that
    failure, which no timeout failure equals; the timers are disarmed; and
    a command registered afterwards is pending and unsettled. *)
Theorem clear_settles_all fb w :
  reachable fb w ->
  pending (clear w) = []
  /\ NoDup (promises_of (pending w))
  /\ log (clear w)
     = log w ++ (pending w ≫= fun e => [ClearTimeout (PendingCommand.timeout (snd e));
                                        Reject (PendingCommand.promise (snd e)) cleared])
  /\ (forall k e,
        (k, e) ∈ pending w ->
        promises w !! PendingCommand.promise e = Some Unsettled
        /\ promises (clear w) !! PendingCommand.promise e = Some (Rejected cleared)
        /\ timers (clear w) !! PendingCommand.timeout e = None)
  /\ (forall timeoutMs command x, Text.timeout_failure timeoutMs command x -> cleared <> x)
  /\ (forall id command matcher timeoutMs,
        promises (fst (execute id command matcher timeoutMs (clear w)))
          !! snd (execute id command matcher timeoutMs (clear w)) = Some Unsettled
        /\ pending (fst (execute id command matcher timeoutMs (clear w)))
           = [(id, entry_of (snd (execute id command matcher timeoutMs (clear w)))
                            matcher command)]).
Proof.
  intros Hreach. destruct (reachable_Inv fb w Hreach) as [Hk Hp Hu _ _ _ _].
  split; [done|]. split; [exact Hp|].
  split; [unfold clear; simpl; apply reject_all_log|].
  split; [|split].
  - intros k e Hin. split; [by eapply Hu|]. unfold clear. simpl. split.
    + rewrite reject_all_promises, decide_True, (Hu _ _ Hin); [done|].
      apply elem_of_promises_of. by exists k, e.
    + rewrite reject_all_timers, decide_True; [done|].
      unfold timeouts_of. apply list_elem_of_fmap. by exists (k, e).
  - intros timeoutMs command x (text & -> & _). unfold cleared. intros [=].
  - intros id command matcher timeoutMs.
    destruct (execute_fields id command matcher timeoutMs (clear w))
      as (-> & -> & -> & _).
    split; [apply lookup_insert_eq | done].
Qed.

Lemma clear_settles_all_witness :
  let any : CommandMatcher := fun _ => true in
  let w := fst (execute "b" "" any (Int 100)
                        (fst (execute "a" "[TH,GetSwVersion]" any (Int 5000)
                                      (fst (nextSequence (initial 0)))))) in
  pending (clear w) = []
  /\ NoDup (promises_of (pending w))
  /\ log (clear w)
     = log w ++ (pending w ≫= fun e => [ClearTimeout (PendingCommand.timeout (snd e));
                                        Reject (PendingCommand.promise (snd e)) cleared])
  /\ (forall k e,
        (k, e) ∈ pending w ->
        promises w !! PendingCommand.promise e = Some Unsettled
        /\ promises (clear w) !! PendingCommand.promise e = Some (Rejected cleared)
        /\ timers (clear w) !! PendingCommand.timeout e = None)
  /\ (forall timeoutMs command x, Text.timeout_failure timeoutMs command x -> cleared <> x)
  /\ (forall id command matcher timeoutMs,
        promises (fst (execute id command matcher timeoutMs (clear w)))
          !! snd (execute id command matcher timeoutMs (clear w)) = Some Unsettled
        /\ pending (fst (execute id command matcher timeoutMs (clear w)))
           = [(id, entry_of (snd (execute id command matcher timeoutMs (clear w)))
                            matcher command)]).
Proof.
  intros any w.
  apply (clear_settles_all (fun _ => None) w).
  exists 0, [Call_nextSequence; Call_execute "a" "[TH,GetSwVersion]" any (Int 5000);
             Call_execute "b" "" any (Int 100)].
  reflexivity.
Defined.

End Invariant.

(* ===================================================================== *)
(** * sendZclFrameToEndpoint: the waiter of the indication *)
(* ===================================================================== *)

Module ZclFacts.
Import JS Runtime CommandQueue HueBridgeAdapter Spec QueueFacts Dynamics QueueLife.
Local Open Scope list_scope.

Implicit Types (w : World).

(** ** Removing a waiter *)

Lemma find_without ID l : Waitress.find ID (Waitress.without ID l) = None.
Proof.
  unfold Waitress.find, Waitress.without. induction l as [|x l IH]; simpl; [done|].
  destruct (Nat.eqb_spec (Waiter.ID x) ID) as [He|Hne]; simpl; [done|].
  destruct (Nat.eqb_spec (Waiter.ID x) ID); [done | exact IH].
Qed.

Lemma without_absent ID l : Waitress.find ID l = None -> Waitress.without ID l = l.
Proof.
  unfold Waitress.find, Waitress.without. induction l as [|x l IH]; simpl; [done|].
  destruct (Nat.eqb_spec (Waiter.ID x) ID) as [He|Hne]; simpl; [done|].
  intros H. by rewrite IH.
Qed.

Lemma remove_fields ID w :
  pending (Waitress.remove ID w) = pending w
  /\ waiters (Waitress.remove ID w) = Waitress.without ID (waiters w)
  /\ promises (Waitress.remove ID w) = promises w
  /\ writes (Waitress.remove ID w) = writes w
  /\ next (Waitress.remove ID w) = next w
  /\ (forall t tm, timers (Waitress.remove ID w) !! t = Some tm -> timers w !! t = Some tm).
Proof.
  unfold Waitress.remove. destruct (Waitress.find ID (waiters w)) as [x|] eqn:Hf; simpl.
  - repeat split. intros t tm Hin. by apply lookup_delete_Some in Hin as [_ Hin].
  - rewrite (without_absent _ _ Hf). repeat split. done.
Qed.

(** ** What refers to the promise of a waiter *)

(** Only waiters registered under [ID] hold the promise [p]. *)
Definition held_by (ID p : nat) w : Prop :=
  (p < next w)%nat
  /\ confined
       (fun _ e => PendingCommand.promise e <> p)
       (fun x => Waiter.promise x = p -> Waiter.ID x = ID)
       (fun _ tm => forall id ms c, Timer.callback tm <> ExecuteTimeout id p ms c)
       (fun _ c => ExecuteCatch.reject c <> p)
       w.

(** Nothing holds the promise [p]. *)
Definition released (p : nat) w : Prop :=
  (p < next w)%nat
  /\ confined
       (fun _ e => PendingCommand.promise e <> p)
       (fun x => Waiter.promise x <> p)
       (fun _ tm => forall id ms c, Timer.callback tm <> ExecuteTimeout id p ms c)
       (fun _ c => ExecuteCatch.reject c <> p)
       w.

Lemma held_by_Step ID p ev w w' : held_by ID p w -> Step w ev w' -> held_by ID p w'.
Proof.
  intros [Hp Hc] HS. split; [pose proof (Step_next _ _ _ HS); lia|].
  eapply confined_Step; [exact Hc | exact HS | |].
  - intros id command m ms _. split; [|split].
    + simpl. lia.
    + simpl. intros id' ms' c' [= _ Hq _ _]. lia.
    + intros _. simpl. lia.
  - intros m timeout _. split.
    + simpl. intros Hq. lia.
    + simpl. intros id' ms' c' [=].
Qed.

Lemma released_Step p ev w w' :
  released p w -> Step w ev w' ->
  released p w' /\ promises w' !! p = promises w !! p.
Proof.
  intros [Hp Hc] HS. split.
  - split; [pose proof (Step_next _ _ _ HS); lia|].
    eapply confined_Step; [exact Hc | exact HS | |].
    + intros id command m ms _. split; [|split].
      * simpl. lia.
      * simpl. intros id' ms' c' [= _ Hq _ _]. lia.
      * intros _. simpl. lia.
    + intros m timeout _. split.
      * simpl. lia.
      * simpl. intros id' ms' c' [=].
  - destruct Hc as [HE HX HT HH].
    destruct (Step_promise _ _ _ p HS Hp) as [Heq|(_ & s & _ & Hset)]; [done|].
    exfalso.
    destruct Hset as [message parsed k e Hparse Hin Hpe Hm|message x payload Hin Hx
                     |t tm id' ms c Ht Hdue Hcb|t tm x Ht Hdue Hcb Hin Hx
                     |h c message Hh Hc|k e Hin Hpe].
    + by eapply HE.
    + by eapply HX.
    + by eapply HT.
    + by eapply HX.
    + by eapply HH.
    + by eapply HE.
Qed.

Lemma released_run fb p evs w w' :
  released p w -> run fb evs w = Some w' -> promises w' !! p = promises w !! p.
Proof.
  revert w. induction evs as [|ev evs IH]; intros w Hr; simpl.
  - by intros [= <-].
  - destruct (step fb ev w) as [w1|] eqn:Hs; [|done].
    intros Hrun. apply step_inv in Hs. destruct (released_Step _ _ _ _ Hr Hs) as [Hr1 <-].
    by apply IH.
Qed.

Lemma held_by_remove ID p w : held_by ID p w -> released p (Waitress.remove ID w).
Proof.
  intros [Hp [HE HX HT HH]].
  destruct (remove_fields ID w) as (Hpe & Hwa & Hpr & Hwr & Hn & Hti).
  split; [lia|]. split.
  - rewrite Hpe. exact HE.
  - rewrite Hwa. intros x Hin Hx. apply elem_of_without in Hin as [Hin Hne].
    by apply Hne, HX.
  - intros t tm Hin. by eapply HT, Hti.
  - rewrite Hwr. exact HH.
Qed.

Lemma released_remove ID p w : released p w -> released p (Waitress.remove ID w).
Proof.
  intros [Hp [HE HX HT HH]].
  destruct (remove_fields ID w) as (Hpe & Hwa & Hpr & Hwr & Hn & Hti).
  split; [lia|]. split.
  - rewrite Hpe. exact HE.
  - rewrite Hwa. intros x Hin. apply elem_of_without in Hin as [Hin _]. by apply HX.
  - intros t tm Hin. by eapply HT, Hti.
  - rewrite Hwr. exact HH.
Qed.

Lemma held_by_waitFor matcher timeout w :
  below (next w) w ->
  held_by (currentID w) (next w) (fst (Waitress.waitFor matcher timeout w)).
Proof.
  intros [HE HX HT HH].
  destruct (waitFor_fields matcher timeout w)
    as (_ & Hpe & Hwa & _ & Hti & Hwr & Hn & _).
  split; [lia|]. split.
  - rewrite Hpe. intros k e Hin. destruct (HE _ _ Hin). lia.
  - rewrite Hwa. intros x Hin Hx. apply elem_of_app in Hin as [Hin|Hin].
    + destruct (HX _ Hin). lia.
    + by apply list_elem_of_singleton in Hin as ->.
  - rewrite Hti. intros t tm Hin id ms c Hcb.
    apply lookup_insert_Some in Hin as [[<- <-]|[_ Hin]]; [done|].
    destruct (HT _ _ Hin) as [_ Hlt]. rewrite Hcb in Hlt. lia.
  - rewrite Hwr. intros h c Hin. destruct (HH _ _ Hin) as (_ & ? & _). lia.
Qed.

(** ** The start of the call *)

Definition handle_of w : WaiterHandle.t :=
  {| WaiterHandle.promise := next w; WaiterHandle.ID := currentID w |}.

Lemma setup_waiter_expected networkAddress endpoint zclFrame timeout w :
  is_Some (ZclFrame.response zclFrame) \/ ZclFrame.disableDefaultResponse zclFrame = false ->
  exists matcher,
    setup_waiter networkAddress endpoint zclFrame timeout false w
    = (fst (Waitress.waitFor matcher timeout w), Some (handle_of w)).
Proof.
  intros Hexp. unfold setup_waiter, waitFor. simpl.
  destruct (ZclFrame.response zclFrame) as [response|] eqn:Hr.
  - eexists. reflexivity.
  - destruct Hexp as [[? [=]] | ->]. simpl. eexists. reflexivity.
Qed.

(** ** A phase fails *)

Lemma resume_failed id call w h :
  awaits_with h call -> phase_failed call w = true ->
  exists error,
    resume id call w = (Waitress.remove (WaiterHandle.ID h) w, Thrown error)
    \/ resume id call w
       = (Waitress.remove (WaiterHandle.ID h) (Waitress.remove (WaiterHandle.ID h) w),
          Thrown error).
Proof.
  intros Hh Hf. destruct call as [[h'|] timeout ack|[h'|] conf|h'| |]; simpl in Hh; try done;
    subst h'; simpl in Hf |- *.
  - destruct (promises w !! ack) as [[|[msg|]|e]|]; try done.
    + destruct msg; try done; eexists; right; reflexivity.
    + eexists. left. reflexivity.
  - destruct (promises w !! conf) as [[|[msg|]|e]|]; try done.
    + destruct msg; try done.
      destruct (Number_eqb status (Int 0)); [done|]. simpl.
      eexists. right. reflexivity.
    + eexists. left. reflexivity.
  - destruct (promises w !! WaiterHandle.promise h) as [[|v|e]|]; try done.
    eexists. left. reflexivity.
Qed.

(** C4. [sendZclFrameToEndpoint] with [disableResponse] false and a
    response (or the default response) expected: the waiter of the
    indication is registered before the command is written; and when a
    phase fails afterwards (the acknowledgement or the confirmation is
    rejected or times out, the confirmation reports a status other than 0,
    the indication times out), the call throws, the waiter is no longer
    registered, and from then on nothing changes its promise: it is never
    settled with an indication afterwards. *)
Theorem zcl_send_cancels_waiter fb (id ieeeAddr : string) (networkAddress endpoint : Number)
        (zclFrame : ZclFrame.t) (timeout : Number) (disableRecovery : bool)
        (sourceEndpoint profileId : option Number) w :
  reachable fb w ->
  is_Some (ZclFrame.response zclFrame) \/ ZclFrame.disableDefaultResponse zclFrame = false ->
  exists h ack,
    snd (sendZclFrameToEndpoint id ieeeAddr networkAddress endpoint zclFrame timeout false
                                disableRecovery sourceEndpoint profileId w)
    = AwaitAck (Some h) timeout ack
    /\ log (fst (sendZclFrameToEndpoint id ieeeAddr networkAddress endpoint zclFrame timeout
                                         false disableRecovery sourceEndpoint profileId w))
       = log w
           ++ [WaiterRegistered (WaiterHandle.ID h);
               Wrote (COMMANDS.ZCL_REQ_UNICAST networkAddress endpoint (or_64 sourceEndpoint)
                        (ZclFrame.clusterID zclFrame) (toUpperCase (ZclFrame.hex zclFrame))
                      +:+ Constants.MESSAGE_TERMINATOR)]
    /\ forall evs w2 call id',
        run fb evs (fst (sendZclFrameToEndpoint id ieeeAddr networkAddress endpoint zclFrame
                                                timeout false disableRecovery sourceEndpoint
                                                profileId w))
        = Some w2 ->
        awaits_with h call -> phase_failed call w2 = true ->
        exists error,
          snd (resume id' call w2) = Thrown error
          /\ Waitress.find (WaiterHandle.ID h) (waiters (fst (resume id' call w2))) = None
          /\ forall evs' w4,
              run fb evs' (fst (resume id' call w2)) = Some w4 ->
              promises w4 !! WaiterHandle.promise h
              = promises (fst (resume id' call w2)) !! WaiterHandle.promise h.
Proof.
  intros Hreach Hexp.
  pose proof (reachable_below fb w Hreach) as Hbelow.
  destruct (setup_waiter_expected networkAddress endpoint zclFrame timeout w Hexp)
    as [matcher Hsetup].
  unfold sendZclFrameToEndpoint. rewrite Hsetup.
  set (command := COMMANDS.ZCL_REQ_UNICAST networkAddress endpoint (or_64 sourceEndpoint)
                    (ZclFrame.clusterID zclFrame) (toUpperCase (ZclFrame.hex zclFrame))).
  set (wa := fst (Waitress.waitFor matcher timeout w)).
  pose proof (execute_fields id command (type_is T_zclReq) (Int Constants.DEFAULT_TIMEOUT) wa)
    as (_ & _ & _ & _ & _ & _ & Hlog & _).
  change (String.eqb command "") with false in Hlog.
  pose proof (held_by_Step (currentID w) (next w)
                (Call_execute id command (type_is T_zclReq) (Int Constants.DEFAULT_TIMEOUT))
                wa _ (held_by_waitFor matcher timeout w Hbelow) (St_execute wa _ _ _ _))
    as Hheld.
  destruct (execute id command (type_is T_zclReq) (Int Constants.DEFAULT_TIMEOUT) wa)
    as [wb ack] eqn:Hexec.
  simpl in Hlog, Hheld |- *.
  exists (handle_of w), ack. split; [reflexivity|]. split.
  { rewrite Hlog. unfold wa. simpl. by rewrite <- app_assoc. }
  intros evs w2 call id' Hrun Hcall Hfail.
  assert (Hheld2 : held_by (currentID w) (next w) w2).
  { apply (run_invariant fb (held_by (currentID w) (next w))
             (fun ev w1 w2 => held_by_Step (currentID w) (next w) ev w1 w2) evs wb w2);
      [exact Hheld | exact Hrun]. }
  pose proof (held_by_remove _ _ _ Hheld2) as Hrel.
  destruct (resume_failed id' call w2 (handle_of w) Hcall Hfail) as [error [Hres|Hres]];
    rewrite Hres; simpl; exists error; (split; [reflexivity|]); split.
  - destruct (remove_fields (currentID w) w2) as (_ & -> & _). apply find_without.
  - intros evs' w4. by apply released_run.
  - destruct (remove_fields (currentID w) (Waitress.remove (currentID w) w2)) as (_ & -> & _).
    apply find_without.
  - intros evs' w4. apply released_run. by apply released_remove.
Qed.

Lemma zcl_send_cancels_waiter_witness :
  let fb : Buffer.t -> option ZclHeader.t := fun _ => None in
  let zclFrame := {| ZclFrame.hex := "100001"; ZclFrame.clusterID := Int 6;
                     ZclFrame.response := Some (Int 1);
                     ZclFrame.transactionSequenceNumber := Int 0;
                     ZclFrame.disableDefaultResponse := true |} in
  let r := sendZclFrameToEndpoint "k" "0x00178801052d0ab1" (Int 3) (Int 1) zclFrame (Int 10000)
                                  false false None None (fst (nextSequence (initial 0))) in
  exists h ack,
    snd r = AwaitAck (Some h) (Int 10000) ack
    /\ log (fst r)
       = [] ++ [WaiterRegistered (WaiterHandle.ID h);
                Wrote (COMMANDS.ZCL_REQ_UNICAST (Int 3) (Int 1) (or_64 None) (Int 6)
                         (toUpperCase "100001")
                       +:+ Constants.MESSAGE_TERMINATOR)]
    /\ forall evs w2 call id',
        run fb evs (fst r) = Some w2 ->
        awaits_with h call -> phase_failed call w2 = true ->
        exists error,
          snd (resume id' call w2) = Thrown error
          /\ Waitress.find (WaiterHandle.ID h) (waiters (fst (resume id' call w2))) = None
          /\ forall evs' w4,
              run fb evs' (fst (resume id' call w2)) = Some w4 ->
              promises w4 !! WaiterHandle.promise h
              = promises (fst (resume id' call w2)) !! WaiterHandle.promise h.
Proof.
  intros fb zclFrame.
  apply (zcl_send_cancels_waiter fb "k" "0x00178801052d0ab1" (Int 3) (Int 1) zclFrame
           (Int 10000) false None None (fst (nextSequence (initial 0)))).
  - exists 0, [Call_nextSequence]. reflexivity.
  - left. simpl. by eexists.
Defined.

End ZclFacts.

(* ===================================================================== *)
(** * Strings, numbers and their texts *)
(* ===================================================================== *)

Module TextFacts.
Import JS RegExp Text.
Local Open Scope list_scope.

Implicit Types (s t u : string) (c : ascii) (P : ascii -> bool).

(** ** Concatenation *)

Lemma string_app_cons c s t : String c s +:+ t = String c (s +:+ t).
Proof. reflexivity. Qed.

Lemma string_app_nil_l s : "" +:+ s = s.
Proof. reflexivity. Qed.

Lemma string_app_nil_r s : s +:+ "" = s.
Proof. induction s as [|c s IH]; [done|]. by rewrite string_app_cons, IH. Qed.

Lemma string_app_assoc s t u : (s +:+ t) +:+ u = s +:+ (t +:+ u).
Proof. induction s as [|c s IH]; [done|]. by rewrite !string_app_cons, IH. Qed.

Lemma string_length_app s t : String.length (s +:+ t) = (String.length s + String.length t)%nat.
Proof. induction s as [|c s IH]; [done|]. rewrite string_app_cons. simpl. by rewrite IH. Qed.

Lemma prefix_app s t : String.prefix s (s +:+ t) = true.
Proof.
  induction s as [|c s IH]; [by destruct t|].
  rewrite string_app_cons. simpl. destruct (ascii_dec c c); [done|congruence].
Qed.

Lemma prefix_app_r p s t : String.prefix p s = true -> String.prefix p (s +:+ t) = true.
Proof.
  revert s; induction p as [|c p IH]; intros s; [by destruct (s +:+ t)|].
  destruct s as [|d s]; [done|]. rewrite string_app_cons. simpl.
  destruct (ascii_dec c d); [apply IH|done].
Qed.

Lemma all_chr_app P s t : all_chr P (s +:+ t) = all_chr P s && all_chr P t.
Proof.
  induction s as [|c s IH]; [done|]. rewrite string_app_cons. simpl.
  by rewrite IH, andb_assoc.
Qed.

Lemma all_chr_impl P (Q : ascii -> bool) s :
  (forall c, P c = true -> Q c = true) -> all_chr P s = true -> all_chr Q s = true.
Proof.
  intros HPQ. induction s as [|c s IH]; simpl; [done|].
  intros [Hc Hs]%andb_true_iff. by rewrite (HPQ c Hc), IH.
Qed.

Lemma string_drop_app s t : drop (String.length s) (s +:+ t) = t.
Proof. induction s as [|c s IH]; [by destruct t|]. by rewrite string_app_cons. Qed.

Lemma substring_app s t : String.substring 0 (String.length s) (s +:+ t) = s.
Proof.
  induction s as [|c s IH]; [by destruct t|]. rewrite string_app_cons. simpl. by rewrite IH.
Qed.

(** ** [slice(1, -1)] takes the brackets off *)

Lemma slice_line body c d :
  slice (String c (body +:+ String d "")) 1 (-1) = body.
Proof.
  unfold slice.
  assert (Hn : len (String c (body +:+ String d "")) = Z.of_nat (String.length body) + 2).
  { unfold len. simpl String.length. rewrite string_length_app. simpl. lia. }
  rewrite Hn. unfold rel_index.
  change (1 <? 0) with false. change (-1 <? 0) with true. cbv iota.
  rewrite Z.min_l by lia. rewrite (Z.max_l (_ + _ + -1)) by lia.
  replace (Z.to_nat (Z.max (Z.of_nat (String.length body) + 2 + -1 - 1) 0))
    with (String.length body) by lia.
  change (Z.to_nat 1) with 1%nat. simpl. apply substring_app.
Qed.

(** ** [split] *)

Lemma split_nonempty sep s : split sep s <> [].
Proof.
  induction s as [|c s IH]; simpl; [done|].
  destruct (Ascii.eqb c sep); [done|]. by destruct (split sep s).
Qed.

Lemma split_field sep s :
  all_chr (fun c => negb (Ascii.eqb c sep)) s = true -> split sep s = [s].
Proof.
  induction s as [|c s IH]; simpl; [done|].
  intros [Hc Hs]%andb_true_iff. apply negb_true_iff in Hc. rewrite Hc.
  by rewrite (IH Hs).
Qed.

Lemma split_cons sep s t :
  all_chr (fun c => negb (Ascii.eqb c sep)) s = true ->
  split sep (s +:+ String sep t) = s :: split sep t.
Proof.
  induction s as [|c s IH].
  - intros _. rewrite string_app_nil_l. simpl. by rewrite Ascii.eqb_refl.
  - rewrite string_app_cons. simpl. intros [Hc Hs]%andb_true_iff.
    apply negb_true_iff in Hc. rewrite Hc. by rewrite (IH Hs).
Qed.

(** The fields of a line are read back by [split]. *)
Lemma split_join (fields : list string) :
  Forall (fun f => all_chr not_comma f = true) fields -> fields <> [] ->
  split "," (COMMANDS.join "," fields) = fields.
Proof.
  induction fields as [|f fields IH]; [done|].
  intros Hall _. apply Forall_cons in Hall as [Hf Hall].
  destruct fields as [|g fields].
  - simpl. by apply split_field.
  - change (COMMANDS.join "," (f :: g :: fields))
      with (f +:+ "," +:+ COMMANDS.join "," (g :: fields)).
    change ("," +:+ COMMANDS.join "," (g :: fields))
      with (String "," (COMMANDS.join "," (g :: fields))).
    rewrite split_cons by done. by rewrite IH.
Qed.

(** ** Digits *)

Lemma digit_value_chr (d : Z) : 0 <= d < 36 -> digit_value (digit_chr d) = Some d.
Proof.
  intros [H0 H36]. rewrite <- (Z2Nat.id d) by lia.
  assert (Hn : (Z.to_nat d < 36)%nat) by lia.
  revert Hn. generalize (Z.to_nat d). clear. intros n Hn.
  do 36 (destruct n as [|n]; [reflexivity|]). lia.
Qed.

Lemma digit_chr_class (d : Z) :
  0 <= d < 16 -> is_hex_lower (digit_chr d) = true /\ (d < 10 -> is_digit (digit_chr d) = true).
Proof.
  intros [H0 H16]. rewrite <- (Z2Nat.id d) by lia.
  assert (Hn : (Z.to_nat d < 16)%nat) by lia.
  revert Hn. generalize (Z.to_nat d). clear. intros n Hn.
  do 16 (destruct n as [|n]; [split; [reflexivity|]; intros ?; first [reflexivity|lia]|]).
  lia.
Qed.

(** The digits of [n] in radix [R], for a fuel that covers [n]. *)
Lemma radix_digits_class (R : Z) (P : ascii -> bool) :
  2 <= R -> (forall d, 0 <= d < R -> P (digit_chr d) = true) ->
  forall fuel n, 0 <= n -> all_chr P (radix_digits fuel R n) = true.
Proof.
  intros HR HP fuel. induction fuel as [|fuel IH]; intros n Hn; simpl.
  - rewrite HP; [done|]. apply Z.mod_pos_bound. lia.
  - destruct (Z.ltb_spec n R).
    + simpl. rewrite HP; [done|lia].
    + rewrite all_chr_app. rewrite IH by (apply Z.div_pos; lia). simpl.
      rewrite HP; [done|]. apply Z.mod_pos_bound. lia.
Qed.

Lemma radix_digits_nonempty fuel R n : radix_digits fuel R n <> "".
Proof.
  destruct fuel as [|fuel]; simpl; [done|].
  destruct (n <? R); [done|]. by destruct (radix_digits fuel R (n / R)).
Qed.

Definition val (acc : option Z) : Z :=
  match acc with
  | Some a => a
  | None => 0
  end.

(** Reading back the digits that were written. *)
Lemma read_radix_digits (R : Z) :
  2 <= R <= 36 ->
  forall fuel n s acc,
  0 <= n < 2 ^ (Z.of_nat fuel + 1) ->
  read_digits R (radix_digits fuel R n +:+ s) acc
  = read_digits R s (Some (val acc * R ^ len (radix_digits fuel R n) + n)).
Proof.
  intros HR fuel. induction fuel as [|fuel IH]; intros n s acc Hn.
  - assert (n < R) by (change (2 ^ (Z.of_nat 0 + 1)) with 2 in Hn; lia).
    simpl radix_digits. rewrite Z.mod_small by lia.
    rewrite string_app_cons, string_app_nil_l. simpl read_digits.
    rewrite digit_value_chr by lia.
    replace (n <? R) with true by (symmetry; apply Z.ltb_lt; lia).
    f_equal. f_equal. unfold len. simpl. destruct acc; simpl; lia.
  - simpl radix_digits. destruct (Z.ltb_spec n R) as [Hlt|Hge].
    + rewrite string_app_cons, string_app_nil_l. simpl read_digits.
      rewrite digit_value_chr by lia.
      replace (n <? R) with true by (symmetry; apply Z.ltb_lt; lia).
      f_equal. f_equal. unfold len. simpl. destruct acc; simpl; lia.
    + rewrite string_app_assoc, string_app_cons, string_app_nil_l.
      assert (Hq : 0 <= n / R < 2 ^ (Z.of_nat fuel + 1)).
      { split; [apply Z.div_pos; lia|].
        apply Z.div_lt_upper_bound; [lia|].
        replace (Z.of_nat (S fuel) + 1) with (Z.of_nat fuel + 1 + 1) in Hn by lia.
        rewrite Z.pow_add_r in Hn by lia. change (2 ^ 1) with 2 in Hn.
        assert (0 < 2 ^ (Z.of_nat fuel + 1)) by (apply Z.pow_pos_nonneg; lia).
        nia. }
      rewrite IH by done. simpl read_digits.
      assert (Hm : 0 <= n mod R < R) by (apply Z.mod_pos_bound; lia).
      rewrite digit_value_chr by lia.
      replace (n mod R <? R) with true by (symmetry; apply Z.ltb_lt; lia).
      f_equal. f_equal. unfold len. rewrite string_length_app. simpl String.length.
      rewrite Nat2Z.inj_add. change (Z.of_nat 1) with 1.
      rewrite Z.pow_add_r by lia. rewrite Z.pow_1_r.
      pose proof (Z.div_mod n R ltac:(lia)). simpl val. nia.
Qed.

Lemma log2_fuel (n : Z) : 0 <= n -> 0 <= n < 2 ^ (Z.of_nat (Z.to_nat (Z.log2 n)) + 1).
Proof.
  intros Hn. split; [done|]. rewrite Z2Nat.id by apply Z.log2_nonneg.
  destruct (Z.eq_dec n 0) as [->|]; [done|].
  replace (Z.log2 n + 1) with (Z.succ (Z.log2 n)) by lia.
  apply Z.log2_spec. lia.
Qed.

(** ** [parseInt] reads back what [toString] writes *)

Ltac by_code_unit c :=
  destruct c as [[] [] [] [] [] [] [] []]; vm_compute; intros;
  first [reflexivity | discriminate | tauto].

Lemma hex_lower_plain c :
  is_hex_lower c = true ->
  is_space c = false /\ (forall r, strip_sign (String c r) = (1, String c r))
  /\ Ascii.eqb c "x" = false /\ Ascii.eqb c "X" = false.
Proof.
  intros H. repeat split; try intros r; revert H; by_code_unit c.
Qed.

Lemma digit_hex_lower c : is_digit c = true -> is_hex_lower c = true.
Proof. unfold is_hex_lower. by intros ->. Qed.

Lemma prefix_cons c d p s :
  String.prefix (String c p) (String d s) = if ascii_dec c d then String.prefix p s else false.
Proof. reflexivity. Qed.

Lemma hex_lower_no_prefix s : all_chr is_hex_lower s = true -> has_hex_prefix s = false.
Proof.
  destruct s as [|c [|c' r]]; [done| |].
  - intros _. unfold has_hex_prefix. rewrite !prefix_cons.
    by destruct (ascii_dec "0" c).
  - simpl. intros [_ [Hc' _]%andb_true_iff]%andb_true_iff.
    destruct (hex_lower_plain c' Hc') as (_ & _ & Hx & HX).
    unfold has_hex_prefix. rewrite !prefix_cons.
    destruct (ascii_dec "0" c); [|done].
    destruct (ascii_dec "x" c') as [<-|]; [done|].
    destruct (ascii_dec "X" c') as [<-|]; [done|]. done.
Qed.

Lemma read_zeros (R : Z) (k : nat) s :
  2 <= R ->
  read_digits R (repeat_chr k "0" +:+ s) None
  = read_digits R s (if k is O then None else Some 0).
Proof.
  intros HR.
  assert (Hstep : forall r acc,
             read_digits R (String "0" r) acc = read_digits R r (Some (val acc * R))).
  { intros r acc. cbn [read_digits]. change (digit_value "0") with (Some 0).
    cbv beta iota. replace (0 <? R) with true by (symmetry; apply Z.ltb_lt; lia).
    f_equal. f_equal. destruct acc; unfold val; lia. }
  destruct k as [|k]; [reflexivity|].
  change (repeat_chr (S k) "0") with (String "0" (repeat_chr k "0")).
  rewrite string_app_cons, Hstep. simpl val. rewrite Z.mul_0_l.
  induction k as [|k IH]; [reflexivity|].
  change (repeat_chr (S k) "0") with (String "0" (repeat_chr k "0")).
  rewrite string_app_cons, Hstep. simpl val. rewrite Z.mul_0_l. apply IH.
Qed.

(** The digits of a number that is not negative, read in their radix. *)
Lemma read_digits_written (R : Z) (k : nat) (n : Z) :
  2 <= R <= 36 -> 0 <= n ->
  read_digits R (padStart k "0" (radix_digits (Z.to_nat (Z.log2 n)) R n)) None = Some n.
Proof.
  intros HR Hn. unfold padStart. rewrite read_zeros by lia.
  rewrite <- (string_app_nil_r (radix_digits _ _ _)).
  rewrite read_radix_digits by (done || by apply log2_fuel).
  simpl read_digits. f_equal. by destruct (_ - _)%nat.
Qed.

Lemma padStart_class P (k : nat) c s :
  P c = true -> all_chr P s = true -> all_chr P (padStart k c s) = true.
Proof.
  intros Hc Hs. unfold padStart. rewrite all_chr_app, Hs, andb_true_r.
  induction (k - String.length s)%nat as [|n IH]; simpl; [done|]. by rewrite Hc.
Qed.

Lemma padStart_nonempty (k : nat) c s : s <> "" -> padStart k c s <> "".
Proof.
  intros Hs. unfold padStart. destruct (k - String.length s)%nat; [done|done].
Qed.

Lemma hex_digits_class (n : Z) :
  0 <= n -> all_chr is_hex_lower (radix_digits (Z.to_nat (Z.log2 n)) 16 n) = true.
Proof.
  intros Hn. apply radix_digits_class; [lia| |done].
  intros d Hd. by apply digit_chr_class.
Qed.

Lemma dec_digits_class (n : Z) :
  0 <= n -> all_chr is_digit (radix_digits (Z.to_nat (Z.log2 n)) 10 n) = true.
Proof.
  intros Hn. apply radix_digits_class; [lia| |done].
  intros d Hd. apply digit_chr_class; lia.
Qed.

(** [parseInt(n.toString(R).padStart(k, '0'), 16)] for the hexadecimal
    text of a number that is not negative. *)
Lemma parseInt_hex (k : nat) (n : Z) :
  0 <= n -> parseInt (Some (padStart k "0" (toString 16 (Int n)))) 16 = Int n.
Proof.
  intros Hn. unfold toString, int_toString.
  replace (n <? 0) with false by (symmetry; apply Z.ltb_ge; lia).
  set (digits := radix_digits _ 16 n).
  assert (Hcls : all_chr is_hex_lower (padStart k "0" digits) = true).
  { apply padStart_class; [done|by apply hex_digits_class]. }
  assert (Hne : padStart k "0" digits <> "").
  { apply padStart_nonempty, radix_digits_nonempty. }
  unfold parseInt.
  destruct (padStart k "0" digits) as [|c r] eqn:Hp; [done|].
  pose proof Hcls as Hcls'. simpl in Hcls'. apply andb_true_iff in Hcls' as [Hc _].
  destruct (hex_lower_plain c Hc) as (Hsp & Hsign & _).
  simpl trimStart. rewrite Hsp, Hsign.
  change ((16 =? 0) || (2 <=? 16) && (16 <=? 36)) with true. cbv iota.
  change ((16 =? 0) || (16 =? 16)) with true.
  rewrite (hex_lower_no_prefix _ Hcls). simpl andb. cbv iota.
  change (if 16 =? 0 then 10 else 16) with 16.
  rewrite <- Hp. subst digits. rewrite read_digits_written by lia.
  f_equal. lia.
Qed.

(** [parseInt(`${z}`)]. *)
Lemma parseInt_dec (z : Z) : parseInt (Some (dec z)) 0 = Int z.
Proof.
  unfold dec, toString, int_toString.
  assert (Hpos : forall n, 0 <= n ->
            parseInt (Some (radix_digits (Z.to_nat (Z.log2 n)) 10 n)) 0 = Int n
            /\ exists c r, radix_digits (Z.to_nat (Z.log2 n)) 10 n = String c r
                           /\ is_digit c = true).
  { intros n Hn. set (digits := radix_digits _ 10 n).
    assert (Hcls : all_chr is_digit digits = true) by by apply dec_digits_class.
    assert (Hne : digits <> "") by apply radix_digits_nonempty.
    destruct digits as [|c r] eqn:Hp; [done|].
    pose proof Hcls as Hcls'. simpl in Hcls'. apply andb_true_iff in Hcls' as [Hc _].
    split; [|by exists c, r].
    destruct (hex_lower_plain c (digit_hex_lower c Hc)) as (Hsp & Hsign & _).
    unfold parseInt. simpl trimStart. rewrite Hsp, Hsign.
    change ((0 =? 0) || (2 <=? 0) && (0 <=? 36)) with true. cbv iota.
    change ((0 =? 0) || (0 =? 16)) with true.
    rewrite (hex_lower_no_prefix (String c r))
      by (eapply all_chr_impl; [apply digit_hex_lower|done]).
    simpl andb. cbv iota. change (if 0 =? 0 then 10 else 0) with 10.
    rewrite <- Hp. subst digits.
    pose proof (read_digits_written 10 0 n ltac:(lia) Hn) as Hr.
    unfold padStart in Hr. simpl repeat_chr in Hr. rewrite string_app_nil_l in Hr.
    rewrite Hr. f_equal. lia. }
  destruct (Z.ltb_spec z 0) as [Hneg|Hnn].
  - destruct (Hpos (- z) ltac:(lia)) as [Hparse (c & r & Hd & Hc)].
    revert Hparse. unfold parseInt. rewrite string_app_cons, string_app_nil_l.
    change (trimStart (String "-" ?s)) with (String "-" s).
    simpl strip_sign. rewrite Hd.
    destruct (hex_lower_plain c (digit_hex_lower c Hc)) as (Hsp & Hsign & _).
    simpl trimStart. rewrite Hsp, Hsign.
    destruct ((0 =? 0) || (2 <=? 0) && (0 <=? 36)); [|done].
    destruct (((0 =? 0) || (0 =? 16)) && has_hex_prefix (String c r));
      destruct (read_digits _ _ None); intros [= H]; f_equal; lia.
  - by apply Hpos.
Qed.

(** ** The regular expressions on well-formed text *)

Lemma chr_matches_refl ic c : chr_matches ic c c = true.
Proof. unfold chr_matches. apply Ascii.eqb_refl. Qed.

Lemma match_here_lit ic p r c s :
  match_here ic (Lit p :: r) (String c s)
  = if chr_matches ic p c
    then match match_here ic r s with
         | Some (w, caps) => Some (String c w, caps)
         | None => None
         end
    else None.
Proof. reflexivity. Qed.

(** Literal characters match themselves. *)
Lemma match_here_lits ic l r s :
  match_here ic (lits l ++ r) (l +:+ s)
  = match match_here ic r s with
    | Some (w, caps) => Some (l +:+ w, caps)
    | None => None
    end.
Proof.
  induction l as [|c l IH].
  - simpl lits. rewrite string_app_nil_l. simpl app. by destruct (match_here ic r s) as [[w caps]|].
  - simpl lits. rewrite string_app_cons. change ((Lit c :: lits l) ++ r) with (Lit c :: (lits l ++ r)).
    rewrite match_here_lit, chr_matches_refl, IH.
    by destruct (match_here ic r s) as [[w caps]|].
Qed.

(** A run of characters of the class, ended by one that is not: the
    greedy group takes the whole run when the rest then matches. *)
Lemma plus_greedy_longest {R} (ok : ascii -> bool) (k : string -> string -> option R)
      taken d s res :
  d <> "" -> all_chr ok d = true -> stops ok s = true ->
  k (taken +:+ d) s = Some res ->
  plus_greedy ok k taken (d +:+ s) = Some res.
Proof.
  revert taken. induction d as [|c d IH]; intros taken Hne Hall Hstop Hk; [done|].
  simpl in Hall. apply andb_true_iff in Hall as [Hc Hd].
  rewrite string_app_cons. cbn [plus_greedy]. rewrite Hc.
  destruct d as [|c' d'].
  - rewrite string_app_nil_l. rewrite Hk.
    destruct s as [|c0 s0]; [done|]. cbn [plus_greedy].
    simpl in Hstop. apply negb_true_iff in Hstop. by rewrite Hstop.
  - rewrite (IH (taken +:+ String c "")); [done|done|done|done|].
    by rewrite string_app_assoc.
Qed.

Lemma match_here_group ic cls r d s w caps :
  d <> "" -> all_chr (in_class ic cls) d = true -> stops (in_class ic cls) s = true ->
  match_here ic r s = Some (w, caps) ->
  match_here ic (Group cls :: r) (d +:+ s) = Some (d +:+ w, d :: caps).
Proof.
  intros Hne Hall Hstop Hrest. cbn [match_here].
  apply plus_greedy_longest; [done|done|done|].
  rewrite string_app_nil_l. by rewrite Hrest.
Qed.

Lemma search_here ic r s m : match_here ic r s = Some m -> search ic r s = Some m.
Proof. intros H. destruct s; simpl; by rewrite H. Qed.

(** The search passes over the characters that cannot begin a match. *)
Lemma search_skip ic p r pre s :
  all_chr (fun c => negb (chr_matches ic p c)) pre = true ->
  search ic (Lit p :: r) (pre +:+ s) = search ic (Lit p :: r) s.
Proof.
  induction pre as [|c pre IH]; [done|].
  cbn [all_chr]. intros [Hc Hpre]%andb_true_iff. apply negb_true_iff in Hc.
  rewrite string_app_cons. cbn [search]. rewrite match_here_lit, Hc. by apply IH.
Qed.

(** ** Membership in the classes of the parser *)

Lemma hex_in_class c : is_hex c = true -> in_class true MessageParser.hex_digit c = true.
Proof. by_code_unit c. Qed.

Lemma hex_or_colon_in_class c :
  is_hex c = true \/ c = ":"%char ->
  in_class true MessageParser.hex_digit_or_colon c = true.
Proof.
  intros [H| ->]; [|reflexivity]. revert H. by_code_unit c.
Qed.

Lemma digit_in_class ic c : in_class ic Digits c = is_digit c.
Proof. reflexivity. Qed.

(** ** Lines and their fields *)

Lemma digit_not_comma c : is_digit c = true -> not_comma c = true.
Proof. by_code_unit c. Qed.


Lemma hex_lower_is_hex c : is_hex_lower c = true -> is_hex c = true.
Proof. unfold is_hex. by intros ->. Qed.

Lemma dec_not_comma (z : Z) : all_chr not_comma (dec z) = true.
Proof.
  unfold dec, toString, int_toString. destruct (z <? 0) eqn:Hz.
  - rewrite string_app_cons, string_app_nil_l. cbn [all_chr]. apply andb_true_iff. split; [done|].
    eapply all_chr_impl; [apply digit_not_comma|]. apply dec_digits_class.
    apply Z.ltb_lt in Hz. lia.
  - eapply all_chr_impl; [apply digit_not_comma|]. apply dec_digits_class.
    by apply Z.ltb_ge in Hz.
Qed.

Lemma hex4_class (a : Z) : 0 <= a -> all_chr is_hex_lower (COMMANDS.hex4 (Int a)) = true.
Proof.
  intros Ha. unfold COMMANDS.hex4, toString, int_toString.
  replace (a <? 0) with false by (symmetry; apply Z.ltb_ge; lia).
  apply padStart_class; [done|by apply hex_digits_class].
Qed.

Lemma hex4_nonempty (n : Number) : COMMANDS.hex4 n <> "".
Proof.
  unfold COMMANDS.hex4. apply padStart_nonempty.
  destruct n as [|z]; [done|]. unfold toString, int_toString.
  destruct (z <? 0); [done|apply radix_digits_nonempty].
Qed.

(** The fields of a line, as [parse] cuts them. *)
Lemma parts_of_line (fields : list string) :
  Forall (fun f => all_chr not_comma f = true) fields -> fields <> [] ->
  MessageParser.parts_of (line fields) = fields.
Proof.
  intros Hall Hne. unfold MessageParser.parts_of, line.
  rewrite string_app_cons, string_app_nil_l, slice_line. by apply split_join.
Qed.

Lemma search_lits ic p l r pre s m :
  all_chr (fun c => negb (chr_matches ic p c)) pre = true ->
  match_here ic (lits (String p l) ++ r) s = Some m ->
  search ic (lits (String p l) ++ r) (pre +:+ s) = Some m.
Proof.
  intros Hpre Hm. change (lits (String p l) ++ r) with (Lit p :: (lits l ++ r)) in *.
  rewrite search_skip by done. by apply search_here.
Qed.

Lemma match_lits_then ic l r s w caps :
  match_here ic r s = Some (w, caps) ->
  match_here ic (lits l ++ r) (l +:+ s) = Some (l +:+ w, caps).
Proof. intros H. by rewrite match_here_lits, H. Qed.

Lemma match_found s re w caps :
  search (ignoreCase re) (atoms re) s = Some (w, caps) -> match_ s re = Some (w :: caps).
Proof. unfold match_. by intros ->. Qed.

Lemma hex_or_colon_class c :
  is_hex_or_colon c = true -> in_class true MessageParser.hex_digit_or_colon c = true.
Proof.
  unfold is_hex_or_colon. intros [H|H]%orb_true_iff; apply hex_or_colon_in_class; [by left|].
  right. by apply Ascii.eqb_eq in H.
Qed.

End TextFacts.

(* ===================================================================== *)
(** * The parser, block by block *)
(* ===================================================================== *)

Module ParserMore.
Import JS RegExp Constants MessageParser Text TextFacts ParserFacts.
Local Open Scope list_scope.

(** The loop over the neighbour table never reads past the array. *)
Lemma neighbors_ok parts n offset acc :
  exists l, neighbors parts n offset acc = Ok l.
Proof.
  revert offset acc. induction n as [|n IH]; intros offset acc; simpl; [by eexists|].
  destruct (Nat.leb_spec (offset + 8) (List.length parts)) as [Hle|Hgt]; [|apply IH].
  destruct (at_ parts (offset + 1)) as [p1|] eqn:Hp1.
  - simpl. apply IH.
  - apply nth_error_None in Hp1. lia.
Qed.

(** What one block returns, when it returns: a value of its variant, for a
    line with its prefix. *)
Definition typed (b : Block) (t : MessageType) : Prop :=
  forall message r,
  b message = Some (Ok r) ->
  type_of r = t /\ option_map (startsWith message) (prefix_of t) = Some true.

Ltac typed_block :=
  intros message r; unfold typed;
  match goal with
  | |- ?b message = _ -> _ => unfold b
  end;
  let Hp := fresh "Hp" in
  match goal with
  | |- context [startsWith message ?p] =>
    destruct (startsWith message p) eqn:Hp; [|done]
  end;
  simpl; try rewrite Hp;
  repeat match goal with
         | |- context [match_ ?s ?re] => destruct (match_ s re); simpl
         | |- context [defined ?w ?o] => destruct o; simpl
         end;
  try done; intros [= <-]; done.

Lemma typed_ready : typed block_ready T_ready.
Proof. typed_block. Qed.
Lemma typed_version : typed block_version T_version.
Proof. typed_block. Qed.
Lemma typed_address : typed block_address T_address.
Proof. typed_block. Qed.
Lemma typed_deviceAnnounce : typed block_deviceAnnounce T_deviceAnnounce.
Proof. typed_block. Qed.
Lemma typed_nodeDescRsp : typed block_nodeDescRsp T_nodeDescRsp.
Proof. typed_block. Qed.
Lemma typed_activeEpRsp : typed block_activeEpRsp T_activeEpRsp.
Proof. typed_block. Qed.
Lemma typed_activeEpReq : typed block_activeEpReq T_activeEpReq.
Proof. typed_block. Qed.
Lemma typed_simpleDescRsp : typed block_simpleDescRsp T_simpleDescRsp.
Proof. typed_block. Qed.
Lemma typed_zclInd : typed block_zclInd T_zclInd.
Proof. typed_block. Qed.
Lemma typed_zclConf : typed block_zclConf T_zclConf.
Proof. typed_block. Qed.
Lemma typed_zclReq : typed block_zclReq T_zclReq.
Proof. typed_block. Qed.
Lemma typed_joinPermitted : typed block_joinPermitted T_joinPermitted.
Proof. typed_block. Qed.
Lemma typed_networkSettings : typed block_networkSettings T_networkSettings.
Proof. typed_block. Qed.
Lemma typed_linkTouchlink : typed block_linkTouchlink T_linkTouchlink.
Proof. typed_block. Qed.

Lemma typed_mgmtLqiRsp : typed block_mgmtLqiRsp T_mgmtLqiRsp.
Proof.
  intros message r. unfold block_mgmtLqiRsp.
  destruct (startsWith message MESSAGE_PREFIXES.ZDP_MGMT_LQI_RSP) eqn:Hp; [|done].
  cbv zeta. intros H. split; [|simpl; by rewrite Hp]. revert H.
  destruct (at_ (parts_of message) 3); [|done]. cbn [defined bind].
  destruct (neighbors_for _ _); [|done|done]. by intros [= <-].
Qed.

Lemma typed_zdpIeeeAddrRsp : typed block_zdpIeeeAddrRsp T_zdpIeeeAddrRsp.
Proof.
  intros message r. unfold block_zdpIeeeAddrRsp.
  destruct (startsWith message MESSAGE_PREFIXES.ZDP_IEEE_ADDR_RSP) eqn:Hp; [|done].
  cbv zeta. intros H. split; [|simpl; by rewrite Hp]. revert H.
  destruct (at_ (parts_of message) 3) as [p3|]; [|done]. cbn [defined bind].
  destruct (match_ p3 re_addr); [|done]. cbn [non_null bind].
  destruct (at_ (parts_of message) 5); [|done]. cbn [defined bind].
  destruct (at_ (parts_of message) 6) as [p6|]; [|done]. cbn [defined bind].
  destruct (match_ p6 re_addr); [|done]. by intros [= <-].
Qed.

Lemma typed_blocks :
  Forall2 typed blocks
    [T_ready; T_version; T_address; T_deviceAnnounce; T_nodeDescRsp; T_activeEpRsp;
     T_activeEpReq; T_simpleDescRsp; T_zclInd; T_zclConf; T_zclReq; T_joinPermitted;
     T_networkSettings; T_mgmtLqiRsp; T_linkTouchlink; T_zdpIeeeAddrRsp].
Proof.
  unfold blocks.
  repeat (apply Forall2_cons; split); [..|apply Forall2_nil];
  auto using typed_ready, typed_version, typed_address, typed_deviceAnnounce,
    typed_nodeDescRsp, typed_activeEpRsp, typed_activeEpReq, typed_simpleDescRsp,
    typed_zclInd, typed_zclConf, typed_zclReq, typed_joinPermitted,
    typed_networkSettings, typed_mgmtLqiRsp, typed_linkTouchlink, typed_zdpIeeeAddrRsp.
Qed.

Lemma run_typed bs ts message r :
  Forall2 typed bs ts -> run bs message = Some (Ok r) ->
  option_map (startsWith message) (prefix_of (type_of r)) = Some true.
Proof.
  induction 1 as [|b t bs ts Hb _ IH]; simpl; [done|].
  destruct (b message) as [res|] eqn:Hres; [|done].
  intros [= ->]. by destruct (Hb _ _ Hres) as [-> ?].
Qed.

(** X2. The variant [parse] returns tells how the line begins: each
    variant but [unknown] is returned only for a line with the prefix of its
    block, and [unknown] carries the line itself. *)
Theorem parse_type_tells_prefix (message : string) (r : ParsedMessage) :
  parse message = Ok r ->
  match prefix_of (type_of r) with
  | Some p => startsWith message p = true
  | None => r = unknown message
  end.
Proof.
  unfold parse. destruct (run blocks message) as [res|] eqn:Hrun.
  - intros ->. pose proof (run_typed _ _ _ _ typed_blocks Hrun) as H.
    destruct (prefix_of (type_of r)); simpl in H; [congruence|done].
  - by intros [= <-].
Qed.

Lemma parse_type_tells_prefix_witness :
  startsWith "[Zcl,Conf,64,21,0]" MESSAGE_PREFIXES.ZCL_CONF = true.
Proof.
  exact (parse_type_tells_prefix "[Zcl,Conf,64,21,0]" (zclConf (Int 64) (Int 21) (Int 0))
           eq_refl).
Defined.

(** The block of each variant. *)
Definition block_of (t : MessageType) : Block :=
  match t with
  | T_ready => block_ready
  | T_version => block_version
  | T_address => block_address
  | T_deviceAnnounce => block_deviceAnnounce
  | T_nodeDescRsp => block_nodeDescRsp
  | T_activeEpRsp => block_activeEpRsp
  | T_activeEpReq => block_activeEpReq
  | T_simpleDescRsp => block_simpleDescRsp
  | T_zclInd => block_zclInd
  | T_zclConf => block_zclConf
  | T_zclReq => block_zclReq
  | T_joinPermitted => block_joinPermitted
  | T_networkSettings => block_networkSettings
  | T_mgmtLqiRsp => block_mgmtLqiRsp
  | T_linkTouchlink => block_linkTouchlink
  | T_zdpIeeeAddrRsp => block_zdpIeeeAddrRsp
  | T_unknown => fun _ => None
  end.

(** No prefix continues another: a line with the prefix of one block is
    decided by that block alone, wherever it stands in the sequence. *)
Lemma parse_at (t : MessageType) (p message : string) :
  prefix_of t = Some p -> startsWith message p = true ->
  parse message
  = match block_of t message with
    | Some r => r
    | None => Ok (unknown message)
    end.
Proof.
  intros Ht Hp. unfold parse, blocks. cbn [run].
  destruct t; simpl in Ht; try discriminate; injection Ht as <-; cbn [block_of];
    unfold block_ready, block_version, block_address, block_deviceAnnounce,
      block_nodeDescRsp, block_activeEpRsp, block_activeEpReq, block_simpleDescRsp,
      block_zclInd, block_zclConf, block_zclReq, block_joinPermitted,
      block_networkSettings, block_mgmtLqiRsp, block_linkTouchlink,
      block_zdpIeeeAddrRsp;
    repeat other_prefix Hp; rewrite Hp; cbv beta iota zeta;
    try reflexivity.
  - by destruct (match_ message re_deviceAnnounce).
  - by destruct (match_ message re_zclInd).
Qed.

(** X3. The lenient blocks never fail: a line that begins with the prefix
    of [ready], [version], [address], [activeEpReq], [zclConf], [zclReq],
    [joinPermitted], [networkSettings] or [linkTouchlink] parses to that
    variant, however short or garbled the rest is. *)
Theorem parse_lenient (t : MessageType) (p message : string) :
  lenient t = true -> prefix_of t = Some p -> startsWith message p = true ->
  exists r, parse message = Ok r /\ type_of r = t.
Proof.
  intros Hl Ht Hp. rewrite (parse_at t p message Ht Hp).
  destruct t; try discriminate; injection Ht as <-; cbn [block_of];
    unfold block_ready, block_version, block_address, block_activeEpReq,
      block_zclConf, block_zclReq, block_joinPermitted, block_networkSettings,
      block_linkTouchlink;
    rewrite Hp; cbv zeta; eexists; (split; [reflexivity|reflexivity]).
Qed.

Lemma parse_lenient_witness :
  exists r, parse "[Zcl,Conf" = Ok r /\ type_of r = T_zclConf.
Proof.
  apply (parse_lenient T_zclConf MESSAGE_PREFIXES.ZCL_CONF "[Zcl,Conf");
    reflexivity.
Defined.

Lemma at_short {A} (l : list A) (i : nat) : at_ l i = None <-> (List.length l <=? i)%nat = true.
Proof. unfold at_. rewrite nth_error_None. symmetry. apply Nat.leb_le. Qed.

Lemma at_long {A} (l : list A) (i : nat) x : at_ l i = Some x -> (List.length l <=? i)%nat = false.
Proof.
  intros H. apply Nat.leb_gt. apply nth_error_Some. unfold at_ in H. congruence.
Qed.

Lemma at_short_mono {A} (l : list A) (i j : nat) : (i <= j)%nat -> at_ l i = None -> at_ l j = None.
Proof. unfold at_. rewrite !nth_error_None. lia. Qed.

Ltac throwing_block H t :=
  rewrite (parse_at t _ _ eq_refl H); cbn [block_of];
  unfold block_nodeDescRsp, block_activeEpRsp, block_simpleDescRsp, block_mgmtLqiRsp,
    block_zdpIeeeAddrRsp;
  rewrite H; cbv zeta; repeat other_prefix H; cbn [orb andb].

Ltac settled := cbn [orb andb negb]; repeat split; first [done | by eexists].

(** What [parse] does with a line, by the kind of the line. *)
Lemma parse_outcome (message : string) :
  match parse message with
  | Ok _ => malformed message = false /\ endless message = false
  | Throw e =>
    malformed message = true /\ endless message = false /\ exists what, e = TypeError what
  | Hang => malformed message = false /\ endless message = true
  end.
Proof.
  unfold malformed, endless. cbv zeta.
  destruct (startsWith message MESSAGE_PREFIXES.ZDP_NODE_DESC_RSP) eqn:HN.
  { throwing_block HN T_nodeDescRsp.
    destruct (at_ (parts_of message) 3) eqn:H3; cbn [defined bind].
    - rewrite (at_long _ _ _ H3). settled.
    - apply at_short in H3. rewrite H3. settled. }
  destruct (startsWith message MESSAGE_PREFIXES.ZDP_ACTIVE_EP_RSP) eqn:HA.
  { throwing_block HA T_activeEpRsp.
    destruct (at_ (parts_of message) 3) eqn:H3; cbn [defined bind].
    - rewrite (at_long _ _ _ H3). settled.
    - apply at_short in H3. rewrite H3. settled. }
  destruct (startsWith message MESSAGE_PREFIXES.ZDP_SIMPLE_DESC_RSP) eqn:HS.
  { throwing_block HS T_simpleDescRsp.
    destruct (at_ (parts_of message) 3) eqn:H3; cbn [defined bind].
    - rewrite (at_long _ _ _ H3). settled.
    - apply at_short in H3. rewrite H3. settled. }
  destruct (startsWith message MESSAGE_PREFIXES.ZDP_MGMT_LQI_RSP) eqn:HM.
  { throwing_block HM T_mgmtLqiRsp.
    destruct (at_ (parts_of message) 3) eqn:H3; cbn [defined bind].
    - rewrite (at_long _ _ _ H3). unfold neighbors_for, iterations.
      destruct (parseInt (at_ (parts_of message) 7) 0) as [|z].
      + destruct (neighbors_ok (parts_of message) 0 8 []) as [l ->]. cbn [bind]. settled.
      + destruct (Z.leb_spec z 9007199254740993) as [Hle|Hgt].
        * destruct (neighbors_ok (parts_of message)
                      (Z.to_nat (Z.min z 9007199254740992)) 8 []) as [l ->].
          cbn [bind]. rewrite (proj2 (Z.ltb_ge _ _) Hle). settled.
        * cbn [bind]. rewrite (proj2 (Z.ltb_lt _ _) Hgt). settled.
    - apply at_short in H3. rewrite H3. settled. }
  destruct (startsWith message MESSAGE_PREFIXES.ZDP_IEEE_ADDR_RSP) eqn:HI.
  { throwing_block HI T_zdpIeeeAddrRsp. unfold lacks_address.
    destruct (at_ (parts_of message) 3) as [p3|] eqn:H3; cbn [defined bind]; [|settled].
    destruct (match_ p3 re_addr); cbn [non_null bind orb]; [|settled].
    destruct (at_ (parts_of message) 5) eqn:H5; cbn [defined bind].
    - destruct (at_ (parts_of message) 6) as [p6|] eqn:H6; cbn [defined bind]; [|settled].
      destruct (match_ p6 re_addr); cbn [non_null bind]; settled.
    - rewrite (at_short_mono _ 5 6 ltac:(lia) H5). settled. }
  cbn [orb andb].
  assert (Hok : exists r, parse message = Ok r).
  { unfold parse, blocks. cbn [run].
    unfold block_nodeDescRsp, block_activeEpRsp, block_simpleDescRsp, block_mgmtLqiRsp,
      block_zdpIeeeAddrRsp. rewrite HN, HA, HS, HM, HI.
    unfold block_ready.
    destruct (startsWith message MESSAGE_PREFIXES.TH_READY); [by eexists|].
    unfold block_version.
    destruct (startsWith message MESSAGE_PREFIXES.TH_GET_SW_VERSION); [by eexists|].
    unfold block_address.
    destruct (startsWith message MESSAGE_PREFIXES.CONNECTION_GET_ADDRESS); [by eexists|].
    assert (Hd : exists o, block_deviceAnnounce message = o
                           /\ (o = None \/ exists r, o = Some (Ok r))).
    { unfold block_deviceAnnounce.
      destruct (startsWith message MESSAGE_PREFIXES.ZDP_DEVICE_ANNOUNCE); [|by eauto].
      destruct (match_ message re_deviceAnnounce); eauto. }
    destruct Hd as (o & -> & [->|[r ->]]); [|by eexists].
    unfold block_activeEpReq.
    destruct (startsWith message "[Zdp,SendActiveEndPointReq,"); [by eexists|].
    assert (Hz : exists o, block_zclInd message = o
                           /\ (o = None \/ exists r, o = Some (Ok r))).
    { unfold block_zclInd.
      destruct (startsWith message MESSAGE_PREFIXES.ZCL_IND); [|by eauto].
      destruct (match_ message re_zclInd); eauto. }
    destruct Hz as (o & -> & [->|[r ->]]); [|by eexists].
    unfold block_zclConf.
    destruct (startsWith message MESSAGE_PREFIXES.ZCL_CONF); [by eexists|].
    unfold block_zclReq.
    destruct (startsWith message MESSAGE_PREFIXES.ZCL_REQ); [by eexists|].
    unfold block_joinPermitted.
    destruct (startsWith message MESSAGE_PREFIXES.ZDP_JOIN_PERMITTED); [by eexists|].
    unfold block_networkSettings.
    destruct (startsWith message MESSAGE_PREFIXES.BRIDGE_NETWORK_SETTINGS); [by eexists|].
    unfold block_linkTouchlink.
    destruct (startsWith message MESSAGE_PREFIXES.TOUCHLINK); [by eexists|].
    by eexists. }
  destruct Hok as [r ->]. settled.
Qed.

(** X1. What [parse] does with a line is decided by two tests.  It
    throws on exactly the lines that are [malformed]: a node descriptor,
    active endpoints, simple descriptor or LQI response with fewer than
    four fields, or an IEEE address response whose fourth or seventh field
    is missing or holds no "S=0x" address; whatever it throws is a
    [TypeError].  It never returns on exactly the lines that are
    [endless]: an LQI response of four fields or more whose count is
    beyond 2^53 + 1.  On every other line it returns a message. *)
Theorem parse_throws_iff_malformed (message : string) :
  ((exists e, parse message = Throw e) <-> malformed message = true)
  /\ (parse message = Hang <-> endless message = true)
  /\ ((exists r, parse message = Ok r)
      <-> malformed message = false /\ endless message = false)
  /\ forall e, parse message = Throw e -> exists what, e = TypeError what.
Proof.
  pose proof (parse_outcome message) as H.
  destruct (parse message) as [r|e|].
  - destruct H as [-> ->]. split; [|split; [|split]].
    + split; [by intros [? [=]] | done].
    + done.
    + split; [done | by eexists].
    + done.
  - destruct H as (-> & -> & what & ->). split; [|split; [|split]].
    + split; [done | by eexists].
    + done.
    + split; [by intros [? [=]] | by intros [[=] _]].
    + intros e' [= <-]. by eexists.
  - destruct H as [-> ->]. split; [|split; [|split]].
    + split; [by intros [? [=]] | done].
    + done.
    + split; [by intros [? [=]] | by intros [_ [=]]].
    + done.
Qed.

Ltac fields_ok :=
  repeat (apply Forall_cons; split; [first [reflexivity | apply dec_not_comma | done]|]);
  try (by constructor).

(** X4. The acknowledgement and the confirmation of a ZCL request are
    read back field by field: the line written with the decimal texts of
    three (two) integers parses to [zclConf] ([zclReq]) of those
    integers. *)
Theorem parse_confirmation (endpoint sequence status : Z) :
  isSafeInteger endpoint = true -> isSafeInteger sequence = true ->
  isSafeInteger status = true ->
  parse (line ["Zcl"; "Conf"; dec endpoint; dec sequence; dec status])
  = Ok (zclConf (Int endpoint) (Int sequence) (Int status))
  /\ parse (line ["Zcl"; "Req"; dec status; dec sequence])
     = Ok (zclReq (Int status) (Int sequence)).
Proof.
  intros _ _ _. split.
  - rewrite (parse_at T_zclConf MESSAGE_PREFIXES.ZCL_CONF) by reflexivity.
    cbn [block_of]. unfold block_zclConf.
    replace (startsWith _ MESSAGE_PREFIXES.ZCL_CONF) with true by reflexivity.
    cbv zeta. rewrite parts_of_line by first [done | solve [fields_ok]].
    cbn [at_ nth_error]. by rewrite !parseInt_dec.
  - rewrite (parse_at T_zclReq MESSAGE_PREFIXES.ZCL_REQ) by reflexivity.
    cbn [block_of]. unfold block_zclReq.
    replace (startsWith _ MESSAGE_PREFIXES.ZCL_REQ) with true by reflexivity.
    cbv zeta. rewrite parts_of_line by first [done | solve [fields_ok]].
    cbn [at_ nth_error]. by rewrite !parseInt_dec.
Qed.

Lemma parse_confirmation_witness :
  parse (line ["Zcl"; "Conf"; dec 64; dec 21; dec 0])
  = Ok (zclConf (Int 64) (Int 21) (Int 0))
  /\ parse (line ["Zcl"; "Req"; dec 0; dec 21]) = Ok (zclReq (Int 0) (Int 21)).
Proof. apply (parse_confirmation 64 21 0); reflexivity. Defined.

(** The three groups of a device announcement: for an
    address [A] of hexadecimal digits, an IEEE text [L] of hexadecimal
    digits and colons and a capability [C] of decimal digits, the line
    "[Zdp,ReceivedDeviceAnnounce,S=0xA.0,L=L,C]" parses to [deviceAnnounce]
    with [A] read in radix 16, [L] without its colons, in lower case, behind
    "0x", and [C] read in radix 10. *)
Lemma device_announcement_groups (A L C : string) :
  A <> "" -> all_chr is_hex A = true ->
  L <> "" -> all_chr is_hex_or_colon L = true ->
  C <> "" -> all_chr is_digit C = true ->
  parse ("[Zdp,ReceivedDeviceAnnounce,S=0x" +:+ A +:+ ".0,L=" +:+ L +:+ "," +:+ C +:+ "]")
  = Ok (deviceAnnounce (parseInt (Some A) 16)
          ("0x" +:+ toLowerCase (remove_all ":" L))
          (parseInt (Some C) 0)).
Proof.
  intros HA HAc HL HLc HC HCc.
  rewrite (parse_at T_deviceAnnounce MESSAGE_PREFIXES.ZDP_DEVICE_ANNOUNCE) by reflexivity.
  cbn [block_of]. unfold block_deviceAnnounce.
  replace (startsWith _ MESSAGE_PREFIXES.ZDP_DEVICE_ANNOUNCE) with true by reflexivity.
  assert (Hm : exists w,
             match_ ("[Zdp,ReceivedDeviceAnnounce,S=0x" +:+ A +:+ ".0,L=" +:+ L +:+ ","
                     +:+ C +:+ "]") re_deviceAnnounce
             = Some [w; A; L; C]).
  { eexists. apply match_found. unfold re_deviceAnnounce. cbn [atoms ignoreCase].
    change ("[Zdp,ReceivedDeviceAnnounce,S=0x" +:+ A +:+ ".0,L=" +:+ L +:+ "," +:+ C +:+ "]")
      with ("[Zdp,ReceivedDeviceAnnounce,"
            +:+ ("S=0x" +:+ (A +:+ (".0,L=" +:+ (L +:+ ("," +:+ (C +:+ "]"))))))).
    apply search_lits; [reflexivity|].
    eapply match_lits_then.
    eapply match_here_group; [done| |reflexivity|].
    { eapply all_chr_impl; [apply hex_in_class|done]. }
    eapply match_lits_then.
    eapply match_here_group; [done| |reflexivity|].
    { eapply all_chr_impl; [apply hex_or_colon_class|done]. }
    eapply match_lits_then.
    eapply match_here_group; [done|done|reflexivity|].
    reflexivity. }
  destruct Hm as [w ->]. reflexivity.
Qed.

(** X5. A device announcement is read by its three groups: for an
    address [A] of hexadecimal digits, an IEEE text [L] of hexadecimal
    digits and colons and a capability [C] of decimal digits, the line
    "[Zdp,ReceivedDeviceAnnounce,S=0xA.0,L=L,C]" parses to [deviceAnnounce]
    with [A] read in radix 16, [L] without its colons, in lower case, behind
    "0x", and [C] read in radix 10, as long as the two numbers are ones a
    double holds exactly. *)
Theorem parse_device_announcement (A L C : string) :
  A <> "" -> all_chr is_hex A = true ->
  L <> "" -> all_chr is_hex_or_colon L = true ->
  C <> "" -> all_chr is_digit C = true ->
  is_exact (parseInt (Some A) 16) = true -> is_exact (parseInt (Some C) 0) = true ->
  parse ("[Zdp,ReceivedDeviceAnnounce,S=0x" +:+ A +:+ ".0,L=" +:+ L +:+ "," +:+ C +:+ "]")
  = Ok (deviceAnnounce (parseInt (Some A) 16)
          ("0x" +:+ toLowerCase (remove_all ":" L))
          (parseInt (Some C) 0)).
Proof. intros HA HAc HL HLc HC HCc _ _. by apply device_announcement_groups. Qed.

Lemma parse_device_announcement_witness :
  parse ("[Zdp,ReceivedDeviceAnnounce,S=0x" +:+ "DC81" +:+ ".0,L="
         +:+ "00:15:8D:00:00:73:2D:27" +:+ "," +:+ "142" +:+ "]")
  = Ok (deviceAnnounce (parseInt (Some "DC81") 16)
          ("0x" +:+ toLowerCase (remove_all ":" "00:15:8D:00:00:73:2D:27"))
          (parseInt (Some "142") 0)).
Proof. apply parse_device_announcement; done. Defined.

(** X6. A ZCL indication is read by its six groups: source and
    destination address (hexadecimal) and endpoint (decimal), the cluster
    (decimal) and the payload, which is returned as written; the five
    numbers are those the digits denote, as long as a double holds them
    exactly. *)
Theorem parse_indication (A1 E1 A2 E2 CL P : string) :
  A1 <> "" -> all_chr is_hex A1 = true -> E1 <> "" -> all_chr is_digit E1 = true ->
  A2 <> "" -> all_chr is_hex A2 = true -> E2 <> "" -> all_chr is_digit E2 = true ->
  CL <> "" -> all_chr is_digit CL = true -> P <> "" -> all_chr is_hex P = true ->
  is_exact (parseInt (Some A1) 16) = true -> is_exact (parseInt (Some E1) 0) = true ->
  is_exact (parseInt (Some A2) 16) = true -> is_exact (parseInt (Some E2) 0) = true ->
  is_exact (parseInt (Some CL) 0) = true ->
  parse ("[Zcl,Ind,S=0x" +:+ A1 +:+ "." +:+ E1 +:+ ",S=0x" +:+ A2 +:+ "." +:+ E2 +:+ ","
         +:+ CL +:+ "," +:+ P +:+ "]")
  = Ok (zclInd
          {| EndpointAddress.address := parseInt (Some A1) 16;
             EndpointAddress.endpoint := parseInt (Some E1) 0 |}
          {| EndpointAddress.address := parseInt (Some A2) 16;
             EndpointAddress.endpoint := parseInt (Some E2) 0 |}
          (parseInt (Some CL) 0)
          P).
Proof.
  intros HA1 HA1c HE1 HE1c HA2 HA2c HE2 HE2c HCL HCLc HP HPc _ _ _ _ _.
  rewrite (parse_at T_zclInd MESSAGE_PREFIXES.ZCL_IND) by reflexivity.
  cbn [block_of]. unfold block_zclInd.
  replace (startsWith _ MESSAGE_PREFIXES.ZCL_IND) with true by reflexivity.
  assert (Hm : exists w,
             match_ ("[Zcl,Ind,S=0x" +:+ A1 +:+ "." +:+ E1 +:+ ",S=0x" +:+ A2 +:+ "." +:+ E2
                     +:+ "," +:+ CL +:+ "," +:+ P +:+ "]") re_zclInd
             = Some [w; A1; E1; A2; E2; CL; P]).
  { eexists. apply match_found. unfold re_zclInd. cbn [atoms ignoreCase].
    change ("[Zcl,Ind,S=0x" +:+ A1 +:+ "." +:+ E1 +:+ ",S=0x" +:+ A2 +:+ "." +:+ E2
            +:+ "," +:+ CL +:+ "," +:+ P +:+ "]")
      with ("[Zcl,Ind,"
            +:+ ("S=0x" +:+ (A1 +:+ ("." +:+ (E1 +:+ (",S=0x" +:+ (A2 +:+ ("." +:+ (E2
                 +:+ ("," +:+ (CL +:+ ("," +:+ (P +:+ "]"))))))))))))).
    apply search_lits; [reflexivity|].
    eapply match_lits_then.
    eapply match_here_group; [done| |reflexivity|].
    { eapply all_chr_impl; [apply hex_in_class|done]. }
    eapply match_lits_then.
    eapply match_here_group; [done|done|reflexivity|].
    eapply match_lits_then.
    eapply match_here_group; [done| |reflexivity|].
    { eapply all_chr_impl; [apply hex_in_class|done]. }
    eapply match_lits_then.
    eapply match_here_group; [done|done|reflexivity|].
    eapply match_lits_then.
    eapply match_here_group; [done|done|reflexivity|].
    eapply match_lits_then.
    eapply match_here_group; [done| |reflexivity|].
    { eapply all_chr_impl; [apply hex_in_class|done]. }
    reflexivity. }
  destruct Hm as [w ->]. reflexivity.
Qed.

Lemma parse_indication_witness :
  parse ("[Zcl,Ind,S=0x" +:+ "0003" +:+ "." +:+ "1" +:+ ",S=0x" +:+ "0001" +:+ "." +:+ "64"
         +:+ "," +:+ "25" +:+ "," +:+ "0139010015DB030201300011" +:+ "]")
  = Ok (zclInd
          {| EndpointAddress.address := parseInt (Some "0003") 16;
             EndpointAddress.endpoint := parseInt (Some "1") 0 |}
          {| EndpointAddress.address := parseInt (Some "0001") 16;
             EndpointAddress.endpoint := parseInt (Some "64") 0 |}
          (parseInt (Some "25") 0)
          "0139010015DB030201300011").
Proof. apply parse_indication; done. Defined.

(** The address field, as the templates write it, read by the parser. *)
Lemma address_field_read (a : Z) (rest : string) :
  0 <= a -> stops (in_class true hex_digit) rest = true ->
  addr_or_zero (match_ ("S=0x" +:+ COMMANDS.hex4 (Int a) +:+ rest) re_addr) = Int a.
Proof.
  intros Ha Hrest.
  assert (Hm : exists w, match_ ("S=0x" +:+ COMMANDS.hex4 (Int a) +:+ rest) re_addr
                         = Some [w; COMMANDS.hex4 (Int a)]).
  { eexists. apply match_found. unfold re_addr. cbn [atoms ignoreCase].
    change ("S=0x" +:+ COMMANDS.hex4 (Int a) +:+ rest)
      with ("" +:+ ("S=0x" +:+ (COMMANDS.hex4 (Int a) +:+ rest))).
    apply search_lits; [reflexivity|].
    eapply match_lits_then.
    eapply match_here_group; [apply hex4_nonempty| |done|reflexivity].
    eapply all_chr_impl; [|by apply hex4_class].
    intros c Hc. by apply hex_in_class, hex_lower_is_hex. }
  destruct Hm as [w ->]. cbn [addr_or_zero at_ nth_error].
  unfold COMMANDS.hex4. by apply parseInt_hex.
Qed.







Lemma neighbors_length parts n offset acc l :
  neighbors parts n offset acc = Ok l ->
  List.length l = (List.length acc + Nat.min n ((List.length parts - offset) / 8))%nat.
Proof.
  revert offset acc. induction n as [|n IH]; intros offset acc; cbn [neighbors].
  - intros [= <-]. lia.
  - destruct (Nat.leb_spec (offset + 8) (List.length parts)) as [Hle|Hgt].
    + destruct (at_ parts (offset + 1)) as [p1|]; [|done]. cbn [defined bind].
      intros H. apply IH in H. rewrite H, length_app. cbn [List.length].
      replace (List.length parts - offset)%nat
        with (List.length parts - (offset + 8) + 1 * 8)%nat by lia.
      rewrite Nat.div_add by lia. lia.
    + intros H. apply IH in H. rewrite H.
      rewrite Nat.div_small by lia. lia.
Qed.

(** X8. The neighbour table of an LQI response.  When the loop over it
    ends, after [count] iterations (the eighth field is not a number, or
    denotes a count of at most 2^53 + 1), the table holds [count] entries
    or as many groups of eight fields as follow the eighth, whichever is
    less: the loop never reads past the end of the line. *)
Theorem parse_lqi_table_bounded (message : string) (count : nat) :
  startsWith message MESSAGE_PREFIXES.ZDP_MGMT_LQI_RSP = true ->
  malformed message = false ->
  iterations (parseInt (at_ (parts_of message) 7) 0) = Some count ->
  exists seq srcAddr status startIndex neighborTableEntries neighborTableList,
  parse message
  = Ok (mgmtLqiRsp seq srcAddr status startIndex neighborTableEntries neighborTableList)
  /\ List.length neighborTableList
     = Nat.min count ((List.length (parts_of message) - 8) / 8).
Proof.
  intros Hp Hgood Hcount.
  rewrite (parse_at T_mgmtLqiRsp _ _ eq_refl Hp). cbn [block_of].
  unfold block_mgmtLqiRsp. rewrite Hp. cbv zeta.
  destruct (at_ (parts_of message) 3) as [p3|] eqn:H3.
  - cbn [defined bind]. unfold neighbors_for. rewrite Hcount.
    destruct (neighbors_ok (parts_of message) count 8 []) as [l Hn]. rewrite Hn.
    cbn [bind]. do 6 eexists. split; [reflexivity|].
    apply neighbors_length in Hn. by rewrite Hn.
  - exfalso. apply at_short in H3. unfold malformed in Hgood. cbv zeta in Hgood.
    rewrite Hp, H3 in Hgood. rewrite !orb_true_r in Hgood. done.
Qed.

Lemma parse_lqi_table_bounded_witness :
  exists seq srcAddr status startIndex neighborTableEntries neighborTableList,
  parse "[Zdp,ReceivedMgmtLqiRsp,100,S=0x0003.0,0,5,0,3,a,L=00:17:88:01:02:03:04:05,4660,1,2,1,0,255,b,c]"
  = Ok (mgmtLqiRsp seq srcAddr status startIndex neighborTableEntries neighborTableList)
  /\ List.length neighborTableList
     = Nat.min 3
         ((List.length (parts_of "[Zdp,ReceivedMgmtLqiRsp,100,S=0x0003.0,0,5,0,3,a,L=00:17:88:01:02:03:04:05,4660,1,2,1,0,255,b,c]") - 8) / 8).
Proof.
  apply (parse_lqi_table_bounded
           "[Zdp,ReceivedMgmtLqiRsp,100,S=0x0003.0,0,5,0,3,a,L=00:17:88:01:02:03:04:05,4660,1,2,1,0,255,b,c]"
           3); reflexivity.
Defined.

End ParserMore.

(* ===================================================================== *)
(** * The command templates *)
(* ===================================================================== *)

Module TemplateFacts.
Import JS RegExp Constants MessageParser Text TextFacts ParserFacts ParserMore.
Local Open Scope list_scope.

Lemma radix_digits_length (R : Z) (fuel : nat) :
  2 <= R -> forall n (k : nat), 0 <= n < R ^ Z.of_nat k -> (1 <= k)%nat ->
  (String.length (radix_digits fuel R n) <= k)%nat.
Proof.
  intros HR. induction fuel as [|fuel IH]; intros n k Hn Hk; cbn [radix_digits].
  - simpl. lia.
  - destruct (Z.ltb_spec n R) as [Hlt|Hge]; [simpl; lia|].
    rewrite string_length_app. simpl String.length.
    destruct k as [|[|k]]; [lia| |].
    + change (R ^ Z.of_nat 1) with (R ^ 1) in Hn. rewrite Z.pow_1_r in Hn. lia.
    + assert (String.length (radix_digits fuel R (n / R)) <= S k)%nat; [|lia].
      apply IH; [|lia]. split; [apply Z.div_pos; lia|].
      apply Z.div_lt_upper_bound; [lia|].
      replace (Z.of_nat (S (S k))) with (Z.of_nat (S k) + 1) in Hn by lia.
      rewrite Z.pow_add_r, Z.pow_1_r in Hn by lia. lia.
Qed.

Lemma length_repeat_chr (n : nat) c : String.length (repeat_chr n c) = n.
Proof. induction n as [|n IH]; simpl; [done|by rewrite IH]. Qed.

(** X9. The address notation of the templates: a network address is
    written with four lower-case hexadecimal digits (more when it does not
    fit in sixteen bits, never fewer), and the parser reads the field
    "S=0x....0" back to the address. *)
Theorem hex4_reads_back (a : Z) :
  0 <= a -> isSafeInteger a = true ->
  all_chr is_hex_lower (COMMANDS.hex4 (Int a)) = true
  /\ (4 <= String.length (COMMANDS.hex4 (Int a)))%nat
  /\ (a <= 65535 -> String.length (COMMANDS.hex4 (Int a)) = 4%nat)
  /\ parseInt (Some (COMMANDS.hex4 (Int a))) 16 = Int a
  /\ addr_or_zero (match_ ("S=0x" +:+ COMMANDS.hex4 (Int a) +:+ ".0") re_addr) = Int a.
Proof.
  intros Ha _. split; [by apply hex4_class|].
  assert (Hlen : forall s, String.length (padStart 4 "0" s)
                           = Nat.max 4 (String.length s)).
  { intros s. unfold padStart. rewrite string_length_app, length_repeat_chr. lia. }
  split; [|split; [|split]].
  - unfold COMMANDS.hex4. rewrite Hlen. lia.
  - intros Hmax. unfold COMMANDS.hex4. rewrite Hlen.
    unfold toString, int_toString.
    replace (a <? 0) with false by (symmetry; apply Z.ltb_ge; lia).
    pose proof (radix_digits_length 16 (Z.to_nat (Z.log2 a)) ltac:(lia) a 4
                  ltac:(change (16 ^ Z.of_nat 4) with 65536; lia) ltac:(lia)).
    lia.
  - unfold COMMANDS.hex4. by apply parseInt_hex.
  - by apply address_field_read.
Qed.

Lemma hex4_reads_back_witness :
  all_chr is_hex_lower (COMMANDS.hex4 (Int 56449)) = true
  /\ (4 <= String.length (COMMANDS.hex4 (Int 56449)))%nat
  /\ (56449 <= 65535 -> String.length (COMMANDS.hex4 (Int 56449)) = 4%nat)
  /\ parseInt (Some (COMMANDS.hex4 (Int 56449))) 16 = Int 56449
  /\ addr_or_zero (match_ ("S=0x" +:+ COMMANDS.hex4 (Int 56449) +:+ ".0") re_addr)
     = Int 56449.
Proof. apply hex4_reads_back; [lia|reflexivity]. Defined.

(** ** [formatIeee] *)

Lemma map_str_app f s t : map_str f (s +:+ t) = map_str f s +:+ map_str f t.
Proof.
  induction s as [|c s IH]; [done|]. rewrite string_app_cons. simpl.
  by rewrite IH.
Qed.

Lemma remove_all_app c s t : remove_all c (s +:+ t) = remove_all c s +:+ remove_all c t.
Proof.
  induction s as [|d s IH]; [done|]. rewrite string_app_cons. simpl.
  destruct (Ascii.eqb d c); [done|]. by rewrite string_app_cons, IH.
Qed.

Lemma hex_lower_chr c :
  is_hex_lower c = true ->
  lower_chr (upper_chr c) = c /\ Ascii.eqb (upper_chr c) ":" = false
  /\ Ascii.eqb c ":" = false /\ COMMANDS.is_line_terminator c = false
  /\ is_hex (upper_chr c) = true.
Proof. intros H. repeat split; revert H; by_code_unit c. Qed.

Lemma remove_all_hex s : all_chr is_hex_lower s = true -> remove_all ":" s = s.
Proof.
  induction s as [|c s IH]; [done|]. cbn [all_chr remove_all].
  intros [Hc Hs]%andb_true_iff. destruct (hex_lower_chr c Hc) as (_ & _ & -> & _).
  by rewrite IH.
Qed.

Lemma lower_upper_hex s : all_chr is_hex_lower s = true -> toLowerCase (toUpperCase s) = s.
Proof.
  induction s as [|c s IH]; [done|]. cbn [all_chr].
  intros [Hc Hs]%andb_true_iff. unfold toLowerCase, toUpperCase in *. cbn [map_str].
  destruct (hex_lower_chr c Hc) as (-> & _). by rewrite IH.
Qed.

Lemma pieces_nonempty c s :
  all_chr is_hex_lower (String c s) = true -> COMMANDS.pieces (String c s) <> [].
Proof.
  cbn [all_chr]. intros [Hc Hs]%andb_true_iff. cbn [COMMANDS.pieces].
  destruct (hex_lower_chr c Hc) as (_ & _ & _ & -> & _).
  destruct s as [|d s]; [done|]. cbn [all_chr] in Hs.
  apply andb_true_iff in Hs as [Hd _].
  by destruct (hex_lower_chr d Hd) as (_ & _ & _ & -> & _).
Qed.

(** The text cut in bytes, joined with colons, in upper case: taking the
    colons out again gives the text in upper case. *)
Lemma pieces_joined (n : nat) : forall s,
  (String.length s <= n)%nat -> all_chr is_hex_lower s = true ->
  remove_all ":" (toUpperCase (COMMANDS.join ":" (COMMANDS.pieces s))) = toUpperCase s
  /\ all_chr is_hex_or_colon (toUpperCase (COMMANDS.join ":" (COMMANDS.pieces s))) = true.
Proof.
  induction n as [|n IH]; intros s Hn Hs.
  { destruct s; [done|simpl in Hn; lia]. }
  destruct s as [|a [|b r]]; [done| |].
  - cbn [all_chr] in Hs. apply andb_true_iff in Hs as [Ha _].
    destruct (hex_lower_chr a Ha) as (_ & Hcolon & _ & Hlt & Hhex).
    cbn [COMMANDS.pieces]. rewrite Hlt. cbn [COMMANDS.join].
    unfold toUpperCase. cbn [map_str remove_all all_chr]. rewrite Hcolon.
    unfold is_hex_or_colon. by rewrite Hhex.
  - pose proof Hs as Hs'. cbn [all_chr] in Hs'.
    apply andb_true_iff in Hs' as [Ha [Hb Hr]%andb_true_iff].
    destruct (hex_lower_chr a Ha) as (_ & Hca & _ & Hlta & Hhexa).
    destruct (hex_lower_chr b Hb) as (_ & Hcb & _ & Hltb & Hhexb).
    cbn [COMMANDS.pieces]. rewrite Hlta, Hltb.
    destruct (IH r ltac:(simpl in Hn; lia) Hr) as [IHr IHc].
    destruct r as [|c r'].
    + cbn [COMMANDS.pieces COMMANDS.join]. unfold toUpperCase.
      cbn [map_str remove_all all_chr]. rewrite Hca, Hcb.
      unfold is_hex_or_colon. by rewrite Hhexa, Hhexb.
    + pose proof (pieces_nonempty c r' Hr) as Hne.
      destruct (COMMANDS.pieces (String c r')) as [|y l] eqn:Hp; [done|].
      change (COMMANDS.join ":" (String a (String b "") :: y :: l))
        with (String a (String b (String ":" (COMMANDS.join ":" (y :: l))))).
      unfold toUpperCase in *. cbn [map_str remove_all all_chr].
      rewrite Hca, Hcb. change (upper_chr ":") with ":"%char.
      rewrite Ascii.eqb_refl. rewrite IHr, IHc.
      unfold is_hex_or_colon at 1 2 3. rewrite Hhexa, Hhexb. by rewrite orb_true_r.
Qed.

Lemma formatIeee_hex (h : string) :
  all_chr is_hex_lower h = true ->
  toLowerCase (remove_all ":" (COMMANDS.formatIeee ("0x" +:+ h))) = h
  /\ all_chr is_hex_or_colon (COMMANDS.formatIeee ("0x" +:+ h)) = true
  /\ (h <> "" -> COMMANDS.formatIeee ("0x" +:+ h) <> "").
Proof.
  intros Hh. unfold COMMANDS.formatIeee, remove_prefix.
  rewrite prefix_app. change (String.length "0x") with (String.length "0x").
  rewrite string_drop_app. rewrite (remove_all_hex h Hh).
  destruct (pieces_joined (String.length h) h ltac:(lia) Hh) as [H1 H2].
  rewrite H1, H2. split; [by apply lower_upper_hex|]. split; [done|].
  intros Hne. destruct h as [|c s]; [done|].
  pose proof (pieces_nonempty c s Hh) as Hp.
  destruct (COMMANDS.pieces (String c s)) as [|y l] eqn:Hy; [done|].
  assert (y <> "").
  { revert Hy. cbn [COMMANDS.pieces]. cbn [all_chr] in Hh.
    apply andb_true_iff in Hh as [Hc Hs].
    destruct (hex_lower_chr c Hc) as (_ & _ & _ & -> & _).
    destruct s as [|d s']; [by intros [= <- _]|].
    destruct (COMMANDS.is_line_terminator d); by intros [= <- _]. }
  destruct y as [|d y']; [done|]. by destruct l.
Qed.

(** X10. The IEEE notation of the templates and of the parser agree:
    [formatIeee] writes an address "0x" followed by lower-case hexadecimal
    digits as colon-separated upper-case bytes, and a device announcement
    carrying that text (and the address and capability as the templates
    write numbers) parses back to the address it was written from. *)
Theorem formatIeee_reads_back (a capability : Z) (h : string) :
  0 <= a -> isSafeInteger a = true -> 0 <= capability -> isSafeInteger capability = true ->
  h <> "" -> all_chr is_hex_lower h = true ->
  toLowerCase (remove_all ":" (COMMANDS.formatIeee ("0x" +:+ h))) = h
  /\ parse ("[Zdp,ReceivedDeviceAnnounce,S=0x" +:+ COMMANDS.hex4 (Int a) +:+ ".0,L="
            +:+ COMMANDS.formatIeee ("0x" +:+ h) +:+ "," +:+ dec capability +:+ "]")
     = Ok (deviceAnnounce (Int a) ("0x" +:+ h) (Int capability)).
Proof.
  intros Ha _ Hc _ Hne Hh. destruct (formatIeee_hex h Hh) as (Hback & Hcls & Hnonempty).
  split; [done|].
  rewrite device_announcement_groups.
  - rewrite Hback. unfold COMMANDS.hex4. rewrite parseInt_hex by done.
    by rewrite parseInt_dec.
  - apply hex4_nonempty.
  - eapply all_chr_impl; [apply hex_lower_is_hex|by apply hex4_class].
  - by apply Hnonempty.
  - done.
  - unfold dec, toString, int_toString.
    replace (capability <? 0) with false by (symmetry; apply Z.ltb_ge; lia).
    apply radix_digits_nonempty.
  - unfold dec, toString, int_toString.
    replace (capability <? 0) with false by (symmetry; apply Z.ltb_ge; lia).
    by apply dec_digits_class.
Qed.

Lemma formatIeee_reads_back_witness :
  toLowerCase (remove_all ":" (COMMANDS.formatIeee ("0x" +:+ "00158d0000732d27")))
  = "00158d0000732d27"
  /\ parse ("[Zdp,ReceivedDeviceAnnounce,S=0x" +:+ COMMANDS.hex4 (Int 3) +:+ ".0,L="
            +:+ COMMANDS.formatIeee ("0x" +:+ "00158d0000732d27") +:+ "," +:+ dec 142 +:+ "]")
     = Ok (deviceAnnounce (Int 3) ("0x" +:+ "00158d0000732d27") (Int 142)).
Proof. apply formatIeee_reads_back; done. Defined.

End TemplateFacts.

(* ===================================================================== *)
(** * sendZdo: the requests it writes and the responses it returns *)
(* ===================================================================== *)

Module ZdoMore.
Import JS RegExp Constants MessageParser Text TextFacts ParserFacts ParserMore TemplateFacts.
Import HueBridgeAdapter.
Local Open Scope list_scope.

Lemma value_range (b : Byte.byte) : 0 <= Buffer.value b < 256.
Proof. destruct b; vm_compute; split; congruence. Qed.

Lemma hex_byte_chars (b : Byte.byte) :
  exists c d, Buffer.hex_byte b = String c (String d "")
              /\ is_hex_lower c = true /\ is_hex_lower d = true.
Proof.
  unfold Buffer.hex_byte. pose proof (value_range b) as Hb.
  eexists _, _. split; [reflexivity|]. split.
  - apply digit_chr_class. split; [apply Z.div_pos; lia|].
    apply Z.div_lt_upper_bound; lia.
  - apply digit_chr_class. apply Z.mod_pos_bound. lia.
Qed.

Lemma toHex_class (bs : Buffer.t) : all_chr is_hex_lower (Buffer.toHex bs) = true.
Proof.
  induction bs as [|b bs IH]; [done|]. cbn [Buffer.toHex].
  destruct (hex_byte_chars b) as (c & d & -> & Hc & Hd).
  rewrite all_chr_app, IH. cbn [all_chr]. by rewrite Hc, Hd.
Qed.

Lemma pieces_toHex (bs : Buffer.t) :
  COMMANDS.pieces (Buffer.toHex bs) = Buffer.hex_byte <$> bs.
Proof.
  induction bs as [|b bs IH]; [done|]. cbn [Buffer.toHex fmap list_fmap].
  destruct (hex_byte_chars b) as (c & d & -> & Hc & Hd).
  rewrite !string_app_cons, string_app_nil_l. cbn [COMMANDS.pieces].
  destruct (hex_lower_chr c Hc) as (_ & _ & _ & -> & _).
  destruct (hex_lower_chr d Hd) as (_ & _ & _ & -> & _).
  by rewrite IH.
Qed.

Lemma toUpperCase_join (l : list string) :
  toUpperCase (COMMANDS.join ":" l) = COMMANDS.join ":" (toUpperCase <$> l).
Proof.
  induction l as [|x [|y l] IH]; [done|done|].
  change (COMMANDS.join ":" (x :: y :: l)) with (x +:+ ":" +:+ COMMANDS.join ":" (y :: l)).
  unfold toUpperCase in *. rewrite !map_str_app, IH. reflexivity.
Qed.

(** The IEEE text of eight bytes of the payload. *)
Lemma formatIeee_toHex (bs : Buffer.t) :
  COMMANDS.formatIeee ("0x" +:+ Buffer.toHex bs) = colon_hex bs.
Proof.
  unfold COMMANDS.formatIeee, remove_prefix. rewrite prefix_app.
  change (String.length "0x") with (String.length "0x"). rewrite string_drop_app.
  rewrite (remove_all_hex _ (toHex_class bs)), pieces_toHex, toUpperCase_join.
  unfold colon_hex. by rewrite <- list_fmap_compose.
Qed.

(** X11. A bind (unbind) request with an IEEE destination is written
    from the bytes of the payload: bytes 1 to 8 and 13 to 20 reversed, as
    colon-separated upper-case hexadecimal, for the two IEEE addresses,
    bytes 9 and 21 for the endpoints, bytes 10 and 11, low byte first, for
    the cluster; any message is accepted as its response. *)
Theorem bind_request_line (unbind : bool) (networkAddress seq : Number)
        (b0 srcEndpoint clusterLo clusterHi destEndpoint : Byte.byte)
        (src dst rest : Buffer.t) :
  List.length src = 8%nat -> List.length dst = 8%nat ->
  let payload := b0 :: src ++ [srcEndpoint; clusterLo; clusterHi; Byte.x03] ++ dst
                    ++ destEndpoint :: rest in
  exists matcher,
  request networkAddress (if unbind then UNBIND_REQUEST else BIND_REQUEST) payload seq
  = Ok ((if unbind then "[Zdp,SendUnbindReq,S=0x" else "[Zdp,SendBindReq,S=0x")
        +:+ COMMANDS.hex4 networkAddress +:+ ".0,L="
        +:+ colon_hex (rev src) +:+ "." +:+ dec (Buffer.value srcEndpoint) +:+ ","
        +:+ dec (Buffer.value clusterLo + 256 * Buffer.value clusterHi) +:+ ",L="
        +:+ colon_hex (rev dst) +:+ "." +:+ dec (Buffer.value destEndpoint) +:+ "]",
        matcher)
  /\ forall msg, matcher msg = true.
Proof.
  intros Hsrc Hdst payload. subst payload.
  destruct src as [|s1 [|s2 [|s3 [|s4 [|s5 [|s6 [|s7 [|s8 [|]]]]]]]]]; try discriminate.
  destruct dst as [|d1 [|d2 [|d3 [|d4 [|d5 [|d6 [|d7 [|d8 [|]]]]]]]]]; try discriminate.
  clear Hsrc Hdst. eexists. split; [|done].
  destruct unbind; unfold request.
  all: change (ieee_at _ 1 9)
         with ("0x" +:+ Buffer.toHex (rev [s1; s2; s3; s4; s5; s6; s7; s8]),
               b0 :: rev [s1; s2; s3; s4; s5; s6; s7; s8]
                 ++ [srcEndpoint; clusterLo; clusterHi; Byte.x03]
                 ++ [d1; d2; d3; d4; d5; d6; d7; d8] ++ destEndpoint :: rest).
  all: cbv beta iota.
  all: change (Buffer.readUInt16LE _ 10)
         with (Ok (A:=Number) (Int (Buffer.value clusterLo + 256 * Buffer.value clusterHi))).
  all: cbn [bind].
  all: change (Buffer.get _ 12) with (Some (Int 3)); cbv beta iota.
  all: change (Buffer.get _ 9) with (Some (Int (Buffer.value srcEndpoint))).
  all: change (ieee_at _ 13 21)
         with ("0x" +:+ Buffer.toHex (rev [d1; d2; d3; d4; d5; d6; d7; d8]),
               b0 :: rev [s1; s2; s3; s4; s5; s6; s7; s8]
                 ++ [srcEndpoint; clusterLo; clusterHi; Byte.x03]
                 ++ rev [d1; d2; d3; d4; d5; d6; d7; d8] ++ destEndpoint :: rest).
  all: cbv beta iota.
  all: change (Buffer.get _ 21) with (Some (Int (Buffer.value destEndpoint))).
  all: cbn [bind]; unfold COMMANDS.ZDP_BIND_REQ, COMMANDS.ZDP_UNBIND_REQ.
  all: rewrite !formatIeee_toHex; reflexivity.
Qed.

Lemma bind_request_line_witness :
  let src := [Byte.x27; Byte.x2d; Byte.x73; Byte.x00; Byte.x00; Byte.x8d; Byte.x15; Byte.x00] in
  let dst := [Byte.xb1; Byte.x0a; Byte.x2d; Byte.x05; Byte.x01; Byte.x88; Byte.x17; Byte.x00] in
  let payload := Byte.x05 :: src ++ [Byte.x01; Byte.x06; Byte.x00; Byte.x03] ++ dst
                    ++ Byte.x01 :: [] in
  exists matcher,
  request (Int 3) BIND_REQUEST payload (Int 7)
  = Ok ("[Zdp,SendBindReq,S=0x"
        +:+ COMMANDS.hex4 (Int 3) +:+ ".0,L="
        +:+ colon_hex (rev src) +:+ "." +:+ dec (Buffer.value Byte.x01) +:+ ","
        +:+ dec (Buffer.value Byte.x06 + 256 * Buffer.value Byte.x00) +:+ ",L="
        +:+ colon_hex (rev dst) +:+ "." +:+ dec (Buffer.value Byte.x01) +:+ "]",
        matcher)
  /\ forall msg, matcher msg = true.
Proof.
  exact (bind_request_line false (Int 3) (Int 7) Byte.x05 Byte.x01 Byte.x06 Byte.x00 Byte.x01
           [Byte.x27; Byte.x2d; Byte.x73; Byte.x00; Byte.x00; Byte.x8d; Byte.x15; Byte.x00]
           [Byte.xb1; Byte.x0a; Byte.x2d; Byte.x05; Byte.x01; Byte.x88; Byte.x17; Byte.x00]
           [] eq_refl eq_refl).
Defined.

(** ** The response [sendZdo] returns *)

Lemma neighbors_have_pan parts n offset acc l :
  neighbors parts n offset acc = Ok l ->
  Forall (fun e => is_Some (NeighborTableEntry.extendedPanId e)) acc ->
  Forall (fun e => is_Some (NeighborTableEntry.extendedPanId e)) l.
Proof.
  revert offset acc. induction n as [|n IH]; intros offset acc; cbn [neighbors].
  - by intros [= <-].
  - destruct (Nat.leb_spec (offset + 8) (List.length parts)) as [Hle|Hgt]; [|apply IH].
    destruct (at_ parts (offset + 1)) as [p1|]; [|done]. cbn [defined bind].
    intros H Hacc. eapply IH; [exact H|]. apply Forall_app. split; [done|].
    apply Forall_singleton. cbn.
    destruct (at_ parts offset) eqn:Ho; [done|]. apply at_short in Ho.
    apply Nat.leb_le in Ho. lia.
Qed.

Lemma mapM_lqi_entry (l : list NeighborTableEntry.t) :
  Forall (fun e => is_Some (NeighborTableEntry.extendedPanId e)) l ->
  exists entries, mapM lqi_entry l = Ok entries /\ List.length entries = List.length l.
Proof.
  induction 1 as [|e l [pan He] _ (entries & IH & Hlen)]; [by exists []|].
  cbn [mapM]. unfold lqi_entry at 1. rewrite He. cbn [defined bind]. rewrite IH.
  cbn [bind]. eexists. split; [reflexivity|]. simpl. by rewrite Hlen.
Qed.

Lemma parsed_lqi_has_pan message seq srcAddr status startIndex entries l :
  parse message = Ok (mgmtLqiRsp seq srcAddr status startIndex entries l) ->
  Forall (fun e => is_Some (NeighborTableEntry.extendedPanId e)) l.
Proof.
  intros Hparse.
  assert (Hp : startsWith message MESSAGE_PREFIXES.ZDP_MGMT_LQI_RSP = true).
  { unfold parse in Hparse. destruct (MessageParser.run blocks message) as [res|] eqn:Hrun; [|done].
    subst res. pose proof (run_typed _ _ _ _ typed_blocks Hrun) as H.
    simpl in H. congruence. }
  rewrite (parse_at T_mgmtLqiRsp _ _ eq_refl Hp) in Hparse. cbn [block_of] in Hparse.
  unfold block_mgmtLqiRsp in Hparse. rewrite Hp in Hparse. cbv zeta in Hparse.
  destruct (at_ (parts_of message) 3); [|done]. cbn [defined bind] in Hparse.
  unfold neighbors_for in Hparse.
  destruct (iterations _) as [n|]; [|done].
  destruct (neighbors _ _ _ _) as [l'| |] eqn:Hn; [|done|done]. cbn [bind] in Hparse.
  injection Hparse as <- <- <- <- <- <-.
  eapply neighbors_have_pan; [exact Hn|constructor].
Qed.

(** X12. What [sendZdo] hands back once its command is answered.  For a
    node descriptor, active endpoints, simple descriptor, IEEE address or
    LQI request the answer the queue accepts has the variant the conversion
    expects, so the call returns the status of the answer and a response
    built from it; for a bind, unbind or leave request, whatever answered,
    it returns status 0 and no response. *)
Theorem sendZdo_return_by_cluster (clusterId : ZdoClusterId) (networkAddress seq : Number)
        (payload : Buffer.t) (command message : string) (matcher : CommandMatcher)
        (response : ParsedMessage) :
  request networkAddress clusterId payload seq = Ok (command, matcher) ->
  parse message = Ok response -> matcher response = true ->
  if converted clusterId
  then exists status z,
         sendZdo_return clusterId response = Ok (status, Some z)
         /\ status_of response = Some status
  else sendZdo_return clusterId response = Ok (Int 0, None).
Proof.
  intros Hreq Hparse Hm.
  destruct clusterId; cbn [converted].
  1-5: cbn [request] in Hreq; injection Hreq as _ <-;
       unfold type_is in Hm; destruct response; try discriminate Hm.
  - by eexists _, _.
  - by eexists _, _.
  - by eexists _, _.
  - by eexists _, _.
  - cbn [sendZdo_return].
    destruct (mapM_lqi_entry neighborTableList (parsed_lqi_has_pan _ _ _ _ _ _ _ Hparse))
      as (entries & -> & _).
    cbn [bind]. by eexists _, _.
  - by destruct response.
  - by destruct response.
  - by destruct response.
  - by destruct response.
Qed.

Lemma sendZdo_return_by_cluster_witness :
  exists status z,
  sendZdo_return ACTIVE_ENDPOINTS_REQUEST (activeEpRsp (Int 97) (Int 3) (Int 0) [Int 1; Int 242])
  = Ok (status, Some z)
  /\ status_of (activeEpRsp (Int 97) (Int 3) (Int 0) [Int 1; Int 242]) = Some status.
Proof.
  exact (sendZdo_return_by_cluster ACTIVE_ENDPOINTS_REQUEST (Int 3) (Int 1) []
           (COMMANDS.ZDP_ACTIVE_EP_REQ (Int 3) (Int 1))
           "[Zdp,ReceivedActiveEndPointRsp,97,S=0x0003.0,0,3,2,1,242]"
           (type_is T_activeEpRsp)
           (activeEpRsp (Int 97) (Int 3) (Int 0) [Int 1; Int 242])
           eq_refl eq_refl eq_refl).
Defined.

Lemma testbit_ToInt32 (z i : Z) :
  0 <= i < 32 -> Z.testbit (ToInt32 (Int z)) i = Z.testbit z i.
Proof.
  intros Hi. cbn [ToInt32]. cbv zeta.
  change 4294967296 with (2 ^ 32).
  destruct (2147483648 <=? z mod 2 ^ 32).
  - rewrite <- (Z.mod_pow2_bits_low (z mod 2 ^ 32 - 2 ^ 32) 32 i) by lia.
    replace (z mod 2 ^ 32 - 2 ^ 32) with (z mod 2 ^ 32 + (-1) * 2 ^ 32) by lia.
    rewrite Z.mod_add by lia. rewrite Z.mod_mod by lia.
    apply Z.mod_pow2_bits_low. lia.
  - apply Z.mod_pow2_bits_low. lia.
Qed.

(** [(capability >> n) & 1] is bit [n] of the capability. *)
Lemma flag_bit (c n : Z) :
  0 <= n < 32 -> flag (Int c) n = Int (Z.b2z (Z.testbit c n)).
Proof.
  intros Hn. unfold flag, bitand, shr. f_equal.
  change (ToInt32 (Int 1)) with (Z.ones 1). rewrite Z.land_ones by lia.
  change (2 ^ 1) with 2. rewrite <- Z.bit0_mod.
  rewrite testbit_ToInt32 by lia. f_equal.
  rewrite Z.shiftr_spec by lia. rewrite Z.add_0_l.
  assert (Hlow : Z.land (ToInt32 (Int n)) 31 = n).
  { change 31 with (Z.ones 5). rewrite Z.land_ones by lia.
    apply Z.bits_inj'. intros k Hk.
    destruct (Z.lt_ge_cases k 5) as [Hlt|Hge].
    - rewrite Z.mod_pow2_bits_low by lia. apply testbit_ToInt32. lia.
    - rewrite Z.mod_pow2_bits_high by lia. symmetry.
      apply Z.bits_above_log2; [lia|].
      destruct (Z.eq_dec n 0) as [->|]; [simpl; lia|].
      apply Z.log2_lt_pow2; [lia|]. 
      assert (2 ^ 5 <= 2 ^ k) by (apply Z.pow_le_mono_r; lia). 
      change (2 ^ 5) with 32 in *. lia. }
  rewrite Hlow. by apply testbit_ToInt32.
Qed.

(** X13. The node descriptor [sendZdo] returns: the capability flags are
    bits 1, 2, 3, 6 and 7 of the capability field of the response (the
    other flags are 0), both transfer sizes are the one size of the
    response, and the status is passed on. *)
Theorem node_descriptor_response (seq networkAddress status : Number) (c : Z)
        (logicalType manufacturerCode maxBufferSize maxTransferSize : Number) :
  sendZdo_return NODE_DESCRIPTOR_REQUEST
    (nodeDescRsp seq networkAddress status
       {| NodeDescriptor.logicalType := logicalType;
          NodeDescriptor.capability := Int c;
          NodeDescriptor.manufacturerCode := manufacturerCode;
          NodeDescriptor.maxBufferSize := maxBufferSize;
          NodeDescriptor.maxTransferSize := maxTransferSize |})
  = Ok (status,
        Some (ZdoResponse.NodeDescriptorResponse networkAddress logicalType false
                (Int 0) (Int 0)
                {| ZdoResponse.alternatePANCoordinator := Int 0;
                   ZdoResponse.deviceType := Int (Z.b2z (Z.testbit c 1));
                   ZdoResponse.powerSource := Int (Z.b2z (Z.testbit c 2));
                   ZdoResponse.rxOnWhenIdle := Int (Z.b2z (Z.testbit c 3));
                   ZdoResponse.reserved1 := Int 0;
                   ZdoResponse.reserved2 := Int 0;
                   ZdoResponse.securityCapability := Int (Z.b2z (Z.testbit c 6));
                   ZdoResponse.allocateAddress := Int (Z.b2z (Z.testbit c 7)) |}
                manufacturerCode maxBufferSize maxTransferSize
                {| ZdoResponse.primaryTrustCenter := Int 0;
                   ZdoResponse.backupTrustCenter := Int 0;
                   ZdoResponse.deprecated1 := Int 0;
                   ZdoResponse.deprecated2 := Int 0;
                   ZdoResponse.deprecated3 := Int 0;
                   ZdoResponse.deprecated4 := Int 0;
                   ZdoResponse.networkManager := Int 0;
                   ZdoResponse.mask_reserved1 := Int 0;
                   ZdoResponse.mask_reserved2 := Int 0;
                   ZdoResponse.stackComplianceRevision := Int 0 |}
                maxTransferSize (Int 0) [])).
Proof.
  cbn [sendZdo_return NodeDescriptor.capability NodeDescriptor.logicalType
       NodeDescriptor.manufacturerCode NodeDescriptor.maxBufferSize
       NodeDescriptor.maxTransferSize].
  cbv zeta. by rewrite !flag_bit by lia.
Qed.

(** X14. The address [sendZdo] returns for an IEEE address request is
    "0x" put before the [ieee] field of the answer, which [parse] has
    already begun with "0x": the result begins with "0x0x", or is "0x"
    alone when the answer held no "L=" field. *)
Theorem ieee_address_response_eui64 (message : string) (status networkAddress : Number)
        (ieee : string) :
  parse message = Ok (address status ieee networkAddress) ->
  exists eui64,
  sendZdo_return IEEE_ADDRESS_REQUEST (address status ieee networkAddress)
  = Ok (status, Some (ZdoResponse.IEEEAddressResponse eui64 networkAddress (Int 0) []))
  /\ (eui64 = "0x" \/ startsWith eui64 "0x0x" = true).
Proof.
  intros Hparse. eexists. split; [reflexivity|].
  assert (Hp : startsWith message MESSAGE_PREFIXES.CONNECTION_GET_ADDRESS = true).
  { unfold parse in Hparse.
    destruct (MessageParser.run blocks message) as [res|] eqn:Hrun; [|done].
    subst res. pose proof (run_typed _ _ _ _ typed_blocks Hrun) as H.
    simpl in H. congruence. }
  rewrite (parse_at T_address _ _ eq_refl Hp) in Hparse. cbn [block_of] in Hparse.
  unfold block_address in Hparse. rewrite Hp in Hparse. cbv zeta in Hparse.
  injection Hparse as _ <- _.
  destruct (match_ message re_ieee) as [m|]; [right|by left].
  exact (prefix_app "0x0x" (toLowerCase (remove_all ":" (capture m 1)))).
Qed.

Lemma ieee_address_response_eui64_witness :
  exists eui64,
  sendZdo_return IEEE_ADDRESS_REQUEST
    (address (Int 0) "0x00178801052d0ab1" (Int 0))
  = Ok (Int 0, Some (ZdoResponse.IEEEAddressResponse eui64 (Int 0) (Int 0) []))
  /\ (eui64 = "0x" \/ startsWith eui64 "0x0x" = true).
Proof.
  exact (ieee_address_response_eui64
           "[Connection,GetAddress,0,L=00:17:88:01:05:2D:0A:B1,S=0x0000.0]"
           (Int 0) (Int 0) "0x00178801052d0ab1" eq_refl).
Defined.

End ZdoMore.

(* ===================================================================== *)
(** * A line arrives: the queue first, then the listener *)
(* ===================================================================== *)

Module Dispatch.
Import JS Runtime CommandQueue HueBridgeAdapter Spec QueueFacts Dynamics.
Import Constants MessageParser Text ParserMore.
Local Open Scope list_scope.

Implicit Types (w : World).

(** No pending command accepts the message: it goes to [processMessages]. *)
Lemma step_data_unconsumed fb message parsed w :
  parse message = Ok parsed -> Forall (rejecting parsed) (pending w) ->
  step fb (Data message) w
  = (let w' := effect (Emit_rxMsg parsed)
                 (set_log (log w ++ (MatcherApplied <$> keys (pending w))) w) in
     uncaught (processMessages fb parsed w') w').
Proof.
  intros Hparse Hrej. cbn [step]. unfold handleMessage. rewrite Hparse. cbn [bind].
  by rewrite (offer_none _ _ _ Hrej).
Qed.

(** A pending command accepts the message: nothing else sees it. *)
Lemma step_data_consumed fb message parsed before id e after w :
  parse message = Ok parsed -> pending w = before ++ (id, e) :: after ->
  Forall (rejecting parsed) before -> PendingCommand.matcher e parsed = true ->
  step fb (Data message) w
  = Some (resolve (PendingCommand.promise e) (VMessage parsed)
            (set_pending (map_delete id (pending w))
               (clearTimeout (PendingCommand.timeout e)
                  (set_log (log w ++ (MatcherApplied <$> keys before) ++ [MatcherApplied id])
                     w)))).
Proof.
  intros Hparse Hp Hrej Hacc. cbn [step]. unfold handleMessage. rewrite Hparse. cbn [bind].
  pose proof (offer_some parsed before id e after w Hrej Hacc) as Ho.
  rewrite <- Hp in Ho. by rewrite Ho.
Qed.

(** C3. A line cut right after the prefix of a node descriptor response
    is neither consumed nor emitted: [handleMessage] throws the
    [TypeError] of the parser before any matcher is applied, whatever is
    pending; the turn of the event loop reports the exception, emits no
    [rxMsg], and leaves the pending commands and the promises as they
    were. *)
Theorem truncated_line_is_not_emitted fb w :
  handleMessage "[Zdp,ReceivedNodeDescRsp" w = Throw (TypeError "parts[3].match")
  /\ exists w',
     step fb (Data "[Zdp,ReceivedNodeDescRsp") w = Some w'
     /\ log w' = log w ++ [Uncaught (TypeError "parts[3].match")]
     /\ rxMsgs (log w') = rxMsgs (log w)
     /\ applied (log w') = applied (log w)
     /\ pending w' = pending w
     /\ promises w' = promises w.
Proof.
  split; [reflexivity|]. eexists. split; [reflexivity|].
  cbn [log effect set_log pending promises].
  unfold rxMsgs, applied. rewrite !omap_app. cbn [omap]. rewrite !app_nil_r.
  by repeat split.
Qed.

(** X15. A command whose matcher accepts everything (a bind, unbind or
    leave request, every command of the initialization) and that heads
    the queue takes the next line the parser can read, whatever it is: the
    command is resolved with it and leaves the queue, and the line reaches
    no listener; no event is emitted, the network parameters and the
    waiters stay as they are. *)
Theorem accept_all_head_takes_line fb (message : string) (parsed : ParsedMessage)
        (id : string) (e : PendingCommand.t) (rest : list (string * PendingCommand.t)) w :
  parse message = Ok parsed -> pending w = (id, e) :: rest ->
  (forall msg, PendingCommand.matcher e msg = true) ->
  exists w',
  step fb (Data message) w = Some w'
  /\ log w' = log w ++ [MatcherApplied id; ClearTimeout (PendingCommand.timeout e);
                        Resolve (PendingCommand.promise e) (VMessage parsed)]
  /\ pending w' = rest
  /\ networkParams w' = networkParams w
  /\ waiters w' = waiters w.
Proof.
  intros Hparse Hp Hacc.
  rewrite (step_data_consumed fb message parsed [] id e rest w Hparse Hp
             (Forall_nil_2 _) (Hacc parsed)).
  eexists. split; [reflexivity|]. unfold resolve.
  rewrite log_settle, pending_settle, waiters_settle.
  split; [|split; [|split]].
  - cbn. by rewrite <- !app_assoc.
  - cbn. rewrite Hp. cbn. by rewrite String.eqb_refl.
  - unfold settle. by destruct (promises _ !! _) as [[]|].
  - reflexivity.
Qed.

Lemma accept_all_head_takes_line_witness :
  let fb : Buffer.t -> option ZclHeader.t := fun _ => None in
  let w := fst (execute "k" "" anyResponseMatcher (Int 5000) (initial 0)) in
  exists w',
  step fb (Data "[Zdp,ReceivedDeviceAnnounce,S=0x0003.0,L=A4:C1:38:E3:B9:14:32:8B,128]") w
  = Some w'
  /\ log w' = log w ++ [MatcherApplied "k"; ClearTimeout 1%nat;
                        Resolve 0%nat
                          (VMessage (deviceAnnounce (Int 3) "0xa4c138e3b914328b" (Int 128)))]
  /\ pending w' = []
  /\ networkParams w' = networkParams w
  /\ waiters w' = waiters w.
Proof.
  exact (accept_all_head_takes_line (fun _ => None)
           "[Zdp,ReceivedDeviceAnnounce,S=0x0003.0,L=A4:C1:38:E3:B9:14:32:8B,128]"
           (deviceAnnounce (Int 3) "0xa4c138e3b914328b" (Int 128))
           "k" (entry_of 0 anyResponseMatcher "") []
           (fst (execute "k" "" anyResponseMatcher (Int 5000) (initial 0)))
           eq_refl eq_refl (fun _ => eq_refl)).
Defined.

(** X16. Network settings reach the adapter only when the line is long
    enough.  A line with the prefix of the network settings that no
    pending command accepts is emitted as [rxMsg]; with an extended PAN id
    (a fifth field) the network parameters are stored, the PAN id read in
    radix 16, the extended PAN id without colons and in lower case, the
    channel and the update id read in radix 10, and announced; without
    one, [processMessages] throws a [TypeError] that nothing catches, and
    the network parameters stay as they were.  The numbers are those the
    fields denote, as long as a double holds them exactly. *)
Theorem network_settings_dispatch fb (message : string) w :
  startsWith message MESSAGE_PREFIXES.BRIDGE_NETWORK_SETTINGS = true ->
  is_exact (parseInt (at_ (parts_of message) 3) 16) = true ->
  is_exact (parseInt (at_ (parts_of message) 5) 0) = true ->
  is_exact (parseInt (at_ (parts_of message) 6) 0) = true ->
  (forall parsed, parse message = Ok parsed -> Forall (rejecting parsed) (pending w)) ->
  exists parsed w',
  parse message = Ok parsed
  /\ step fb (Data message) w = Some w'
  /\ match at_ (parts_of message) 4 with
     | Some extendedPanId =>
       let params :=
         {| NetworkParameters.panID := parseInt (at_ (parts_of message) 3) 16;
            NetworkParameters.extendedPanID :=
              Some (toLowerCase (remove_all ":" extendedPanId));
            NetworkParameters.channel := parseInt (at_ (parts_of message) 5) 0;
            NetworkParameters.nwkUpdateID := parseInt (at_ (parts_of message) 6) 0 |} in
       networkParams w' = Some params
       /\ log w' = log w ++ (MatcherApplied <$> keys (pending w))
                         ++ [Emit_rxMsg parsed; Emit_internalNetworkSettings params]
     | None =>
       networkParams w' = networkParams w
       /\ log w' = log w ++ (MatcherApplied <$> keys (pending w))
                         ++ [Emit_rxMsg parsed;
                             Uncaught (TypeError "msg.extendedPanId.replace")]
     end.
Proof.
  intros Hp _ _ _ Hrej.
  pose proof (parse_at T_networkSettings _ message eq_refl Hp) as Hparse.
  cbn [block_of] in Hparse. unfold block_networkSettings in Hparse.
  rewrite Hp in Hparse. cbv zeta in Hparse.
  pose proof (step_data_unconsumed fb _ _ w Hparse (Hrej _ Hparse)) as Hstep.
  cbv zeta in Hstep. cbn [processMessages] in Hstep.
  destruct (at_ (parts_of message) 4) as [ext|]; cbn [defined bind uncaught] in Hstep;
    (eexists _, _; split; [exact Hparse|]; split; [exact Hstep|]).
  - split; [reflexivity|]. cbn. by rewrite <- !app_assoc.
  - split; [reflexivity|]. cbn. by rewrite <- !app_assoc.
Qed.

Lemma network_settings_dispatch_witness :
  let fb : Buffer.t -> option ZclHeader.t := fun _ => None in
  let message := "[Bridge,NetworkSettings,True,0xE783,00:17:88:01:0B:5D:BB:65,11,0]" in
  let params :=
    {| NetworkParameters.panID := Int 59267;
       NetworkParameters.extendedPanID := Some "001788010b5dbb65";
       NetworkParameters.channel := Int 11;
       NetworkParameters.nwkUpdateID := Int 0 |} in
  exists parsed w',
  parse message = Ok parsed
  /\ step fb (Data message) (initial 0) = Some w'
  /\ networkParams w' = Some params
  /\ log w' = log (initial 0) ++ (MatcherApplied <$> keys (pending (initial 0)))
                  ++ [Emit_rxMsg parsed; Emit_internalNetworkSettings params].
Proof.
  exact (network_settings_dispatch (fun _ => None)
           "[Bridge,NetworkSettings,True,0xE783,00:17:88:01:0B:5D:BB:65,11,0]"
           (initial 0) eq_refl eq_refl eq_refl eq_refl (fun _ _ => Forall_nil_2 _)).
Defined.

(** X17. What the adapter makes of a line no pending command accepts,
    while no waiter is registered: it is emitted as [rxMsg]; a device
    announcement is then announced as [deviceJoined] with its network and
    IEEE address; a ZCL indication is emitted as [zclPayload] with the
    source address and endpoint, the cluster, the bytes the hexadecimal
    payload decodes to (a last digit without a partner is dropped), the
    header read from those bytes, link quality 255 and the destination
    endpoint; any other message but the network settings changes nothing
    more. *)
Theorem unsolicited_line_dispatch fb (message : string) (parsed : ParsedMessage) w :
  parse message = Ok parsed -> Forall (rejecting parsed) (pending w) -> waiters w = [] ->
  type_of parsed <> T_networkSettings ->
  exists w',
  step fb (Data message) w = Some w'
  /\ pending w' = pending w /\ promises w' = promises w /\ timers w' = timers w
  /\ networkParams w' = networkParams w
  /\ log w'
     = log w ++ (MatcherApplied <$> keys (pending w)) ++ Emit_rxMsg parsed
         :: match parsed with
            | deviceAnnounce networkAddress ieee _ => [Emit_deviceJoined networkAddress ieee]
            | zclInd source dest clusterId payload =>
              [Emit_zclPayload
                 {| ZclPayload.clusterID := clusterId;
                    ZclPayload.address := EndpointAddress.address source;
                    ZclPayload.endpoint := EndpointAddress.endpoint source;
                    ZclPayload.data := Buffer.from payload;
                    ZclPayload.header := fb (Buffer.from payload);
                    ZclPayload.linkquality := Int 255;
                    ZclPayload.groupID := Int 0;
                    ZclPayload.wasBroadcast := false;
                    ZclPayload.destinationEndpoint := EndpointAddress.endpoint dest |}]
            | _ => []
            end.
Proof.
  intros Hparse Hrej Hw Hns.
  rewrite (step_data_unconsumed fb _ _ w Hparse Hrej). cbv zeta.
  destruct parsed; try done; cbn [processMessages uncaught].
  all: try (eexists; split; [reflexivity|]; repeat split; cbn; by rewrite <- ?app_assoc).
  unfold Waitress.resolve. cbn [waiters set_log effect]. rewrite Hw. cbn [Waitress.offer].
  eexists; split; [reflexivity|]. repeat split; cbn; by rewrite <- ?app_assoc.
Qed.

Lemma unsolicited_line_dispatch_witness :
  let fb : Buffer.t -> option ZclHeader.t := fun _ => None in
  let message := "[Zcl,Ind,S=0x0003.1,S=0x0001.64,25,18010A0000201]" in
  let parsed :=
    zclInd {| EndpointAddress.address := Int 3; EndpointAddress.endpoint := Int 1 |}
           {| EndpointAddress.address := Int 1; EndpointAddress.endpoint := Int 64 |}
           (Int 25) "18010A0000201" in
  let bytes := [Byte.x18; Byte.x01; Byte.x0a; Byte.x00; Byte.x00; Byte.x20] in
  exists w',
  step fb (Data message) (initial 0) = Some w'
  /\ pending w' = pending (initial 0) /\ promises w' = promises (initial 0)
  /\ timers w' = timers (initial 0)
  /\ networkParams w' = networkParams (initial 0)
  /\ log w'
     = log (initial 0) ++ (MatcherApplied <$> keys (pending (initial 0))) ++ Emit_rxMsg parsed
         :: [Emit_zclPayload
               {| ZclPayload.clusterID := Int 25;
                  ZclPayload.address := Int 3;
                  ZclPayload.endpoint := Int 1;
                  ZclPayload.data := bytes;
                  ZclPayload.header := fb bytes;
                  ZclPayload.linkquality := Int 255;
                  ZclPayload.groupID := Int 0;
                  ZclPayload.wasBroadcast := false;
                  ZclPayload.destinationEndpoint := Int 64 |}].
Proof.
  exact (unsolicited_line_dispatch (fun _ => None)
           "[Zcl,Ind,S=0x0003.1,S=0x0001.64,25,18010A0000201]"
           (zclInd {| EndpointAddress.address := Int 3; EndpointAddress.endpoint := Int 1 |}
                   {| EndpointAddress.address := Int 1; EndpointAddress.endpoint := Int 64 |}
                   (Int 25) "18010A0000201")
           (initial 0) eq_refl (Forall_nil_2 _) eq_refl ltac:(discriminate)).
Defined.

End Dispatch.

(* ===================================================================== *)
(** * The asynchronous calls of the adapter against an answering bridge *)
(* ===================================================================== *)

Module Calls.
Import JS Runtime CommandQueue HueBridgeAdapter Spec QueueFacts Dynamics.
Import Constants MessageParser Text ParserMore Dispatch.
Local Open Scope list_scope.

Implicit Types (w : World).

(** A command that is not empty, registered under a key new to the map:
    the entry goes last, the command goes out. *)
Lemma execute_appended id command matcher timeoutMs w :
  id ∉ keys (pending w) -> command <> "" ->
  pending (fst (execute id command matcher timeoutMs w))
  = pending w ++ [(id, entry_of (next w) matcher command)]
  /\ promises (fst (execute id command matcher timeoutMs w)) !! next w = Some Unsettled
  /\ log (fst (execute id command matcher timeoutMs w))
     = log w ++ [Wrote (terminated command)]
  /\ waiters (fst (execute id command matcher timeoutMs w)) = waiters w
  /\ snd (execute id command matcher timeoutMs w) = next w.
Proof.
  intros Hid Hc.
  destruct (execute_fields id command matcher timeoutMs w)
    as (Hp & Hpe & Hpr & _ & _ & _ & Hlog & Hwa & _).
  apply String.eqb_neq in Hc. rewrite Hc in Hlog.
  rewrite Hpe, Hpr, Hlog, Hwa, Hp, lookup_insert_eq.
  by rewrite (map_set_fresh _ _ _ Hid).
Qed.

(** The entry registered last is answered when the ones before refuse. *)
Lemma answered_last fb message parsed id e w :
  parse message = Ok parsed ->
  Forall (rejecting parsed) (pending w) -> id ∉ keys (pending w) ->
  PendingCommand.matcher e parsed = true ->
  forall w1,
  pending w1 = pending w ++ [(id, e)] ->
  promises w1 !! PendingCommand.promise e = Some Unsettled ->
  exists w2,
  step fb (Data message) w1 = Some w2
  /\ promises w2 !! PendingCommand.promise e = Some (Fulfilled (VMessage parsed))
  /\ pending w2 = pending w
  /\ written (log w2) = written (log w1)
  /\ rxMsgs (log w2) = rxMsgs (log w1).
Proof.
  intros Hparse Hrej Hid Hacc w1 Hp1 Hun.
  rewrite (step_data_consumed fb message parsed (pending w) id e [] w1 Hparse Hp1 Hrej Hacc).
  eexists. split; [reflexivity|]. unfold resolve.
  rewrite lookup_settle, pending_settle, log_settle.
  rewrite decide_True by done.
  split; [|split; [|split]].
  - cbn. cbn in Hun. by rewrite Hun.
  - cbn. rewrite Hp1, map_delete_middle by done. apply app_nil_r.
  - cbn. unfold written. rewrite !omap_app.
    rewrite (observe_applied _ (keys (pending w))) by done. cbn.
    by rewrite !app_nil_r.
  - cbn. unfold rxMsgs. rewrite !omap_app.
    rewrite (observe_applied _ (keys (pending w))) by done. cbn.
    by rewrite !app_nil_r.
Qed.

(** A call that sends one command and awaits its acknowledgement. *)
Lemma acknowledged fb (id command message : string) (status sequence : Number) w :
  parse message = Ok (zclReq status sequence) ->
  Forall (rejecting (zclReq status sequence)) (pending w) -> id ∉ keys (pending w) ->
  command <> "" ->
  let call := execute id command (type_is T_zclReq) (Int DEFAULT_TIMEOUT) w in
  log (fst call) = log w ++ [Wrote (terminated command)]
  /\ waiters (fst call) = waiters w
  /\ await_last (snd call) (fst call) = None
  /\ exists w2,
     step fb (Data message) (fst call) = Some w2
     /\ await_last (snd call) w2 = Some (Ok tt).
Proof.
  intros Hparse Hrej Hid Hc call.
  destruct (execute_appended id command (type_is T_zclReq) (Int DEFAULT_TIMEOUT) w Hid Hc)
    as (Hpe & Hpr & Hlog & Hwa & Hp).
  fold call in Hpe, Hpr, Hlog, Hwa, Hp.
  split; [done|]. split; [done|]. unfold await_last. rewrite Hp, Hpr. split; [done|].
  destruct (answered_last fb message _ id (entry_of (next w) (type_is T_zclReq) command) w
              Hparse Hrej Hid eq_refl (fst call) Hpe Hpr) as (w2 & Hstep & Hful & _).
  exists w2. split; [done|]. cbn in Hful. by rewrite Hful.
Qed.

(** X18. A group or broadcast frame is done with the acknowledgement
    alone.  [sendZclFrameToGroup] and [sendZclFrameToAll] write one line
    (the source endpoint is 64 when none, or 0, is given), register no
    waiter, and return as soon as a "[Zcl,Req" acknowledgement reaches
    their command, whatever status it carries; no confirmation is
    awaited. *)
Theorem group_send_returns_on_ack fb (id message : string) (status sequence : Number)
        (groupID endpoint source destination : Number) (zclFrame : ZclFrame.t)
        (sourceEndpoint profileId : option Number) w :
  parse message = Ok (zclReq status sequence) ->
  Forall (rejecting (zclReq status sequence)) (pending w) -> id ∉ keys (pending w) ->
  let group := sendZclFrameToGroup id groupID zclFrame sourceEndpoint profileId w in
  let all := sendZclFrameToAll id endpoint zclFrame source destination profileId w in
  (log (fst group)
   = log w ++ [Wrote (terminated
                        (COMMANDS.ZCL_REQ_GROUP groupID (ZclFrame.clusterID zclFrame)
                           (toUpperCase (ZclFrame.hex zclFrame)) (or_64 sourceEndpoint)))]
   /\ waiters (fst group) = waiters w
   /\ await_last (snd group) (fst group) = None
   /\ exists w2,
      step fb (Data message) (fst group) = Some w2
      /\ await_last (snd group) w2 = Some (Ok tt))
  /\ (log (fst all)
      = log w ++ [Wrote (terminated
                           (COMMANDS.ZCL_REQ_BROADCAST destination endpoint
                              (or_64 (Some source)) (ZclFrame.clusterID zclFrame)
                              (toUpperCase (ZclFrame.hex zclFrame))))]
      /\ waiters (fst all) = waiters w
      /\ await_last (snd all) (fst all) = None
      /\ exists w2,
         step fb (Data message) (fst all) = Some w2
         /\ await_last (snd all) w2 = Some (Ok tt)).
Proof.
  intros Hparse Hrej Hid group all. split.
  - by apply (acknowledged fb id _ message status sequence w Hparse Hrej Hid).
  - by apply (acknowledged fb id _ message status sequence w Hparse Hrej Hid).
Qed.

Lemma group_send_returns_on_ack_witness :
  let fb : Buffer.t -> option ZclHeader.t := fun _ => None in
  let zclFrame := {| ZclFrame.hex := "110001"; ZclFrame.clusterID := Int 6;
                     ZclFrame.response := None;
                     ZclFrame.transactionSequenceNumber := Int 0;
                     ZclFrame.disableDefaultResponse := true |} in
  let w := initial 0 in
  let group := sendZclFrameToGroup "k" (Int 27627) zclFrame None None w in
  let all := sendZclFrameToAll "k" (Int 255) zclFrame (Int 0) (Int 65533) None w in
  (log (fst group)
   = log w ++ [Wrote (terminated
                        (COMMANDS.ZCL_REQ_GROUP (Int 27627) (Int 6)
                           (toUpperCase "110001") (or_64 None)))]
   /\ waiters (fst group) = waiters w
   /\ await_last (snd group) (fst group) = None
   /\ exists w2,
      step fb (Data "[Zcl,Req,1,21]") (fst group) = Some w2
      /\ await_last (snd group) w2 = Some (Ok tt))
  /\ (log (fst all)
      = log w ++ [Wrote (terminated
                           (COMMANDS.ZCL_REQ_BROADCAST (Int 65533) (Int 255)
                              (or_64 (Some (Int 0))) (Int 6) (toUpperCase "110001")))]
      /\ waiters (fst all) = waiters w
      /\ await_last (snd all) (fst all) = None
      /\ exists w2,
         step fb (Data "[Zcl,Req,1,21]") (fst all) = Some w2
         /\ await_last (snd all) w2 = Some (Ok tt)).
Proof.
  apply (group_send_returns_on_ack (fun _ => None) "k" "[Zcl,Req,1,21]" (Int 1) (Int 21)).
  - reflexivity.
  - constructor.
  - cbn. apply not_elem_of_nil.
Defined.

(** The first command of a quiet queue: alone in the map. *)
Lemma execute_alone id command matcher timeoutMs w :
  pending w = [] -> command <> "" ->
  let call := execute id command matcher timeoutMs w in
  pending (fst call) = [(id, entry_of (snd call) matcher command)]
  /\ promises (fst call) !! snd call = Some Unsettled
  /\ log (fst call) = log w ++ [Wrote (terminated command)]
  /\ waiters (fst call) = waiters w
  /\ snd call = next w
  /\ (next w < next (fst call))%nat.
Proof.
  intros Hq Hc call.
  assert (Hid : id ∉ keys (pending w)) by (rewrite Hq; apply not_elem_of_nil).
  destruct (execute_appended id command matcher timeoutMs w Hid Hc)
    as (Hpe & Hpr & Hlog & Hwa & Hp).
  destruct (execute_fields id command matcher timeoutMs w)
    as (_ & _ & _ & _ & _ & Hn & _).
  fold call in Hpe, Hpr, Hlog, Hwa, Hp, Hn.
  rewrite Hp, Hpe, Hq. repeat split; try done.
  rewrite Hn. destruct (String.eqb command ""); lia.
Qed.

(** The command alone in the map is answered by a line it accepts. *)
Lemma answered_alone fb message parsed id e w :
  parse message = Ok parsed -> pending w = [(id, e)] ->
  PendingCommand.matcher e parsed = true ->
  promises w !! PendingCommand.promise e = Some Unsettled ->
  exists w2,
  step fb (Data message) w = Some w2
  /\ promises w2 !! PendingCommand.promise e = Some (Fulfilled (VMessage parsed))
  /\ pending w2 = []
  /\ written (log w2) = written (log w)
  /\ rxMsgs (log w2) = rxMsgs (log w)
  /\ next w2 = next w.
Proof.
  intros Hparse Hp Hacc Hun.
  rewrite (step_data_consumed fb message parsed [] id e [] w Hparse Hp (Forall_nil_2 _) Hacc).
  eexists. split; [reflexivity|]. unfold resolve.
  rewrite lookup_settle, pending_settle, log_settle, next_settle.
  rewrite decide_True by done.
  split; [|split; [|split; [|split]]].
  - cbn. cbn in Hun. by rewrite Hun.
  - cbn. rewrite Hp. cbn. by rewrite String.eqb_refl.
  - cbn. unfold written. rewrite !omap_app. cbn. by rewrite !app_nil_r.
  - cbn. unfold rxMsgs. rewrite !omap_app. cbn. by rewrite !app_nil_r.
  - reflexivity.
Qed.

Lemma written_app l1 l2 : written (l1 ++ l2) = written l1 ++ written l2.
Proof. apply omap_app. Qed.

Lemma rxMsgs_app l1 l2 : rxMsgs (l1 ++ l2) = rxMsgs l1 ++ rxMsgs l2.
Proof. apply omap_app. Qed.

(** X19. [permitJoin] against a bridge that answers, while no other
    command is pending: the commissioning command goes out first; a line
    the parser recognises does not answer it, only a line of unknown type
    does; then the permit-joining command goes out, and the call returns
    on the first "[Zdp,JoinPermitted" line, whether it says True or not.
    Neither answer reaches a listener. *)
Theorem permitJoin_sequence fb (id1 id2 id3 l1 l2 raw : string) (permitted : bool)
        (seconds : Number) (networkAddress : option Number) w :
  reachable fb w -> pending w = [] ->
  parse l1 = Ok (unknown raw) -> parse l2 = Ok (joinPermitted permitted) ->
  let first := permitJoin id1 seconds networkAddress w in
  log (fst first) = log w ++ [Wrote (terminated (COMMANDS.ZGP_COMMISSIONING_ENTER seconds))]
  /\ (forall l0 parsed0 w',
        parse l0 = Ok parsed0 -> type_of parsed0 <> T_unknown ->
        step fb (Data l0) (fst first) = Some w' ->
        permitJoin_resume id2 (snd first) w' = (w', snd first))
  /\ exists w2 w4,
     step fb (Data l1) (fst first) = Some w2
     /\ let second := permitJoin_resume id2 (snd first) w2 in
        written (log (fst second))
        = written (log w)
            ++ [terminated (COMMANDS.ZGP_COMMISSIONING_ENTER seconds);
                terminated (COMMANDS.ZDP_PERMIT_JOINING seconds networkAddress)]
        /\ step fb (Data l2) (fst second) = Some w4
        /\ permitJoin_resume id3 (snd second) w4 = (w4, PermitJoinReturned)
        /\ rxMsgs (log w4) = rxMsgs (log w).
Proof.
  intros Hreach Hq Hl1 Hl2 first. unfold permitJoin in first.
  destruct (execute_alone id1 (COMMANDS.ZGP_COMMISSIONING_ENTER seconds) (type_is T_unknown)
              (Int DEFAULT_TIMEOUT) w Hq ltac:(done))
    as (Hpe & Hpr & Hlog & Hwa & Hp & Hn).
  destruct (execute id1 (COMMANDS.ZGP_COMMISSIONING_ENTER seconds) (type_is T_unknown)
              (Int DEFAULT_TIMEOUT) w) as [w1 p] eqn:Hex.
  cbn [fst snd] in *. subst first. cbn [fst snd]. split; [done|]. split.
  { intros l0 parsed0 w' Hparse0 Htype Hstep. cbn [permitJoin_resume].
    apply step_inv in Hstep.
    destruct (Step_promise _ _ _ p Hstep ltac:(lia)) as [Heq|(_ & s & _ & Hset)].
    { by rewrite Heq, Hpr. }
    exfalso. inversion Hset as [message parsed k e Hparse Hin Hpp Hm|message x payload Hin Hx
                               | | | | ]; subst.
    - rewrite Hpe in Hin. apply list_elem_of_singleton in Hin as [= -> ->].
      rewrite Hparse0 in Hparse. injection Hparse as <-.
      cbn in Hm. unfold type_is in Hm. by destruct parsed0.
    - rewrite Hwa in Hin.
      destruct (reachable_below fb w Hreach) as [_ HX _ _].
      destruct (HX _ Hin). lia. }
  destruct (answered_alone fb l1 (unknown raw) id1 _ w1 Hl1 Hpe eq_refl Hpr)
    as (w2 & Hstep2 & Hful2 & Hq2 & Hwr2 & Hrx2 & Hn2).
  cbn [PendingCommand.promise entry_of] in Hful2.
  destruct (execute_alone id2 (COMMANDS.ZDP_PERMIT_JOINING seconds networkAddress)
              (type_is T_joinPermitted) (Int DEFAULT_TIMEOUT) w2 Hq2
              ltac:(by destruct networkAddress as [[|z]|]))
    as (Hpe3 & Hpr3 & Hlog3 & _ & Hp3 & _).
  assert (Hsecond : permitJoin_resume id2 (AwaitCommissioning seconds networkAddress p) w2
                    = (let call := execute id2
                                     (COMMANDS.ZDP_PERMIT_JOINING seconds networkAddress)
                                     (type_is T_joinPermitted) (Int DEFAULT_TIMEOUT) w2 in
                       (fst call, AwaitJoinPermitted (snd call)))).
  { cbn [permitJoin_resume]. rewrite Hful2. by destruct (execute _ _ _ _ _). }
  destruct (execute id2 (COMMANDS.ZDP_PERMIT_JOINING seconds networkAddress)
              (type_is T_joinPermitted) (Int DEFAULT_TIMEOUT) w2) as [w3 p3] eqn:Hex3.
  cbn [fst snd] in *.
  destruct (answered_alone fb l2 (joinPermitted permitted) id2 _ w3 Hl2 Hpe3 eq_refl Hpr3)
    as (w4 & Hstep4 & Hful4 & _ & Hwr4 & Hrx4 & _).
  cbn [PendingCommand.promise entry_of] in Hful4.
  exists w2, w4. split; [done|]. rewrite Hsecond. cbn [fst snd].
  split; [|split; [done|split]].
  - rewrite Hlog3, written_app, Hwr2, Hlog, written_app. cbn. by rewrite <- app_assoc.
  - cbn [permitJoin_resume]. by rewrite Hful4.
  - rewrite Hrx4, Hlog3, rxMsgs_app, Hrx2, Hlog, rxMsgs_app. cbn. by rewrite !app_nil_r.
Qed.

Lemma permitJoin_sequence_witness :
  let fb : Buffer.t -> option ZclHeader.t := fun _ => None in
  let w := fst (nextSequence (initial 0)) in
  let first := permitJoin "a" (Int 60) (Some (Int 0)) w in
  log (fst first) = log w ++ [Wrote (terminated (COMMANDS.ZGP_COMMISSIONING_ENTER (Int 60)))]
  /\ (forall l0 parsed0 w',
        parse l0 = Ok parsed0 -> type_of parsed0 <> T_unknown ->
        step fb (Data l0) (fst first) = Some w' ->
        permitJoin_resume "b" (snd first) w' = (w', snd first))
  /\ exists w2 w4,
     step fb (Data "[Zgp,CommissioningEnter,0]") (fst first) = Some w2
     /\ let second := permitJoin_resume "b" (snd first) w2 in
        written (log (fst second))
        = written (log w)
            ++ [terminated (COMMANDS.ZGP_COMMISSIONING_ENTER (Int 60));
                terminated (COMMANDS.ZDP_PERMIT_JOINING (Int 60) (Some (Int 0)))]
        /\ step fb (Data "[Zdp,JoinPermitted,False]") (fst second) = Some w4
        /\ permitJoin_resume "c" (snd second) w4 = (w4, PermitJoinReturned)
        /\ rxMsgs (log w4) = rxMsgs (log w).
Proof.
  exact (permitJoin_sequence (fun _ => None) "a" "b" "c" "[Zgp,CommissioningEnter,0]"
           "[Zdp,JoinPermitted,False]" "[Zgp,CommissioningEnter,0]" false (Int 60)
           (Some (Int 0)) (fst (nextSequence (initial 0)))
           (ex_intro _ 0 (ex_intro _ [Call_nextSequence] eq_refl)) eq_refl eq_refl eq_refl).
Defined.

Import Bridge.

Lemma init_loop fb (answers : list (string * string)) :
  forall (cs : list string) (c id : string) (p : nat) w,
  pending w = [(id, entry_of p anyResponseMatcher c)] ->
  promises w !! p = Some Unsettled ->
  Forall (fun a => readable (fst a)) answers -> Forall (fun c => c <> "") cs ->
  (List.length answers <= S (List.length cs))%nat ->
  exists w' call,
  init_answered fb answers (AwaitInit p cs) w = Some (w', call)
  /\ written (log w') = written (log w) ++ (terminated <$> take (List.length answers) cs)
  /\ rxMsgs (log w') = rxMsgs (log w)
  /\ if decide (List.length answers = S (List.length cs))
     then call = InitReturned
     else exists p', call = AwaitInit p' (skipn (List.length answers) cs).
Proof.
  induction answers as [|[l id'] answers IH]; intros cs c id p w Hpe Hpr Hans Hcs Hlen.
  - exists w, (AwaitInit p cs). split; [done|]. cbn. rewrite app_nil_r.
    split; [done|]. split; [done|]. rewrite decide_False by lia. by exists p.
  - apply Forall_cons in Hans as [[parsed Hparse] Hans]. cbn [fst] in Hparse.
    destruct (answered_alone fb l parsed id _ w Hparse Hpe eq_refl Hpr)
      as (w2 & Hstep & Hful & Hq2 & Hwr2 & Hrx2 & _).
    cbn [PendingCommand.promise entry_of] in Hful.
    cbn [init_answered]. rewrite Hstep. cbn [init_resume]. rewrite Hful.
    destruct cs as [|c' cs'].
    + cbn [init_continue]. destruct answers as [|a answers]; [|simpl in Hlen; lia].
      exists w2, InitReturned. cbn. rewrite app_nil_r. done.
    + cbn [init_continue]. apply Forall_cons in Hcs as [Hc' Hcs].
      destruct (execute_alone id' c' anyResponseMatcher (Int DEFAULT_TIMEOUT) w2 Hq2 Hc')
        as (Hpe3 & Hpr3 & Hlog3 & _).
      destruct (execute id' c' anyResponseMatcher (Int DEFAULT_TIMEOUT) w2) as [w3 p3].
      cbn [fst snd] in *.
      destruct (IH cs' c' id' p3 w3 Hpe3 Hpr3 Hans Hcs ltac:(simpl in Hlen; lia))
        as (w' & call & Hrun & Hwr & Hrx & Hcall).
      exists w', call. split; [done|].
      split; [|split].
      * rewrite Hwr, Hlog3, written_app, Hwr2. cbn. by rewrite <- app_assoc.
      * rewrite Hrx, Hlog3, rxMsgs_app, Hrx2. cbn. by rewrite app_nil_r.
      * cbn [List.length skipn].
        destruct (decide (List.length answers = S (List.length cs'))) as [Heq|Hne].
        -- rewrite decide_True by lia. done.
        -- rewrite decide_False by lia. done.
Qed.

Lemma initialization_nonempty : Forall (fun c => c <> "") initialization.
Proof.
  apply Forall_forall. intros c Hc.
  assert (H : forallb (fun c => negb (String.eqb c "")) initialization = true)
    by (vm_compute; reflexivity).
  rewrite forallb_forall in H. apply list_elem_of_In in Hc.
  specialize (H c Hc). apply negb_true_iff in H. by apply String.eqb_neq.
Qed.

(** X20. [initializeClustersAndEndpoints] against a bridge that answers:
    its 57 commands go out one at a time, in the order of the source, each
    one only after the one before was answered; any line the parser can
    read answers a command, and none of the answers reaches a listener.
    After the last answer the call returns. *)
Theorem initialization_in_order fb (id : string) (answers : list (string * string)) w :
  pending w = [] -> Forall (fun a => readable (fst a)) answers ->
  (List.length answers <= List.length initialization)%nat ->
  let first := initializeClustersAndEndpoints id w in
  List.length initialization = 57%nat
  /\ exists w' call,
     init_answered fb answers (snd first) (fst first) = Some (w', call)
     /\ written (log w')
        = written (log w) ++ (terminated <$> take (S (List.length answers)) initialization)
     /\ rxMsgs (log w') = rxMsgs (log w)
     /\ if decide (List.length answers = List.length initialization)
        then call = InitReturned
        else exists p, call = AwaitInit p (skipn (S (List.length answers)) initialization).
Proof.
  intros Hq Hans Hlen first. split; [reflexivity|].
  pose proof initialization_nonempty as Hne.
  subst first. unfold initializeClustersAndEndpoints.
  change initialization with (hd "" initialization :: tl initialization) in *.
  set (c0 := hd "" initialization) in *. set (cs0 := tl initialization) in *.
  apply Forall_cons in Hne as [Hc0 Hcs0]. cbn [init_continue].
  destruct (execute_alone id c0 anyResponseMatcher (Int DEFAULT_TIMEOUT) w Hq Hc0)
    as (Hpe & Hpr & Hlog & _).
  destruct (execute id c0 anyResponseMatcher (Int DEFAULT_TIMEOUT) w) as [w1 p1].
  cbn [fst snd] in *.
  cbn [List.length] in Hlen.
  destruct (init_loop fb answers cs0 c0 id p1 w1 Hpe Hpr Hans Hcs0 Hlen)
    as (w' & call & Hrun & Hwr & Hrx & Hcall).
  exists w', call. split; [done|]. split; [|split].
  - rewrite Hwr, Hlog, written_app. cbn. by rewrite <- app_assoc.
  - rewrite Hrx, Hlog, rxMsgs_app. cbn. by rewrite app_nil_r.
  - cbn [List.length skipn].
    destruct (decide (List.length answers = S (List.length cs0))) as [Heq|Hneq]; done.
Qed.

Lemma initialization_in_order_witness :
  let fb : Buffer.t -> option ZclHeader.t := fun _ => None in
  let answers := [("[Zgp,SetGroupId,0]", "b"); ("[TH,Ready,0]", "c")] in
  let w := initial 0 in
  let first := initializeClustersAndEndpoints "a" w in
  List.length initialization = 57%nat
  /\ exists w' call,
     init_answered fb answers (snd first) (fst first) = Some (w', call)
     /\ written (log w')
        = written (log w) ++ (terminated <$> take (S (List.length answers)) initialization)
     /\ rxMsgs (log w') = rxMsgs (log w)
     /\ if decide (List.length answers = List.length initialization)
        then call = InitReturned
        else exists p, call = AwaitInit p (skipn (S (List.length answers)) initialization).
Proof.
  apply (initialization_in_order (fun _ => None) "a"
           [("[Zgp,SetGroupId,0]", "b"); ("[TH,Ready,0]", "c")] (initial 0)).
  - reflexivity.
  - repeat constructor; by eexists.
  - vm_compute. lia.
Defined.

End Calls.

(* ===================================================================== *)
(** * The other ends of a command: answered, or never written *)
(* ===================================================================== *)

Module QueueMore.
Import JS Runtime CommandQueue HueBridgeAdapter Spec QueueFacts Dynamics QueueLife.
Import Constants Text Bridge Dispatch.
Local Open Scope list_scope.

Implicit Types (w : World).

(** A timer that is gone does not come back: handles are not reused. *)
Lemma timer_gone_Step (t : nat) ev w w' :
  (t < next w)%nat -> timers w !! t = None -> Step w ev w' -> timers w' !! t = None.
Proof.
  intros Hlt Hgone HS.
  destruct HS; unfold resolve, reject; rewrite ?timers_settle; simpl;
    rewrite ?lookup_delete_None; auto.
  - destruct (execute_fields id command matcher timeoutMs w) as (_ & _ & _ & -> & _).
    rewrite lookup_insert_ne by lia. done.
  - rewrite reject_all_timers. by destruct (decide _).
  - rewrite lookup_insert_ne by lia. done.
Qed.

Lemma run_reachable fb evs w w' : reachable fb w -> run fb evs w = Some w' -> reachable fb w'.
Proof.
  intros (t0 & evs0 & Hrun0) Hrun. exists t0, (evs0 ++ evs).
  rewrite run_app, Hrun0. exact Hrun.
Qed.

Lemma execute_reachable fb id command matcher timeoutMs w :
  reachable fb w -> reachable fb (fst (execute id command matcher timeoutMs w)).
Proof.
  intros Hreach. apply (run_reachable fb [Call_execute id command matcher timeoutMs] w);
    [done|reflexivity].
Qed.

(** The world a call of [sendZdo] leaves is one the adapter can reach:
    the call is a turn of [nextSequence] and one of [send] or of
    [execute]. *)
Lemma sendZdo_reachable fb id ieeeAddress networkAddress clusterId payload disableResponse
      w w' call :
  reachable fb w ->
  sendZdo id ieeeAddress networkAddress clusterId payload disableResponse w = Ok (w', call) ->
  reachable fb w'.
Proof.
  intros Hreach. unfold sendZdo. cbn [nextSequence].
  destruct (request _ clusterId payload _) as [[command matcher]| |]; cbn [bind]; try done.
  destruct (disableResponse && negb (command =? "")%string).
  - intros [= <- _].
    by apply (run_reachable fb [Call_nextSequence; Call_send command] w).
  - destruct (execute id command matcher (Int Constants.DEFAULT_TIMEOUT) _) as [w1 p] eqn:Hex.
    intros [= <- _].
    apply (run_reachable fb [Call_nextSequence;
                             Call_execute id command matcher (Int Constants.DEFAULT_TIMEOUT)] w);
      [done|]. cbn [run step nextSequence fst]. by rewrite Hex.
Qed.

(** Once the command is settled and its timer gone, both stay so. *)
Definition closed (p : nat) (s : Settlement) w : Prop :=
  (S p < next w)%nat /\ timers w !! S p = None /\ promises w !! p = Some s.

Lemma closed_Step p s ev w w' :
  s <> Unsettled -> closed p s w -> Step w ev w' -> closed p s w'.
Proof.
  intros Hs (Hlt & Htm & Hpr) HS. split; [pose proof (Step_next _ _ _ HS); lia|].
  split; [by eapply timer_gone_Step|]. eapply Step_settled; [exact HS|lia|done|done].
Qed.

Lemma closed_run fb p s evs w w' :
  s <> Unsettled -> closed p s w -> run fb evs w = Some w' ->
  promises w' !! p = Some s /\ step fb (TimerFires (S p)) w' = None.
Proof.
  intros Hs Hc Hrun.
  assert (Hc' : closed p s w').
  { apply (run_invariant fb (closed p s) (fun ev wa wb => closed_Step p s ev wa wb Hs)
             evs w w'); done. }
  destruct Hc' as (_ & Htm & Hpr). split; [done|]. cbn [step]. by rewrite Htm.
Qed.

(** The state a spared command is in. *)
Lemma spared fb id command matcher timeoutMs evs w w2 :
  reachable fb w -> fresh_key id w ->
  run fb evs (fst (execute id command matcher timeoutMs w)) = Some w2 ->
  forallb (spares id (next w) matcher) evs = true ->
  guarded id command matcher (next w) w2
  /\ waiting id command matcher (next w)
       {| Timer.due := now w + delay timeoutMs;
          Timer.callback := ExecuteTimeout id (next w) timeoutMs command |} w2
  /\ NoDup (keys (pending w2)).
Proof.
  intros Hreach Hfresh Hrun Hsp.
  pose proof (reachable_below fb w Hreach) as Hbelow.
  destruct (guarded_execute id command matcher timeoutMs w Hbelow Hfresh) as [Hg Hw].
  set (tm := {| Timer.due := now w + delay timeoutMs;
                Timer.callback := ExecuteTimeout id (next w) timeoutMs command |}) in *.
  assert (Hboth : guarded id command matcher (next w) w2
                  /\ waiting id command matcher (next w) tm w2).
  { apply (run_sparing fb
             (fun w' => guarded id command matcher (next w) w'
                        /\ waiting id command matcher (next w) tm w')
             (spares id (next w) matcher)) with (evs := evs)
             (w := fst (execute id command matcher timeoutMs w)); [|done|done|done].
    intros ev wa wb [Hga Hwa] HS Hq. split.
    - by eapply guarded_Step.
    - by eapply waiting_Step. }
  destruct Hboth as [Hg2 Hw2]. split; [done|]. split; [done|].
  apply (reachable_NoDup_keys fb). eapply run_reachable; [|exact Hrun].
  by apply execute_reachable.
Qed.

(** X21. A command that is answered is done for good.  After [execute]
    under a key new to the map, and turns that leave the command alone,
    a line whose message reaches its matcher first fulfils the promise with
    that message, takes the entry out of the map and clears the timer:
    whatever follows, the promise stays fulfilled and the timeout of the
    command can no longer fire. *)
Theorem execute_answered fb (id command : string) (matcher : CommandMatcher)
        (timeoutMs : Number) w :
  reachable fb w -> fresh_key id w ->
  let w1 := fst (execute id command matcher timeoutMs w) in
  let p := snd (execute id command matcher timeoutMs w) in
  forall evs w2 message parsed before,
  run fb evs w1 = Some w2 -> forallb (spares id p matcher) evs = true ->
  MessageParser.parse message = Ok parsed ->
  first_accepting parsed (pending w2) = Some (before, (id, entry_of p matcher command)) ->
  exists w3,
  step fb (Data message) w2 = Some w3
  /\ promises w3 !! p = Some (Fulfilled (VMessage parsed))
  /\ (id ∉ keys (pending w3))
  /\ timers w3 !! S p = None
  /\ forall evs' w4,
     run fb evs' w3 = Some w4 ->
     promises w4 !! p = Some (Fulfilled (VMessage parsed))
     /\ step fb (TimerFires (S p)) w4 = None.
Proof.
  intros Hreach Hfresh w1 p evs w2 message parsed before Hrun Hsp Hparse Hfirst.
  destruct (execute_fields id command matcher timeoutMs w) as (Hp & _).
  fold p in Hp. subst w1. rewrite Hp in *. clear Hp p.
  destruct (spared fb id command matcher timeoutMs evs w w2 Hreach Hfresh Hrun Hsp)
    as ([Hlt _] & (Hin & Htm & Hun) & Hnodup).
  destruct (first_accepting_Some _ _ _ _ _ Hfirst) as (after & Hpe & Hrej & Hacc).
  rewrite (step_data_consumed fb message parsed before id _ after w2 Hparse Hpe Hrej Hacc).
  eexists. split; [reflexivity|].
  cbn [PendingCommand.promise PendingCommand.timeout entry_of].
  assert (Hful : promises
                   (resolve (next w) (VMessage parsed)
                      (set_pending (map_delete id (pending w2))
                         (clearTimeout (S (next w))
                            (set_log (log w2 ++ (MatcherApplied <$> keys before)
                                        ++ [MatcherApplied id]) w2)))) !! next w
                 = Some (Fulfilled (VMessage parsed))).
  { unfold resolve. rewrite lookup_settle, decide_True by done. cbn. by rewrite Hun. }
  split; [exact Hful|]. split; [|split].
  - unfold resolve. rewrite pending_settle. cbn.
    by destruct (NoDup_map_delete id (pending w2) Hnodup).
  - unfold resolve. rewrite timers_settle. cbn. apply lookup_delete_eq.
  - intros evs' w4 Hrun'. eapply closed_run; [done| |exact Hrun'].
    split; [|split; [|exact Hful]].
    + unfold resolve. rewrite next_settle. cbn. done.
    + unfold resolve. rewrite timers_settle. cbn. apply lookup_delete_eq.
Qed.

Lemma execute_answered_witness :
  let fb : Buffer.t -> option ZclHeader.t := fun _ => None in
  let matcher := type_is T_version in
  let w1 := fst (execute "k" "[TH,GetSwVersion]" matcher (Int 5000) (fst (nextSequence (initial 0)))) in
  let message := "[TH,GetSwVersion,0,ZigBeeBridgeHue,0x0012,6.94.0.37486]" in
  let parsed := version (Int 0) (Some "ZigBeeBridgeHue") (Some "0x0012")
                        (Some "6.94.0.37486") in
  exists w3,
  step fb (Data message) w1 = Some w3
  /\ promises w3 !! 0%nat = Some (Fulfilled (VMessage parsed))
  /\ ("k" ∉ keys (pending w3))
  /\ timers w3 !! 1%nat = None
  /\ forall evs' w4,
     run fb evs' w3 = Some w4 ->
     promises w4 !! 0%nat = Some (Fulfilled (VMessage parsed))
     /\ step fb (TimerFires 1%nat) w4 = None.
Proof.
  intros fb matcher w1 message parsed.
  apply (execute_answered fb "k" "[TH,GetSwVersion]" matcher (Int 5000) (fst (nextSequence (initial 0))))
    with (evs := []) (before := []).
  - exists 0, [Call_nextSequence]. reflexivity.
  - split; [|split].
    + simpl. apply not_elem_of_nil.
    + simpl. intros t tm id' p ms c Hin. by rewrite lookup_empty in Hin.
    + simpl. intros h c Hin. by rewrite lookup_empty in Hin.
  - reflexivity.
  - reflexivity.
  - reflexivity.
  - reflexivity.
Defined.




Lemma below_set_sequenceNumber n v w : below n w -> below n (set_sequenceNumber v w).
Proof. intros [HE HX HT HH]. by split. Qed.

(** What a command without text and without an accepting matcher can come
    to. *)
Definition unanswerable (p : nat) (timeoutMs : Number) w : Prop :=
  promises w !! p = Some Unsettled
  \/ promises w !! p = Some (Rejected (timed_out timeoutMs ""))
  \/ promises w !! p = Some (Rejected cleared).

Lemma unanswerable_Step p matcher timeoutMs ev w w' :
  (forall msg, matcher msg = false) ->
  owned_silent p matcher timeoutMs w -> unanswerable p timeoutMs w -> Step w ev w' ->
  unanswerable p timeoutMs w'.
Proof.
  intros Hnever [Hlt [HE HX HT HH]] Hout HS.
  destruct (Step_promise _ _ _ p HS Hlt) as [Heq|(Hu & s & Hs & Hset)].
  { unfold unanswerable. by rewrite Heq. }
  unfold unanswerable. rewrite Hs.
  destruct Hset as [message parsed k e Hparse Hin Hpe' Hm|message x payload Hin Hx
                   |t tm id' ms c Ht Hdue Hcb|t tm x Ht Hdue Hcb Hin Hx
                   |h c message Hh Hc|k e Hin Hpe'].
  - rewrite (HE _ _ Hin Hpe'), Hnever in Hm. done.
  - by destruct (HX _ Hin).
  - destruct (HT _ _ Ht _ _ _ Hcb) as [-> ->]. auto.
  - by destruct (HX _ Hin).
  - by destruct (HH _ _ Hh).
  - auto.
Qed.

(** X23. A ZDO request [sendZdo] does not know is never sent and never
    answered.  For a cluster outside its [switch] the call, in any world
    the adapter can reach (after earlier requests too), still draws a
    sequence number and registers a command, but with no text and with the
    matcher that accepts nothing: nothing is written, no line can fulfil
    the promise, and the call can only end with the timeout failure
    "Command timeout after 5000ms: " or with the failure of [clear]. *)
Theorem sendZdo_unsupported_cluster fb (id ieeeAddress : string) (networkAddress : Number)
        (cluster : Z) (payload : Buffer.t) (disableResponse : bool) w :
  reachable fb w ->
  exists w1 p,
  sendZdo id ieeeAddress networkAddress (OTHER_CLUSTER cluster) payload disableResponse w
  = Ok (w1, AwaitResponse p)
  /\ log w1 = log w
  /\ sequenceNumber w1 = sequenceNumber w + 1
  /\ reachable fb w1
  /\ forall evs w2,
     run fb evs w1 = Some w2 ->
     promises w2 !! p = Some Unsettled
     \/ promises w2 !! p = Some (Rejected (Error "Command timeout after 5000ms: "))
     \/ promises w2 !! p = Some (Rejected (Error "Command queue cleared")).
Proof.
  intros Hreach. unfold sendZdo. cbn [nextSequence request bind].
  rewrite andb_false_r.
  set (w0 := set_sequenceNumber (sequenceNumber w + 1) w).
  set (never := fun _ : ParsedMessage => false).
  destruct (execute_fields id "" never (Int DEFAULT_TIMEOUT) w0)
    as (Hp & _ & Hpr & _ & _ & _ & Hlog & _ & _ & _ & Hseq & _).
  destruct (execute id "" never (Int DEFAULT_TIMEOUT) w0) as [w1 p] eqn:Hex.
  cbn [fst snd] in *. exists w1, p. split; [done|]. split; [done|]. split; [done|].
  split.
  { apply (run_reachable fb [Call_nextSequence;
                             Call_execute id "" never (Int DEFAULT_TIMEOUT)] w); [done|].
    cbn [run step nextSequence fst]. fold w0. by rewrite Hex. }
  intros evs w2 Hrun.
  assert (Hbelow : below (next w0) w0).
  { change (below (next w) (set_sequenceNumber (sequenceNumber w + 1) w)).
    apply below_set_sequenceNumber. by apply (reachable_below fb). }
  pose proof (owned_silent_execute id never (Int DEFAULT_TIMEOUT) w0 Hbelow) as Hown.
  rewrite Hex in Hown. cbn [fst] in Hown. rewrite <- Hp in Hown.
  assert (Hinv : owned_silent p never (Int DEFAULT_TIMEOUT) w2
                 /\ unanswerable p (Int DEFAULT_TIMEOUT) w2).
  { apply (run_invariant fb
             (fun w' => owned_silent p never (Int DEFAULT_TIMEOUT) w'
                        /\ unanswerable p (Int DEFAULT_TIMEOUT) w')) with (evs := evs) (w := w1);
      [|split|done].
    - intros ev wa wb [Hoa Hua] HS. split; [by eapply owned_silent_Step|].
      by eapply (unanswerable_Step p never).
    - done.
    - left. rewrite Hpr, Hp. apply lookup_insert_eq. }
  destruct Hinv as [_ Hout]. exact Hout.
Qed.


Lemma sendZdo_unsupported_cluster_witness :
  let fb : Buffer.t -> option ZclHeader.t := fun _ => None in
  exists w1 p,
  sendZdo "k" "0x00158d0000732d27" (Int 56449) (OTHER_CLUSTER 56) [] false
    (fst (nextSequence (initial 0)))
  = Ok (w1, AwaitResponse p)
  /\ log w1 = log (fst (nextSequence (initial 0)))
  /\ sequenceNumber w1 = sequenceNumber (fst (nextSequence (initial 0))) + 1
  /\ reachable fb w1
  /\ forall evs w2,
     run fb evs w1 = Some w2 ->
     promises w2 !! p = Some Unsettled
     \/ promises w2 !! p = Some (Rejected (Error "Command timeout after 5000ms: "))
     \/ promises w2 !! p = Some (Rejected (Error "Command queue cleared")).
Proof.
  intros fb.
  apply (sendZdo_unsupported_cluster fb "k" "0x00158d0000732d27" (Int 56449) 56 [] false
           (fst (nextSequence (initial 0)))).
  exists 0, [Call_nextSequence]. reflexivity.
Defined.

End QueueMore.

(* ===================================================================== *)
(** * The command queue: every pending command has a deadline *)
(* ===================================================================== *)

Module Deadlines.
Import JS Runtime CommandQueue HueBridgeAdapter Spec QueueFacts Dynamics QueueLife Invariant.
Local Open Scope list_scope.

Implicit Types (w : World).

(** The handles of one call are consecutive: [execute] and [waitFor] take
    the timer right after the promise. *)
Definition shaped : World -> Prop :=
  confined
    (fun _ e => PendingCommand.timeout e = S (PendingCommand.promise e))
    (fun x => Waiter.timer x = S (Waiter.promise x))
    (fun _ _ => True)
    (fun _ c => ExecuteCatch.timeout c = S (ExecuteCatch.reject c)).

Lemma shaped_Step ev w w' : shaped w -> Step w ev w' -> shaped w'.
Proof.
  intros Hs HS. eapply confined_Step; [exact Hs | exact HS | |].
  - intros id command matcher ms _. by repeat split.
  - intros matcher timeout _. by split.
Qed.

(** The timer of every pending entry is armed, and is the timeout of that
    entry. *)
Definition timed w : Prop :=
  forall k e, (k, e) ∈ pending w ->
  exists tm ms,
    timers w !! PendingCommand.timeout e = Some tm
    /\ Timer.callback tm
       = ExecuteTimeout k (PendingCommand.promise e) ms (PendingCommand.command e).

(** Two entries with one timer have one key. *)
Lemma timed_key w k e k' e' :
  timed w -> (k, e) ∈ pending w -> (k', e') ∈ pending w ->
  PendingCommand.timeout e' = PendingCommand.timeout e -> k' = k.
Proof.
  intros Ht Hin Hin' Heq.
  destruct (Ht _ _ Hin) as (tm & ms & Htm & Hcb).
  destruct (Ht _ _ Hin') as (tm' & ms' & Htm' & Hcb').
  rewrite Heq, Htm in Htm'. injection Htm' as <-. congruence.
Qed.

Lemma timed_Step ev w w' :
  Inv w -> shaped w -> timed w -> Step w ev w' -> timed w'.
Proof.
  intros HI [SE SX _ SH] Ht HS k0 e0.
  pose proof (inv_below w HI) as [BE BX BT BH].
  pose proof (inv_keys w HI) as Hkeys.
  destruct HS; unfold resolve, reject; rewrite ?pending_settle, ?timers_settle; simpl;
    try exact (Ht k0 e0).
  - (* execute *)
    destruct (execute_fields id command matcher timeoutMs w) as (_ & -> & _ & -> & _).
    intros Hin. apply elem_of_map_set in Hin as [[= -> ->]|Hin].
    + eexists _, timeoutMs. simpl. rewrite lookup_insert_eq. by split.
    + destruct (BE _ _ Hin) as [_ Hlt]. rewrite lookup_insert_ne by lia. by apply Ht.
  - (* clear *)
    intros Hin. by apply elem_of_nil in Hin.
  - (* waitFor *)
    intros Hin. destruct (BE _ _ Hin) as [_ Hlt]. rewrite lookup_insert_ne by lia.
    by apply Ht.
  - (* cancel *)
    intros Hin. rewrite lookup_delete_ne; [by apply Ht|].
    rewrite (SE _ _ Hin), (SX _ H). intros [= Heq].
    by apply (inv_waiters w HI x k0 e0 H Hin).
  - (* a message consumed *)
    intros Hin. apply (map_delete_other _ _ _ _ Hkeys) in Hin as [Hne Hin].
    assert (Hin0 : (id, e) ∈ pending w) by (rewrite H0; apply elem_of_app; right; by left).
    rewrite lookup_delete_ne; [by apply Ht|].
    intros Heq. apply Hne. by apply (timed_key w id e k0 e0).
  - (* an indication *)
    intros Hin. rewrite lookup_delete_ne; [by apply Ht|].
    rewrite (SE _ _ Hin), (SX _ H). intros [= Heq].
    by apply (inv_waiters w HI x k0 e0 H Hin).
  - (* the timer of a command *)
    intros Hin. apply (map_delete_other _ _ _ _ Hkeys) in Hin as [Hne Hin].
    destruct (Ht _ _ Hin) as (tm' & ms' & Htm' & Hcb').
    rewrite lookup_delete_ne; [by eauto|].
    intros ->. rewrite H in Htm'. injection Htm' as <-. congruence.
  - (* the timer of a waiter that is gone *)
    intros Hin. destruct (Ht _ _ Hin) as (tm' & ms' & Htm' & Hcb').
    rewrite lookup_delete_ne; [by eauto|].
    intros ->. rewrite H in Htm'. injection Htm' as <-. congruence.
  - (* the timer of a waiter *)
    intros Hin. destruct (Ht _ _ Hin) as (tm' & ms' & Htm' & Hcb').
    rewrite lookup_delete_ne; [by eauto|].
    intros ->. rewrite H in Htm'. injection Htm' as <-. congruence.
  - (* a write failed *)
    intros Hin. apply (map_delete_other _ _ _ _ Hkeys) in Hin as [Hne Hin].
    rewrite lookup_delete_ne; [by apply Ht|].
    rewrite (SE _ _ Hin), (SH _ _ H). intros [= Heq].
    apply Hne. by apply (inv_writes w HI h c k0 e0 H Hin).
Qed.

Lemma shaped_initial t0 : shaped (initial t0).
Proof. split; simpl; intros; by (apply elem_of_nil in H || rewrite lookup_empty in H). Qed.

Lemma reachable_timed fb w : reachable fb w -> Inv w /\ shaped w /\ timed w.
Proof.
  intros (t0 & evs & Hr).
  apply (run_invariant fb (fun w => Inv w /\ shaped w /\ timed w)) with (evs := evs)
                                                                     (w := initial t0);
    [|split; [|split]|exact Hr].
  - intros ev w1 w2 (HI & Hs & Ht) HS.
    split; [by eapply Inv_Step|]. split; [by eapply shaped_Step | by eapply timed_Step].
  - apply Inv_initial.
  - apply shaped_initial.
  - intros k e Hin. by apply elem_of_nil in Hin.
Qed.

(** X24. No command stays pending without a deadline.  In every world
    the adapter can reach, each entry of the pending map has an unsettled
    promise and an armed timer, and that timer is the timeout of this very
    entry: it carries the entry's key, promise and command text.  So once
    the clock has reached the timer's due time the timer can fire, and it
    then removes the entry and rejects the promise with the timeout
    failure of that command, "Command timeout after <ms>ms: <command>". *)
Theorem pending_command_has_deadline fb w (k : string) (e : PendingCommand.t) :
  reachable fb w -> (k, e) ∈ pending w ->
  exists tm ms,
    timers w !! PendingCommand.timeout e = Some tm
    /\ Timer.callback tm
       = ExecuteTimeout k (PendingCommand.promise e) ms (PendingCommand.command e)
    /\ promises w !! PendingCommand.promise e = Some Unsettled
    /\ forall dt, 0 <= dt -> Timer.due tm <= now w + dt ->
       exists w' x,
         run fb [Tick dt; TimerFires (PendingCommand.timeout e)] w = Some w'
         /\ (k ∉ keys (pending w'))
         /\ timers w' !! PendingCommand.timeout e = None
         /\ promises w' !! PendingCommand.promise e = Some (Rejected x)
         /\ Text.timeout_failure ms (PendingCommand.command e) x.
Proof.
  intros Hreach Hin.
  destruct (reachable_timed fb w Hreach) as (HI & _ & Ht).
  destruct (Ht _ _ Hin) as (tm & ms & Htm & Hcb).
  pose proof (inv_unsettled w HI _ _ Hin) as Hun.
  exists tm, ms. split; [done|]. split; [done|]. split; [done|].
  intros dt Hdt Hdue.
  cbn [run step]. destruct (Z.leb_spec 0 dt) as [_|]; [|lia].
  cbn [timers set_now now]. rewrite Htm.
  destruct (Z.leb_spec (Timer.due tm) (now w + dt)) as [_|]; [|lia].
  rewrite Hcb. eexists _, (timed_out ms (PendingCommand.command e)). split; [reflexivity|].
  unfold on_timeout, reject. rewrite pending_settle, timers_settle, lookup_settle.
  rewrite decide_True by done. simpl. rewrite Hun.
  split; [|split; [apply lookup_delete_eq | split; [done|]]].
  - apply NoDup_map_delete. exact (inv_keys w HI).
  - apply timed_out_failure.
Qed.

Lemma pending_command_has_deadline_witness :
  let fb : Buffer.t -> option ZclHeader.t := fun _ => None in
  let matcher := type_is T_version in
  let w := fst (execute "k" "[TH,GetSwVersion]" matcher (Int 5000)
                  (fst (nextSequence (initial 0)))) in
  let e := entry_of 0 matcher "[TH,GetSwVersion]" in
  exists tm ms,
    timers w !! PendingCommand.timeout e = Some tm
    /\ Timer.callback tm
       = ExecuteTimeout "k" (PendingCommand.promise e) ms (PendingCommand.command e)
    /\ promises w !! PendingCommand.promise e = Some Unsettled
    /\ forall dt, 0 <= dt -> Timer.due tm <= now w + dt ->
       exists w' x,
         run fb [Tick dt; TimerFires (PendingCommand.timeout e)] w = Some w'
         /\ ("k" ∉ keys (pending w'))
         /\ timers w' !! PendingCommand.timeout e = None
         /\ promises w' !! PendingCommand.promise e = Some (Rejected x)
         /\ Text.timeout_failure ms (PendingCommand.command e) x.
Proof.
  intros fb matcher w e.
  apply (pending_command_has_deadline fb w "k" e).
  - exists 0, [Call_nextSequence; Call_execute "k" "[TH,GetSwVersion]" matcher (Int 5000)].
    reflexivity.
  - apply list_elem_of_singleton. reflexivity.
Defined.

End Deadlines.
